(** * Streaming playout engine of the Prompt DJ application

    A shallow embedding of the playback logic of [src/index.tsx]
    (class [PromptDjApp]) and of its WAV export.

    Conventions of the embedding.
    - A JavaScript number holding a time in seconds is an exact rational
      ([Q]), where the source computes with doubles.  The properties of the
      schedule are therefore stated on the expressions that the code
      computes, with the operations in the order of the code, and on the
      comparisons it makes, so that they do not rest on the arithmetic
      being exact.  [===], [<] and [>=] on numbers are [Qeq_bool],
      [Qlt_bool] and [Qle_bool].
    - The reading of the device clock ([audioContext.currentTime]) is an
      argument [now] of every operation that consults it.
    - A method of the class is a function [App -> App]; the fields of the
      class and the part of the browser the methods talk to (pending decode
      promises, requested animation frames, the remote session, the gain
      automation) are fields of one record.
    - DOM, canvas and logging calls have no effect on these fields and are
      left out. *)

From Stdlib Require Import List Bool Arith ZArith QArith Qminmax Qround Qfield Lia Lqa
  Permutation.
From Stdlib Require Ascii String DecimalString.
Import String.StringSyntax.
Delimit Scope string_scope with string.
Import ListNotations.

Local Open Scope Q_scope.

(** ** Data model *)

(** [type PlaybackState = 'stopped' | 'playing' | 'loading' | 'paused'] *)
Inductive PlaybackState : Type :=
| stopped
| playing
| loading
| paused.

Definition PlaybackState_eqb (a b : PlaybackState) : bool :=
  match a, b with
  | stopped, stopped | playing, playing
  | loading, loading | paused, paused => true
  | _, _ => false
  end.

(** A [Uint8Array]: the bytes as integers in [0, 256). *)
Definition Chunk : Type := list Z.

(** An [AudioBuffer] as the engine sees it: the PCM data it was decoded
    from and its [duration] in seconds.  [decodeAudioData] belongs to
    [./utils], which is not part of the sources at hand, so the duration of a
    decoded buffer is supplied by the environment with the completion of the
    decode (see [EvDecoded]). *)
Record AudioBuffer : Type := mkAudioBuffer {
  pcm : Chunk;
  duration : Q
}.

(** An [AudioBufferSourceNode] that has been started: [source.start(when,
    offset)] on [buffer].  Nodes are compared by identity in the source
    ([s !== source]); [sourceId] is that identity. *)
Record AudioBufferSourceNode : Type := mkSource {
  sourceId : nat;
  buffer : AudioBuffer;
  startWhen : Q;
  startOffset : Q
}.

(** Commands sent to the remote [LiveMusicSession]. *)
Inductive SessionCmd : Type :=
| CmdPlay
| CmdPause
| CmdStop.

(** Automation events of [outputNode.gain]. *)
Inductive GainEvent : Type :=
| SetValueAtTime (value time : Q)
| LinearRampToValueAtTime (value time : Q).

(** The fields of [PromptDjApp] that the playback engine uses (first
    eleven, named as in the source), followed by the state of the browser
    that its callbacks depend on. *)
Record App : Type := mkApp {
  playbackState : PlaybackState;
  totalDuration : Q;
  currentPlaybackTime : Q;
  activeSources : list AudioBufferSourceNode;
  decodedAudioBuffers : list AudioBuffer;
  isSeeking : bool;
  animationFrameId : option nat;
  streamStartTime : Q;
  session : option nat;
  receivedAudioChunks : list Chunk;
  nextStartTime : Q;
  (* decodeAudioData promises that have not resolved yet, oldest first *)
  pendingDecodes : list Chunk;
  (* animation frames requested and neither run nor cancelled *)
  pendingFrames : list nat;
  frameCounter : nat;
  sourceCounter : nat;
  (* commands issued so far, with the session they went to *)
  sessionLog : list (nat * SessionCmd);
  gainEvents : list GainEvent;
  (* connectToSession calls still awaiting ai.live.music.connect *)
  pendingConnects : nat;
  (* the window listeners installed by handleSeekPointerDown *)
  dragListeners : bool
}.

(** Field updates ([this.f = v]). *)
Definition setPlaybackState (v : PlaybackState) (s : App) : App :=
  match s with
  | mkApp _ td cpt srcs bufs sk af sst sess chs nst pd pf fc sc sl ge pc dl =>
      mkApp v td cpt srcs bufs sk af sst sess chs nst pd pf fc sc sl ge pc dl
  end.

Definition setTotalDuration (v : Q) (s : App) : App :=
  match s with
  | mkApp ps _ cpt srcs bufs sk af sst sess chs nst pd pf fc sc sl ge pc dl =>
      mkApp ps v cpt srcs bufs sk af sst sess chs nst pd pf fc sc sl ge pc dl
  end.

Definition setCurrentPlaybackTime (v : Q) (s : App) : App :=
  match s with
  | mkApp ps td _ srcs bufs sk af sst sess chs nst pd pf fc sc sl ge pc dl =>
      mkApp ps td v srcs bufs sk af sst sess chs nst pd pf fc sc sl ge pc dl
  end.

Definition setActiveSources (v : list AudioBufferSourceNode) (s : App) : App :=
  match s with
  | mkApp ps td cpt _ bufs sk af sst sess chs nst pd pf fc sc sl ge pc dl =>
      mkApp ps td cpt v bufs sk af sst sess chs nst pd pf fc sc sl ge pc dl
  end.

Definition setDecodedAudioBuffers (v : list AudioBuffer) (s : App) : App :=
  match s with
  | mkApp ps td cpt srcs _ sk af sst sess chs nst pd pf fc sc sl ge pc dl =>
      mkApp ps td cpt srcs v sk af sst sess chs nst pd pf fc sc sl ge pc dl
  end.

Definition setIsSeeking (v : bool) (s : App) : App :=
  match s with
  | mkApp ps td cpt srcs bufs _ af sst sess chs nst pd pf fc sc sl ge pc dl =>
      mkApp ps td cpt srcs bufs v af sst sess chs nst pd pf fc sc sl ge pc dl
  end.

Definition setAnimationFrameId (v : option nat) (s : App) : App :=
  match s with
  | mkApp ps td cpt srcs bufs sk _ sst sess chs nst pd pf fc sc sl ge pc dl =>
      mkApp ps td cpt srcs bufs sk v sst sess chs nst pd pf fc sc sl ge pc dl
  end.

Definition setStreamStartTime (v : Q) (s : App) : App :=
  match s with
  | mkApp ps td cpt srcs bufs sk af _ sess chs nst pd pf fc sc sl ge pc dl =>
      mkApp ps td cpt srcs bufs sk af v sess chs nst pd pf fc sc sl ge pc dl
  end.

Definition setSession (v : option nat) (s : App) : App :=
  match s with
  | mkApp ps td cpt srcs bufs sk af sst _ chs nst pd pf fc sc sl ge pc dl =>
      mkApp ps td cpt srcs bufs sk af sst v chs nst pd pf fc sc sl ge pc dl
  end.

Definition setReceivedAudioChunks (v : list Chunk) (s : App) : App :=
  match s with
  | mkApp ps td cpt srcs bufs sk af sst sess _ nst pd pf fc sc sl ge pc dl =>
      mkApp ps td cpt srcs bufs sk af sst sess v nst pd pf fc sc sl ge pc dl
  end.

Definition setNextStartTime (v : Q) (s : App) : App :=
  match s with
  | mkApp ps td cpt srcs bufs sk af sst sess chs _ pd pf fc sc sl ge pc dl =>
      mkApp ps td cpt srcs bufs sk af sst sess chs v pd pf fc sc sl ge pc dl
  end.

Definition setPendingDecodes (v : list Chunk) (s : App) : App :=
  match s with
  | mkApp ps td cpt srcs bufs sk af sst sess chs nst _ pf fc sc sl ge pc dl =>
      mkApp ps td cpt srcs bufs sk af sst sess chs nst v pf fc sc sl ge pc dl
  end.

Definition setPendingFrames (v : list nat) (s : App) : App :=
  match s with
  | mkApp ps td cpt srcs bufs sk af sst sess chs nst pd _ fc sc sl ge pc dl =>
      mkApp ps td cpt srcs bufs sk af sst sess chs nst pd v fc sc sl ge pc dl
  end.

Definition setFrameCounter (v : nat) (s : App) : App :=
  match s with
  | mkApp ps td cpt srcs bufs sk af sst sess chs nst pd pf _ sc sl ge pc dl =>
      mkApp ps td cpt srcs bufs sk af sst sess chs nst pd pf v sc sl ge pc dl
  end.

Definition setSourceCounter (v : nat) (s : App) : App :=
  match s with
  | mkApp ps td cpt srcs bufs sk af sst sess chs nst pd pf fc _ sl ge pc dl =>
      mkApp ps td cpt srcs bufs sk af sst sess chs nst pd pf fc v sl ge pc dl
  end.

Definition setSessionLog (v : list (nat * SessionCmd)) (s : App) : App :=
  match s with
  | mkApp ps td cpt srcs bufs sk af sst sess chs nst pd pf fc sc _ ge pc dl =>
      mkApp ps td cpt srcs bufs sk af sst sess chs nst pd pf fc sc v ge pc dl
  end.

Definition setGainEvents (v : list GainEvent) (s : App) : App :=
  match s with
  | mkApp ps td cpt srcs bufs sk af sst sess chs nst pd pf fc sc sl _ pc dl =>
      mkApp ps td cpt srcs bufs sk af sst sess chs nst pd pf fc sc sl v pc dl
  end.

Definition setPendingConnects (v : nat) (s : App) : App :=
  match s with
  | mkApp ps td cpt srcs bufs sk af sst sess chs nst pd pf fc sc sl ge _ dl =>
      mkApp ps td cpt srcs bufs sk af sst sess chs nst pd pf fc sc sl ge v dl
  end.

Definition setDragListeners (v : bool) (s : App) : App :=
  match s with
  | mkApp ps td cpt srcs bufs sk af sst sess chs nst pd pf fc sc sl ge pc _ =>
      mkApp ps td cpt srcs bufs sk af sst sess chs nst pd pf fc sc sl ge pc v
  end.

(** The state of a freshly constructed [PromptDjApp]. *)
Definition initialApp : App :=
  {| playbackState := stopped; totalDuration := 0; currentPlaybackTime := 0;
     activeSources := []; decodedAudioBuffers := []; isSeeking := false;
     animationFrameId := None; streamStartTime := 0; session := None;
     receivedAudioChunks := []; nextStartTime := 0; pendingDecodes := [];
     pendingFrames := []; frameCounter := O; sourceCounter := O;
     sessionLog := []; gainEvents := []; pendingConnects := O;
     dragListeners := false |}.

(** [private readonly bufferTime = 1.0] *)
Definition bufferTime : Q := 1.

(** [a < b] on numbers. *)
Definition Qlt_bool (a b : Q) : bool := negb (Qle_bool b a).

(** [Math.max(0, Math.min(1, r))] *)
Definition clampRatio (r : Q) : Q := Qmax 0 (Qmin 1 r).

(** ** The playback engine *)

Module Engine.

(** [this.animationFrameId = requestAnimationFrame(this.updateProgress)]:
    frame identifiers are positive, hence truthy. *)
Definition requestFrame (s : App) : App :=
  let id := S (frameCounter s) in
  setAnimationFrameId (Some id)
    (setPendingFrames (pendingFrames s ++ [id]) (setFrameCounter id s)).

(** [if (this.animationFrameId) cancelAnimationFrame(this.animationFrameId)] *)
Definition cancelFrame (s : App) : App :=
  match animationFrameId s with
  | Some id => setPendingFrames (filter (fun f => negb (Nat.eqb f id)) (pendingFrames s)) s
  | None => s
  end.

(** [updateProgress] (lines 624-634); [visualize] only draws. *)
Definition updateProgress (now : Q) (s : App) : App :=
  if isSeeking s then requestFrame s
  else
    match playbackState s with
    | playing | loading =>
        let elapsed := now - streamStartTime s in
        requestFrame
          (setCurrentPlaybackTime (Qmax 0 (Qmin elapsed (totalDuration s))) s)
    | stopped | paused => s
    end.

(** [clearAllSources] (lines 591-594) *)
Definition clearAllSources (s : App) : App := setActiveSources [] s.

(** [this.session.play()] and the like, on session [sid]. *)
Definition sendCmd (sid : nat) (c : SessionCmd) (s : App) : App :=
  setSessionLog (sessionLog s ++ [(sid, c)]) s.

Definition gainAutomation (e : GainEvent) (s : App) : App :=
  setGainEvents (gainEvents s ++ [e]) s.

(** A new source node on [b], started at [startTime] from [offset], pushed
    on [activeSources]. *)
Definition pushSource (b : AudioBuffer) (startTime offset : Q) (s : App) : App :=
  let id := sourceCounter s in
  setActiveSources (activeSources s ++ [mkSource id b startTime offset])
    (setSourceCounter (S id) s).

(** The [then] callback of [handleServerMessage] (lines 492-522), run when
    the decode of a chunk resolves with [audioBuffer].  The source node is
    created and pushed before its start time is known and started at the end;
    nothing in between reads [activeSources], so the node is pushed here once
    it is started. *)
Definition onDecoded (audioBuffer : AudioBuffer) (now : Q) (s : App) : App :=
  let s := setDecodedAudioBuffers (decodedAudioBuffers s ++ [audioBuffer]) s in
  match playbackState s with
  | paused | stopped => s
  | playing | loading =>
      let s := setTotalDuration (totalDuration s + duration audioBuffer) s in
      let s :=
        if Qeq_bool (nextStartTime s) 0 then
          let s := setNextStartTime (now + bufferTime) s in
          let s := setStreamStartTime (nextStartTime s) s in
          updateProgress now s
        else s in
      let s :=
        match playbackState s with
        | loading => setPlaybackState playing s
        | _ => s
        end in
      let s :=
        if Qlt_bool (nextStartTime s) now then setNextStartTime now s else s in
      let s := pushSource audioBuffer (nextStartTime s) 0 s in
      setNextStartTime (nextStartTime s + duration audioBuffer) s
  end.

(** [handleServerMessage] up to the call of [decodeAudioData] (lines
    486-492), for a message that passes the guard of line 487 (its first
    audio chunk has data): the decoded chunk is stored and its decode is
    started.  A message without such data is ignored by the guard and is no
    event of the model. *)
Definition handleServerMessage (decoded : Chunk) (s : App) : App :=
  setPendingDecodes (pendingDecodes s ++ [decoded])
    (setReceivedAudioChunks (receivedAudioChunks s ++ [decoded]) s).

(** [loadAudio] (lines 581-589) *)
Definition loadAudio (now : Q) (s : App) : App :=
  match session s with
  | None => s
  | Some sid =>
      let s := updateProgress now s in
      let s := sendCmd sid CmdPlay s in
      let s :=
        setPlaybackState
          (match playbackState s with paused => playing | _ => loading end) s in
      let s := gainAutomation (SetValueAtTime 0 now) s in
      gainAutomation (LinearRampToValueAtTime 1 (now + (1 # 10))) s
  end.

(** [pauseAudio] (lines 596-604); [gainValue] is the reading of
    [outputNode.gain.value]. *)
Definition pauseAudio (now gainValue : Q) (s : App) : App :=
  match session s with
  | None => s
  | Some sid =>
      let s := cancelFrame s in
      let s := sendCmd sid CmdPause s in
      let s := setPlaybackState paused s in
      let s := gainAutomation (SetValueAtTime gainValue now) s in
      let s := gainAutomation (LinearRampToValueAtTime 0 (now + (1 # 10))) s in
      clearAllSources s
  end.

(** [stopAudio] (lines 606-620) *)
Definition stopAudio (s : App) : App :=
  let s :=
    match session s with
    | Some sid => setSession None (sendCmd sid CmdStop s)
    | None => s
    end in
  let s := cancelFrame s in
  let s := clearAllSources s in
  let s := setPlaybackState stopped s in
  let s := setNextStartTime 0 s in
  let s := setTotalDuration 0 s in
  let s := setCurrentPlaybackTime 0 s in
  let s := setStreamStartTime 0 s in
  let s := setReceivedAudioChunks [] s in
  setDecodedAudioBuffers [] s.

(** [scheduleBuffer] (lines 870-878) *)
Definition scheduleBuffer (b : AudioBuffer) (startTime offset : Q) (s : App) : App :=
  let s := pushSource b startTime offset s in
  setNextStartTime (startTime + (duration b - offset)) s.

(** One iteration of the loop of [seekToTime] (lines 852-862); the loop
    state is the application with [accumulatedDuration] and [hasScheduled]. *)
Definition seekStep (seekTime : Q) (st : App * Q * bool) (b : AudioBuffer)
  : App * Q * bool :=
  let '(s, accumulatedDuration, hasScheduled) := st in
  let bufferEnd := accumulatedDuration + duration b in
  if negb hasScheduled && Qle_bool seekTime bufferEnd then
    let offset := seekTime - accumulatedDuration in
    (scheduleBuffer b (nextStartTime s) offset s, bufferEnd, true)
  else if hasScheduled then
    (scheduleBuffer b (nextStartTime s) 0 s, bufferEnd, hasScheduled)
  else (s, bufferEnd, hasScheduled).

Definition seekLoop (seekTime : Q) (bs : list AudioBuffer) (st : App * Q * bool)
  : App * Q * bool :=
  fold_left (seekStep seekTime) bs st.

(** [seekToTime] (lines 844-868) *)
Definition seekToTime (seekTime now : Q) (s : App) : App :=
  let s := clearAllSources s in
  let s := setCurrentPlaybackTime seekTime s in
  let s := setStreamStartTime (now - seekTime) s in
  let s := setNextStartTime now s in
  let '(s, _, _) := seekLoop seekTime (decodedAudioBuffers s) (s, 0, false) in
  match playbackState s with
  | paused =>
      let s := setPlaybackState playing s in
      match session s with
      | Some sid => sendCmd sid CmdPlay s
      | None => s
      end
  | _ => s
  end.

(** The guard shared by [handleSeek] and [handleSeekPointerDown]:
    [this.playbackState === 'stopped' || !this.totalDuration]. *)
Definition seekDisabled (s : App) : bool :=
  PlaybackState_eqb (playbackState s) stopped || Qeq_bool (totalDuration s) 0.

(** [handleSeek] (lines 880-888) for a click that is not on the handle;
    [ratio] is the position of the click along the progress bar,
    [(e.clientX - rect.left) / rect.width], before clamping. *)
Definition handleSeek (ratio now : Q) (s : App) : App :=
  if seekDisabled s then s
  else seekToTime (totalDuration s * clampRatio ratio) now s.

(** [handleSeekPointerDown] (lines 920-948) and the two listeners it
    installs. *)
Definition handleSeekPointerDown (s : App) : App :=
  if seekDisabled s then s
  else setDragListeners true (setIsSeeking true s).

Definition onPointerMove (ratio : Q) (s : App) : App :=
  if dragListeners s then
    setCurrentPlaybackTime (totalDuration s * clampRatio ratio) s
  else s.

Definition onPointerUp (ratio now : Q) (s : App) : App :=
  if dragListeners s then
    let s := setDragListeners false (setIsSeeking false s) in
    seekToTime (totalDuration s * clampRatio ratio) now s
  else s.

(** [connectToSession] (lines 467-484) is asynchronous: its first
    statement runs at once, the rest when the connection is established or
    has failed. *)
Definition connectToSession_begin (s : App) : App :=
  setPendingConnects (S (pendingConnects s)) (setPlaybackState loading s).

Definition connectToSession_connected (sid : nat) (now : Q) (s : App) : App :=
  match pendingConnects s with
  | O => s
  | S n => loadAudio now (setSession (Some sid) (setPendingConnects n s))
  end.

Definition connectToSession_failed (s : App) : App :=
  match pendingConnects s with
  | O => s
  | S n => setPlaybackState stopped (setPendingConnects n s)
  end.

(** [handlePlayPause] (lines 569-579) *)
Definition handlePlayPause (now gainValue : Q) (s : App) : App :=
  match playbackState s with
  | playing | loading => pauseAudio now gainValue s
  | paused | stopped =>
      match session s with
      | None => connectToSession_begin s
      | Some _ => loadAudio now s
      end
  end.

(** [source.onended]: the node leaves [activeSources]. *)
Definition onEnded (id : nat) (s : App) : App :=
  setActiveSources
    (filter (fun src => negb (Nat.eqb (sourceId src) id)) (activeSources s)) s.

(** The element at position [k] removed. *)
Fixpoint removeNth {A : Type} (k : nat) (l : list A) : list A :=
  match l, k with
  | [], _ => []
  | _ :: l', O => l'
  | x :: l', S k' => x :: removeNth k' l'
  end.

(** *** Events

    Everything that makes the application run a piece of its code. *)
Inductive Event : Type :=
| EvPlayPause (now gainValue : Q)      (* click on the play button *)
| EvConnected (sid : nat) (now : Q)    (* ai.live.music.connect resolved *)
| EvConnectFailed                      (* ... or was rejected *)
| EvMessage (decoded : Chunk)          (* onmessage with audio data *)
| EvDecoded (k : nat) (dur now : Q)    (* the k-th pending decode resolves *)
| EvDecodeFailed (k : nat)             (* ... or is rejected *)
| EvReset                              (* click on the reset button *)
| EvSessionError                       (* onerror of the session *)
| EvFrame (id : nat) (now : Q)         (* animation frame [id] runs *)
| EvEnded (id : nat)                   (* onended of source [id] *)
| EvSeek (ratio now : Q)               (* click on the progress bar *)
| EvPointerDown                        (* pointerdown on the handle *)
| EvPointerMove (ratio : Q)
| EvPointerUp (ratio now : Q).

Definition step (s : App) (e : Event) : App :=
  match e with
  | EvPlayPause now g => handlePlayPause now g s
  | EvConnected sid now => connectToSession_connected sid now s
  | EvConnectFailed => connectToSession_failed s
  | EvMessage c => handleServerMessage c s
  | EvDecoded k dur now =>
      match nth_error (pendingDecodes s) k with
      | Some c =>
          onDecoded (mkAudioBuffer c dur) now
            (setPendingDecodes (removeNth k (pendingDecodes s)) s)
      | None => s
      end
  | EvDecodeFailed k => setPendingDecodes (removeNth k (pendingDecodes s)) s
  | EvReset => stopAudio s
  | EvSessionError => stopAudio s
  | EvFrame id now =>
      if existsb (Nat.eqb id) (pendingFrames s) then
        updateProgress now
          (setPendingFrames
             (filter (fun f => negb (Nat.eqb f id)) (pendingFrames s)) s)
      else s
  | EvEnded id => onEnded id s
  | EvSeek ratio now => handleSeek ratio now s
  | EvPointerDown => handleSeekPointerDown s
  | EvPointerMove ratio => onPointerMove ratio s
  | EvPointerUp ratio now => onPointerUp ratio now s
  end.

Definition run (evs : list Event) (s : App) : App := fold_left step evs s.

(** A state the application can be in. *)
Definition reachable (s : App) : Prop := exists evs, s = run evs initialApp.

End Engine.

(** ** WAV export *)

Module Wav.

Local Open Scope Z_scope.

(** Typed-array and [DataView] writes throw a [RangeError] when they fall
    outside the array: [None]. *)
Definition bind {A B : Type} (m : option A) (f : A -> option B) : option B :=
  match m with
  | Some a => f a
  | None => None
  end.

Notation "x <- m ;; k" := (bind m (fun x => k))
  (at level 61, m at next level, right associativity).

(** [new Uint8Array(n)] / [new ArrayBuffer(n)]: [n] zero bytes. *)
Definition newBytes (n : nat) : list Z := repeat 0 n.

(** [dst.set(src, offset)] on [Uint8Array]s. *)
Definition typedArraySet (src : list Z) (offset : nat) (dst : list Z)
  : option (list Z) :=
  if (offset + length src <=? length dst)%nat then
    Some (firstn offset dst ++ src ++ skipn (offset + length src) dst)
  else None.

(** [view.setUint8(offset, value)] *)
Definition setUint8 (offset : nat) (value : Z) (view : list Z) : option (list Z) :=
  typedArraySet [Z.land value 255] offset view.

(** Byte [i] of [value], least significant first. *)
Definition byteOf (value : Z) (i : nat) : Z :=
  Z.land (Z.shiftr value (8 * Z.of_nat i)) 255.

(** [view.setUint16(offset, value, true)] *)
Definition setUint16 (offset : nat) (value : Z) (view : list Z) : option (list Z) :=
  typedArraySet [byteOf value 0; byteOf value 1] offset view.

(** [view.setUint32(offset, value, true)] *)
Definition setUint32 (offset : nat) (value : Z) (view : list Z) : option (list Z) :=
  typedArraySet [byteOf value 0; byteOf value 1; byteOf value 2; byteOf value 3]
    offset view.

(** [str.charCodeAt(i)] for each [i]. *)
Definition charCodes (str : String.string) : list Z :=
  map (fun c => Z.of_nat (Ascii.nat_of_ascii c)) (String.list_ascii_of_string str).

(** The local [writeString] of [writeWavHeader]. *)
Fixpoint writeCodes (offset : nat) (codes : list Z) (view : list Z)
  : option (list Z) :=
  match codes with
  | [] => Some view
  | c :: codes' =>
      view <- setUint8 offset c view ;;
      writeCodes (S offset) codes' view
  end.

Definition writeString (offset : nat) (str : String.string) (view : list Z)
  : option (list Z) :=
  writeCodes offset (charCodes str) view.

(** [writeWavHeader] (lines 649-669).  The arguments are integers;
    [bitsPerSample / 8] is a real division whose product is truncated by the
    integer write, hence [Z.quot] of the whole product. *)
Definition writeWavHeader (dataLength sampleRate numChannels bitsPerSample : Z)
  : option (list Z) :=
  let view := newBytes 44 in
  view <- writeString 0 "RIFF"%string view ;;
  view <- setUint32 4 (36 + dataLength) view ;;
  view <- writeString 8 "WAVE"%string view ;;
  view <- writeString 12 "fmt "%string view ;;
  view <- setUint32 16 16 view ;;
  view <- setUint16 20 1 view ;;
  view <- setUint16 22 numChannels view ;;
  view <- setUint32 24 sampleRate view ;;
  view <- setUint32 28 (Z.quot (sampleRate * numChannels * bitsPerSample) 8) view ;;
  view <- setUint16 32 (Z.quot (numChannels * bitsPerSample) 8) view ;;
  view <- setUint16 34 bitsPerSample view ;;
  view <- writeString 36 "data"%string view ;;
  view <- setUint32 40 dataLength view ;;
  Some view.

(** [this.audioContext.sampleRate]: the context is created with
    [{ sampleRate: 48000 }] (line 438). *)
Definition contextSampleRate : Z := 48000.

(** The copy loop of [handleDownloadWav] (lines 675-679): the state is
    [concatenatedData] and [offset]. *)
Definition copyChunk (st : option (list Z * nat)) (chunk : Chunk)
  : option (list Z * nat) :=
  st <- st ;;
  data <- typedArraySet chunk (snd st) (fst st) ;;
  Some (data, (snd st + length chunk)%nat).

(** [handleDownloadWav] (lines 671-693): the contents of the downloaded
    blob, [None] when nothing is downloaded. *)
Definition handleDownloadWav (receivedAudioChunks : list Chunk) : option (list Z) :=
  match receivedAudioChunks with
  | [] => None
  | _ =>
      let totalLength :=
        fold_left (fun acc chunk => (acc + length chunk)%nat) receivedAudioChunks O in
      st <- fold_left copyChunk receivedAudioChunks (Some (newBytes totalLength, O)) ;;
      let concatenatedData := fst st in
      header <- writeWavHeader (Z.of_nat totalLength) contextSampleRate 2 16 ;;
      let wavData := newBytes (length header + totalLength) in
      wavData <- typedArraySet header 0 wavData ;;
      typedArraySet concatenatedData (length header) wavData
  end.

(** Reading the file back: [len] bytes from [offset], and the unsigned
    little-endian number they hold. *)
Definition slice (offset len : nat) (bytes : list Z) : list Z :=
  firstn len (skipn offset bytes).

Fixpoint littleEndian (bytes : list Z) : Z :=
  match bytes with
  | [] => 0
  | b :: bytes' => b + 256 * littleEndian bytes'
  end.

End Wav.

(** ** Notions used to state the properties *)

(** The value of [accumulatedDuration] after the loop of [seekToTime] has
    gone through [bs], starting from [acc]: the durations added one after
    the other, in the order of the code. *)
Definition accumulate (acc : Q) (bs : list AudioBuffer) : Q :=
  fold_left (fun a b => a + duration b) bs acc.

(** The sum of the durations of the buffers of a timeline. *)
Definition timelineDuration (bs : list AudioBuffer) : Q := accumulate 0 bs.

(** Sources started back to back from [start], each from the beginning of
    its buffer, with identities from [id] on. *)
Fixpoint backToBack (id : nat) (start : Q) (bs : list AudioBuffer)
  : list AudioBufferSourceNode :=
  match bs with
  | [] => []
  | b :: bs' => mkSource id b start 0 :: backToBack (S id) (start + (duration b - 0)) bs'
  end.

(** The instant at which the last of them ends. *)
Fixpoint chainEnd (start : Q) (bs : list AudioBuffer) : Q :=
  match bs with
  | [] => start
  | b :: bs' => chainEnd (start + (duration b - 0)) bs'
  end.

(** No buffer of [bs], laid out from [acc], ends at or after [t]. *)
Fixpoint endsBefore (t acc : Q) (bs : list AudioBuffer) : Prop :=
  match bs with
  | [] => True
  | b :: bs' => acc + duration b < t /\ endsBefore t (acc + duration b) bs'
  end.

(** A scheduling operation: the decode of a buffer completes (the [then]
    callback of [handleServerMessage] runs), or the application seeks
    ([seekToTime], which calls [scheduleBuffer]); each comes with the
    reading of the device clock. *)
Inductive Scheduling : Type :=
| Completes (b : AudioBuffer) (now : Q)
| SeeksTo (seekTime now : Q).

Definition perform (s : App) (op : Scheduling) : App :=
  match op with
  | Completes b now => Engine.onDecoded b now s
  | SeeksTo seekTime now => Engine.seekToTime seekTime now s
  end.

(** The live sources that an operation leaves in place: a seek stops them
    all before it schedules. *)
Definition kept (s : App) (op : Scheduling) : list AudioBufferSourceNode :=
  match op with
  | Completes _ _ => activeSources s
  | SeeksTo _ _ => []
  end.

(** The part of its buffer that a unit plays, as [scheduleBuffer] computes
    it (line 877). *)
Definition played (u : AudioBufferSourceNode) : Q :=
  duration (buffer u) - startOffset u.

(** [chained start units]: the first unit starts at [start], and every
    other unit at the start time of its predecessor plus the part of its
    buffer that the predecessor plays. *)
Fixpoint chained (start : Q) (units : list AudioBufferSourceNode) : Prop :=
  match units with
  | [] => True
  | u :: rest => startWhen u = start /\ chained (start + played u) rest
  end.

(** The start time of the last unit of such a chain plus the part it
    plays; [start] when there is no unit. *)
Fixpoint chainedEnd (start : Q) (units : list AudioBufferSourceNode) : Q :=
  match units with
  | [] => start
  | u :: rest => chainedEnd (start + played u) rest
  end.

(** The instant at which the first unit of an operation starts, [next]
    being the value of [nextStartTime] before the operation: a seek starts
    at the reading of the clock; a decoded buffer starts at [next], seeded
    with [now + bufferTime] when it is 0 (lines 506-510), or at the reading
    of the clock when that has passed it (lines 516-518). *)
Definition entry (next : Q) (op : Scheduling) : Q :=
  match op with
  | Completes _ now =>
      let next0 := if Qeq_bool next 0 then now + bufferTime else next in
      if Qlt_bool next0 now then now else next0
  | SeeksTo _ now => now
  end.

(** ** Scenarios *)

Import Engine.

(** One chunk of four bytes. *)
Definition chunkA : Chunk := [1%Z; 2%Z; 3%Z; 4%Z].
Definition chunkB : Chunk := [5%Z; 6%Z; 7%Z; 8%Z].
Definition chunkC : Chunk := [9%Z; 10%Z].

(** Play is clicked, the session connects, a chunk arrives and is decoded
    into two seconds of audio at time 0 (it is scheduled for time 1), and the
    animation frame requested by the decode callback runs at time 2: the
    application is playing, one second into the two seconds received. *)
Definition playingTrace : list Event :=
  [EvPlayPause 0 1; EvConnected 1%nat 0; EvMessage chunkA; EvDecoded 0 2 0;
   EvFrame 2 2].

(** Play, reset and play again are clicked before the first connection is
    established; the first session connects and delivers two seconds of
    audio, which start playing; then the second connection is established,
    and its [loadAudio] puts the application back into [loading]. *)
Definition reconnectTrace : list Event :=
  [EvPlayPause 0 1; EvReset; EvPlayPause 0 1; EvConnected 1%nat 0;
   EvMessage chunkA; EvDecoded 0 2 0; EvConnected 2%nat 1].

(** The scenario of the specification: three chunks arrive and are decoded,
    in order, into buffers of 1 s, 1 s and 0.5 s while the application
    plays. *)
Definition threeBufferTrace : list Event :=
  [EvPlayPause 0 1; EvConnected 1%nat 0;
   EvMessage chunkA; EvMessage chunkB; EvMessage chunkC;
   EvDecoded 0 1 0; EvDecoded 0 1 0; EvDecoded 0 (1 # 2) 0].

(** Two chunks arrive; the decode of the second resolves before the
    decode of the first. *)
Definition outOfOrderTrace : list Event :=
  [EvPlayPause 0 1; EvConnected 1%nat 0; EvMessage chunkA; EvMessage chunkB;
   EvDecoded 1 1 0; EvDecoded 0 1 0].

(** A chunk arrives, the user pauses, and then the decode of the chunk
    resolves with two seconds of audio. *)
Definition pausedDecodeTrace : list Event :=
  [EvPlayPause 0 1; EvConnected 1%nat 0; EvMessage chunkA; EvPlayPause 0 1;
   EvDecoded 0 2 1].

(** Play is clicked and the session connects: the application is loading
    and nothing has been received yet. *)
Definition connectedTrace : list Event := [EvPlayPause 0 1; EvConnected 1%nat 0].

(** As [playingTrace], with every animation frame that is requested run in
    its turn, the last ones at time 2: the application is playing, one second
    into the two seconds received, with two frames pending (the frame
    requested by [loadAudio] and the one requested by the decode callback
    each keep an update loop going). *)
Definition framesTrace : list Event :=
  [EvPlayPause 0 1; EvConnected 1%nat 0; EvFrame 1 0; EvMessage chunkA;
   EvDecoded 0 2 0; EvFrame 2 1; EvFrame 3 1; EvFrame 4 2; EvFrame 5 2].

(** Two chunks arrive and are decoded, in order, into buffers of 2 s each
    (scheduled for times 1 and 3); at time 5 a click at one quarter of the
    progress bar seeks to 1 s, the middle of the first buffer. *)
Definition seekOffsetTrace : list Event :=
  [EvPlayPause 0 1; EvConnected 1%nat 0; EvMessage chunkA; EvMessage chunkB;
   EvDecoded 0 2 0; EvDecoded 0 2 0; EvSeek (1 # 4) 5].

(** ** Classes of events and of states *)

(** The seek loop only starts sources: it changes [activeSources],
    [sourceCounter] and [nextStartTime] and nothing else. *)
Definition sameButSchedule (s s' : App) : Prop :=
  playbackState s' = playbackState s /\
  totalDuration s' = totalDuration s /\
  currentPlaybackTime s' = currentPlaybackTime s /\
  decodedAudioBuffers s' = decodedAudioBuffers s /\
  isSeeking s' = isSeeking s /\
  animationFrameId s' = animationFrameId s /\
  streamStartTime s' = streamStartTime s /\
  session s' = session s /\
  receivedAudioChunks s' = receivedAudioChunks s /\
  pendingDecodes s' = pendingDecodes s /\
  pendingFrames s' = pendingFrames s /\
  frameCounter s' = frameCounter s /\
  sessionLog s' = sessionLog s /\
  gainEvents s' = gainEvents s /\
  pendingConnects s' = pendingConnects s /\
  dragListeners s' = dragListeners s.

(** The state in which the loop of [seekToTime] starts. *)
Definition seekStart (t now : Q) (s : App) : App :=
  setNextStartTime now
    (setStreamStartTime (now - t) (setCurrentPlaybackTime t (clearAllSources s))).

(** The events that run [stopAudio]. *)
Definition stopsAudio (e : Event) : bool :=
  match e with
  | EvReset | EvSessionError => true
  | _ => false
  end.

(** The events that run [seekToTime]. *)
Definition seeks (e : Event) : bool :=
  match e with
  | EvSeek _ _ | EvPointerUp _ _ => true
  | _ => false
  end.

(** The events that write the cursor directly: seeks, the drag of the
    handle, and the reset. *)
Definition setsCursor (e : Event) : bool :=
  match e with
  | EvSeek _ _ | EvPointerUp _ _ | EvPointerMove _ | EvReset | EvSessionError => true
  | _ => false
  end.

(** Events of a session in which decodes resolve in the order in which
    they were started and none fails: no [stopAudio], no rejected decode, and
    only the oldest pending decode resolves. *)
Definition inOrder (e : Event) : bool :=
  match e with
  | EvDecoded k _ _ => Nat.eqb k 0
  | EvDecodeFailed _ | EvReset | EvSessionError => false
  | _ => true
  end.

(** Decoded buffers have non-negative durations. *)
Definition durationOk (e : Event) : Prop :=
  match e with
  | EvDecoded _ dur _ => 0 <= dur
  | _ => True
  end.

(** The event is a decode that resolves while paused or stopped. *)
Definition decodesWhileHalted (s : App) (e : Event) : bool :=
  match e with
  | EvDecoded k _ _ =>
      match nth_error (pendingDecodes s) k, playbackState s with
      | Some _, (paused | stopped) => true
      | _, _ => false
      end
  | _ => false
  end.

Definition totalBounded (s : App) : Prop :=
  0 <= totalDuration s /\
  totalDuration s <= timelineDuration (decodedAudioBuffers s).

(** ** Tactics *)

Ltac destruct_app s :=
  destruct s as [ps td cpt srcs bufs sk af sst sess chs nst pd pf fc sc sl ge pc dl].

(** Evaluation of the record plumbing, leaving arithmetic and list
    functions alone. *)
Ltac eval_app :=
  cbv -[Qplus Qminus Qmult Qdiv Qmax Qmin Qeq_bool Qlt_bool Qle_bool Qeq Qle Qlt
        app filter existsb removeNth nth_error length Nat.eqb bufferTime
        clampRatio seekLoop].

(** Case analysis on the tests an operation makes, innermost first. *)
Ltac split_tests :=
  repeat (match goal with
          | |- context [match ?x with _ => _ end] =>
              lazymatch x with
              | context [match _ with _ => _ end] => fail
              | _ => destruct x eqn:?
              end
          end; eval_app).

Ltac eval_op s := destruct_app s; eval_app; split_tests.

(** ** Further notions about the engine *)

(** While paused the application has a session and no live source; and
    [isSeeking] is set exactly while the listeners of a drag are installed. *)
Definition pausedQuiet (s : App) : Prop :=
  (playbackState s = paused -> session s <> None /\ activeSources s = []) /\
  isSeeking s = dragListeners s.

(** The identities of the live sources are pairwise distinct and older
    than [sourceCounter]. *)
Definition sourcesFresh (s : App) : Prop :=
  NoDup (map sourceId (activeSources s)) /\
  Forall (fun u => (sourceId u < sourceCounter s)%nat) (activeSources s).

(** * The rest of the application

    The functions of [src/index.tsx], [src/mp3-encoder-worker.ts] and
    [src/overlay-scrollbar.ts] around the playback engine: the throttle
    applied to session updates, the colours and the list of prompts, the
    numeric inputs, the time display, the MP3 export and the scrollbar. *)

(** ** [throttle] (lines 38-47) *)

Module Throttle.

Local Open Scope Z_scope.





End Throttle.

(** ** Colours and prompts *)

Module Prompts.

Import String.

(** [const COLORS] (line 35) *)
Definition COLORS : list string :=
  ["#9900ff"; "#5200ff"; "#ff25f6"; "#2af6de"; "#ffdd28"; "#3dffab"; "#d8ff3e";
   "#d9b2ff"]%string.

(** [arr.includes(c)] for a string [c]; an element of [arr] may be
    [undefined] ([None]). *)
Definition includes (arr : list (option string)) (c : string) : bool :=
  existsb (fun x => match x with Some y => String.eqb c y | None => false end) arr.

(** [arr[Math.floor(r * arr.length)]], where [r] is the value returned by
    [Math.random()]; [None] is [undefined]. *)
Definition pick {A : Type} (arr : list A) (r : Q) : option A :=
  let i := Qfloor (r * inject_Z (Z.of_nat (List.length arr))) in
  if (i <? 0)%Z then None else nth_error arr (Z.to_nat i).

(** [getUnusedRandomColor] (lines 49-55) *)
Definition getUnusedRandomColor (usedColors : list (option string)) (r : Q)
  : option string :=
  let availableColors := filter (fun c => negb (includes usedColors c)) COLORS in
  if Nat.eqb (List.length availableColors) 0 then pick COLORS r
  else pick availableColors r.

(** [interface Prompt] (lines 26-31).  The identifier [`prompt-${n}`] is
    represented by the number [n] it is made of; a [color] is [None] when it
    is [undefined]. *)
Record Prompt : Type := mkPrompt {
  promptId : nat;
  color : option string;
  text : string;
  weight : Q
}.

(** The fields [prompts] and [nextPromptId] of [PromptDjApp]. *)
Record State : Type := mkState {
  prompts : list Prompt;
  nextPromptId : nat
}.

(** [addPrompt] (lines 556-562), with the value [r] of [Math.random()]. *)
Definition addPrompt (newText : string) (newWeight : Q) (r : Q) (st : State) : State :=
  let id := nextPromptId st in
  let usedColors := map color (prompts st) in
  let newColor := getUnusedRandomColor usedColors r in
  mkState (prompts st ++ [mkPrompt id newColor newText newWeight]) (S id).

(** [handlePromptChanged] (lines 550-554) *)
Definition handlePromptChanged (changedPrompt : Prompt) (st : State) : State :=
  mkState
    (map (fun p => if Nat.eqb (promptId p) (promptId changedPrompt)
                   then changedPrompt else p) (prompts st))
    (nextPromptId st).

(** [handlePromptRemoved] (lines 564-567) *)
Definition handlePromptRemoved (id : nat) (st : State) : State :=
  mkState (filter (fun p => negb (Nat.eqb (promptId p) id)) (prompts st))
    (nextPromptId st).

(** The prompts that [setSessionPrompts] sends (line 528). *)
Definition promptsToSend (st : State) : list Prompt :=
  filter (fun p => Qlt_bool 0 (weight p)) (prompts st).

(** [handleDrop] (lines 831-842): the new value of [prompts], from the
    identifiers of the children of the container in their order on the
    page; [dragged] tells whether [draggedElement] is set.  An identifier
    that no prompt has gives [undefined] ([None]). *)
Definition handleDrop (dragged : bool) (newOrderedIds : list nat) (st : State)
  : list (option Prompt) :=
  if dragged then
    map (fun id => find (fun p => Nat.eqb (promptId p) id) (prompts st)) newOrderedIds
  else map Some (prompts st).

(** An element of [prompts] in an exported or imported configuration: a
    field is [None] when it is missing.  The text is a string and the
    weight a number when they are there. *)
Record Entry : Type := mkEntry {
  entryText : option string;
  entryWeight : option Q;
  entryColor : option string
}.

(** [handleExportConfig] (lines 789-801): the prompts written to the
    clipboard. *)
Definition exportPrompts (st : State) : list Entry :=
  map (fun p => mkEntry (Some (text p)) (Some (weight p)) None) (prompts st).

(** The callback of [newConfig.prompts.map] in [handleImportConfig] (lines
    766-776), applied to the entries from position [i] on; [random i] is
    the value that [Math.random()] returns for the entry at position [i],
    and [id] is [nextPromptId]. *)
Fixpoint importPrompts (usedColors : list (option string)) (random : nat -> Q)
    (i : nat) (entries : list Entry) (id : nat) : list Prompt * nat :=
  match entries with
  | [] => ([], id)
  | p :: rest =>
      let newColor := getUnusedRandomColor usedColors (random i) in
      let newPrompt :=
        mkPrompt id newColor
          (match entryText p with Some t => t | None => "New Prompt" end)
          (match entryWeight p with Some w => w | None => 1 end) in
      let (newPrompts, id') := importPrompts usedColors random (S i) rest (S id) in
      (newPrompt :: newPrompts, id')
  end.

(** [handleImportConfig] (lines 756-787) on a configuration that passes the
    validation, as far as the prompts go. *)
Definition handleImportConfig (entries : list Entry) (random : nat -> Q) (st : State)
  : State :=
  let usedColors := map color (prompts st) ++ map entryColor entries in
  let (newPrompts, id') := importPrompts usedColors random O entries (nextPromptId st) in
  mkState newPrompts id'.

(** The operations on the list of prompts. *)
Inductive Op : Type :=
| Add (newText : string) (newWeight r : Q)
| Change (changedPrompt : Prompt)
| Remove (id : nat).

Definition apply (st : State) (op : Op) : State :=
  match op with
  | Add t w r => addPrompt t w r st
  | Change p => handlePromptChanged p st
  | Remove id => handlePromptRemoved id st
  end.

(** [private nextPromptId = 0] and [prompts = []], before the constructor
    adds the first prompts. *)
Definition initial : State := mkState [] O.

(** The identifiers of the prompts are pairwise distinct and older than
    [nextPromptId]. *)
Definition idsFresh (st : State) : Prop :=
  NoDup (map promptId (prompts st)) /\
  Forall (fun p => (promptId p < nextPromptId st)%nat) (prompts st).

End Prompts.

(** ** Numeric inputs *)

Module Inputs.

(** A JavaScript number that may be [NaN]: [None]. *)
Definition Num : Type := option Q.

(** [x || dflt] on a number: [dflt] when [x] is [NaN] or 0. *)
Definition orElse (x : Num) (dflt : Q) : Q :=
  match x with
  | Some q => if Qeq_bool q 0 then dflt else q
  | None => dflt
  end.

(** The part of an [<input>] element that the handlers read:
    [parseFloat(target.value)], [Number(target.value)],
    [target.value.trim() === ''], [target.value === ''],
    [Number(target.min)] and [Number(target.max)]. *)
Record Target : Type := mkTarget {
  parsedFloat : Num;
  asNumber : Num;
  blank : bool;
  empty : bool;
  minAttr : Num;
  maxAttr : Num
}.

(** [PromptController._setWeightFromInput] (lines 130-149): the new weight,
    and the text written back into the input when the number was clamped. *)
Definition setWeightFromInput (target : Target) (weight : Q) : Q * option Q :=
  match parsedFloat target with
  | None => if blank target then (0, None) else (weight, None)
  | Some newWeight =>
      let min := orElse (minAttr target) 0 in
      let max := orElse (maxAttr target) 2 in
      let clampedWeight := Qmax min (Qmin max newWeight) in
      (clampedWeight,
       if negb (Qeq_bool clampedWeight newWeight) then Some clampedWeight else None)
  end.

(** [Math.max(a, b)] and [Math.min(a, b)] with [NaN]. *)
Definition mathMax (a b : Num) : Num :=
  match a, b with
  | Some x, Some y => Some (Qmax x y)
  | _, _ => None
  end.

Definition mathMin (a b : Num) : Num :=
  match a, b with
  | Some x, Some y => Some (Qmin x y)
  | _, _ => None
  end.

(** The values of a generation setting. *)
Inductive Value : Type :=
| Undefined
| Bool (b : bool)
| Text (s : String.string)
| Number (n : Num).

(** The [type] of an input element, as far as the handler distinguishes
    it. *)
Inductive Kind : Type :=
| Checkbox
| Range
| NumberField
| Other.

(** The value that [SettingsPanel._setConfigFromInput] (lines 245-270)
    stores under the identifier of the input. *)
Definition configValue (kind : Kind) (checked : bool) (raw : String.string)
    (target : Target) : Value :=
  match kind with
  | Range | NumberField =>
      if empty target then Undefined
      else
        match asNumber target with
        | None => Undefined
        | Some numValue =>
            Number (mathMax (minAttr target) (mathMin (maxAttr target) (Some numValue)))
        end
  | Checkbox => Bool checked
  | Other => Text raw
  end.

(** The configuration object: the value under each key, [Undefined] for a
    key that is absent. *)
Definition Config : Type := String.string -> Value.

(** [{ ...config, [key]: value }] *)
Definition withKey (config : Config) (key : String.string) (value : Value) : Config :=
  fun k => if String.eqb k key then value else config k.

(** [_setConfigFromInput] *)
Definition setConfigFromInput (key : String.string) (kind : Kind) (checked : bool)
    (raw : String.string) (target : Target) (config : Config) : Config :=
  withKey config key (configValue kind checked raw target).

(** [SettingsPanel.handleAutoChange] (lines 232-243); [key] is the
    identifier of the checkbox without its prefix [auto-]. *)
Definition handleAutoChange (key : String.string) (isChecked : bool) (config : Config)
  : Config :=
  if isChecked then withKey config key Undefined
  else withKey config key (Number (Some (1 # 2))).

(** [WeightSlider.updateValueFromPosition] (lines 66-73): the new value,
    from the height of the track and the position of the pointer below its
    top.  A track of height 0 gives [0 / 0], that is [NaN]. *)
Definition updateValueFromPosition (trackHeight relativeY : Q) : Num :=
  if Qeq_bool trackHeight 0 then None
  else
    let normalizedValue := 1 - Qmax 0 (Qmin trackHeight relativeY) / trackHeight in
    Some (normalizedValue * 2).

(** [PromptController.updateWeight] (lines 155-158) followed by the handler
    of the event it dispatches, [PromptDjApp.handlePromptChanged]: [p] holds
    the properties of the controller. *)
Definition updateWeight (target : Target) (p : Prompts.Prompt) (st : Prompts.State)
  : Prompts.State :=
  let newWeight := fst (setWeightFromInput target (Prompts.weight p)) in
  Prompts.handlePromptChanged
    (Prompts.mkPrompt (Prompts.promptId p) (Prompts.color p) (Prompts.text p) newWeight)
    st.

End Inputs.

(** ** [formatDuration] (line 803) *)

Module Display.

Import String.

(** [String(n)] for an integer [n]. *)
Definition stringOfInteger (n : Z) : string :=
  DecimalString.NilZero.string_of_int (Z.to_int n).

(** [s.padStart(2, '0')] *)
Definition padStart2 (s : string) : string :=
  match String.length s with
  | O => "00"
  | S O => "0" ++ s
  | _ => s
  end.

(** [a % b] on numbers: the remainder has the sign of [a]. *)
Definition remainder (a b : Q) : Q :=
  let q := a / b in
  a - b * inject_Z (if Qlt_bool q 0 then Qceiling q else Qfloor q).

Definition formatDuration (seconds : Q) : string :=
  padStart2 (stringOfInteger (Qfloor (seconds / 60)))
  ++ ":" ++ padStart2 (stringOfInteger (Qfloor (remainder seconds 60))).

End Display.

(** ** MP3 export *)

Module Mp3.

Local Open Scope Z_scope.

(** A 16-bit sample read from two bytes, low byte first (the byte order of
    an [Int16Array] on the machines the application runs on). *)
Definition int16 (lo hi : Z) : Z :=
  let u := lo + 256 * hi in
  if u <? 32768 then u else u - 65536.

(** [new Int16Array(buffer)] over the bytes of [buffer]: a [RangeError]
    ([None]) unless the number of bytes is even. *)
Fixpoint samples (bytes : list Z) : option (list Z) :=
  match bytes with
  | [] => Some []
  | [_] => None
  | lo :: hi :: rest =>
      match samples rest with
      | Some l => Some (int16 lo hi :: l)
      | None => None
      end
  end.

(** [arr[i] = v] on a typed array: nothing happens outside the array, and
    [undefined] ([None]) is stored as 0. *)
Fixpoint store (i : nat) (v : option Z) (arr : list Z) : list Z :=
  match arr, i with
  | [], _ => []
  | _ :: arr', O => match v with Some x => x | None => 0 end :: arr'
  | x :: arr', S i' => x :: store i' v arr'
  end.

(** The loop [for (let i = 0; i < numSamples; i++)] of lines 714-717, where
    [numSamples] is [pcm.length / 2], so that the test is [2 * i <
    pcm.length]; [fuel] bounds the number of iterations. *)
Fixpoint deinterleave (fuel i : nat) (pcm left right : list Z) : list Z * list Z :=
  match fuel with
  | O => (left, right)
  | S fuel' =>
      if (2 * i <? length pcm)%nat then
        deinterleave fuel' (S i) pcm
          (store i (nth_error pcm (i * 2)) left)
          (store i (nth_error pcm (i * 2 + 1)) right)
      else (left, right)
  end.

(** What [handleDownloadMp3] does. *)
Inductive Outcome : Type :=
| Nothing                                       (* the early return *)
| RangeError                                    (* an exception *)
| Posted (left right : list Z) (sampleRate : Z). (* the message to the worker *)

(** [handleDownloadMp3] (lines 695-754), up to the message posted to the
    worker.  [new Int16Array(numSamples)] truncates [numSamples]. *)
Definition handleDownloadMp3 (receivedAudioChunks : list Chunk) : Outcome :=
  match receivedAudioChunks with
  | [] => Nothing
  | _ =>
      let totalLength :=
        fold_left (fun acc chunk => (acc + length chunk)%nat) receivedAudioChunks O in
      match fold_left Wav.copyChunk receivedAudioChunks
              (Some (Wav.newBytes totalLength, O)) with
      | None => RangeError
      | Some st =>
          let concatenatedData := fst st in
          match samples concatenatedData with
          | None => RangeError
          | Some pcm =>
              let size := (length pcm / 2)%nat in
              let (left, right) :=
                deinterleave (length pcm) O pcm (repeat 0 size) (repeat 0 size) in
              Posted left right Wav.contextSampleRate
          end
      end
  end.

(** *** The worker ([src/mp3-encoder-worker.ts])

    [lamejs] is an external library: its encoder is a parameter, with a
    state of its own, and its methods may throw ([inl], with the message of
    the exception). *)
Section Worker.

Variable Encoder : Type.
Variable newEncoder : Z -> Z -> Z -> String.string + Encoder.
Variable encodeBuffer : Encoder -> list Z -> list Z -> String.string + Encoder * list Z.
Variable flush : Encoder -> String.string + list Z.

(** [arr.subarray(from, to)] *)
Definition subarray (arr : list Z) (from to : nat) : list Z :=
  firstn (to - from) (skipn from arr).

(** The loop [for (let i = 0; i < left.length; i += sampleBlockSize)] with
    a body that works on the two blocks; [fuel] bounds the number of
    iterations. *)
Fixpoint forBlocks {St : Type} (blockSize fuel i : nat) (left right : list Z)
    (body : list Z -> list Z -> St -> St) (st : St) : St :=
  match fuel with
  | O => st
  | S fuel' =>
      if (i <? length left)%nat then
        forBlocks blockSize fuel' (i + blockSize) left right body
          (body (subarray left i (i + blockSize)) (subarray right i (i + blockSize)) st)
      else st
  end.

(** The body of the loop (lines 24-29): an exception ends the work. *)
Definition encodeBlock (leftChunk rightChunk : list Z)
    (st : String.string + Encoder * list (list Z))
  : String.string + Encoder * list (list Z) :=
  match st with
  | inl err => inl err
  | inr (enc, mp3Data) =>
      match encodeBuffer enc leftChunk rightChunk with
      | inl err => inl err
      | inr (enc', mp3buf) =>
          inr (enc', if (0 <? length mp3buf)%nat then mp3Data ++ [mp3buf] else mp3Data)
      end
  end.

(** The global [lamejs] as the handler finds it: not defined at all, so
    that reading it throws a [ReferenceError]; defined with a falsy value;
    or the library. *)
Inductive Global : Type :=
| Missing
| Falsy
| Library.

(** What a run of the handler ends in: an exception that leaves the
    handler, with nothing posted, or one of the two messages it posts. *)
Inductive Reply : Type :=
| Uncaught
| Failed (error : String.string)
| Encoded (mp3Data : list (list Z)).

(** [self.onmessage] (lines 10-44).  The test [!lamejs] of line 13 is
    outside the [try]: with no such global it throws.  Inside the [try]
    every exception is caught and its message posted. *)
Definition onmessage (lamejs : Global) (left right : list Z) (sampleRate : Z) : Reply :=
  match lamejs with
  | Missing => Uncaught
  | Falsy => Failed "lamejs not loaded"%string
  | Library =>
      match newEncoder 2 sampleRate 128 with
      | inl err => Failed err
      | inr enc =>
          match forBlocks 1152 (length left) O left right encodeBlock (inr (enc, [])) with
          | inl err => Failed err
          | inr (enc', mp3Data) =>
              match flush enc' with
              | inl err => Failed err
              | inr mp3buf =>
                  Encoded (if (0 <? length mp3buf)%nat then mp3Data ++ [mp3buf]
                           else mp3Data)
              end
          end
      end
  end.

(** The blocks the loop goes through. *)
Definition blocks (blockSize : nat) (left right : list Z) : list (list Z * list Z) :=
  forBlocks blockSize (length left) O left right
    (fun l r acc => acc ++ [(l, r)]) [].

End Worker.

End Mp3.

(** ** The scrollbar ([src/overlay-scrollbar.ts]) *)

Module Scrollbar.

(** The state of [OverlayScrollbar] that [updateScrollbar] writes. *)
Record Thumb : Type := mkThumb {
  thumbHeight : Q;
  thumbTop : Q;
  hasOverflow : bool
}.

(** [updateScrollbar] (lines 35-53), from [scrollTop], [scrollHeight] and
    [clientHeight] of the content element. *)
Definition updateScrollbar (scrollTop scrollHeight clientHeight : Q) (st : Thumb)
  : Thumb :=
  let contentHeight := scrollHeight in
  let containerHeight := clientHeight in
  if Qlt_bool containerHeight contentHeight then
    let thumbH := (containerHeight / contentHeight) * containerHeight in
    let thumbT := (scrollTop / contentHeight) * containerHeight in
    mkThumb thumbH thumbT true
  else mkThumb 0 (thumbTop st) false.

End Scrollbar.

(** * Properties *)

(** ** WAV export *)

Section WavFacts.

Import Wav.
Local Open Scope Z_scope.

Lemma byteOf_div (v : Z) (i : nat) :
  byteOf v i = (v / 2 ^ (8 * Z.of_nat i)) mod 256.
Proof.
  unfold byteOf. rewrite Z.shiftr_div_pow2 by lia.
  change 255 with (Z.ones 8). rewrite Z.land_ones by lia. reflexivity.
Qed.

(** The four bytes written by [setUint32] read back as the value modulo
    2^32, the two written by [setUint16] as the value modulo 2^16. *)
Lemma littleEndian_uint32 (v : Z) :
  littleEndian [byteOf v 0; byteOf v 1; byteOf v 2; byteOf v 3] = v mod 2 ^ 32.
Proof.
  cbn [littleEndian]. rewrite !byteOf_div.
  change (2 ^ (8 * Z.of_nat 0)) with 1. change (2 ^ (8 * Z.of_nat 1)) with 256.
  change (2 ^ (8 * Z.of_nat 2)) with 65536.
  change (2 ^ (8 * Z.of_nat 3)) with 16777216.
  change (2 ^ 32) with 4294967296.
  Z.div_mod_to_equations. lia.
Qed.

Lemma totalLength_concat (chunks : list Chunk) (acc : nat) :
  fold_left (fun acc chunk => (acc + length chunk)%nat) chunks acc
  = (acc + length (concat chunks))%nat.
Proof.
  revert acc. induction chunks as [|c chunks IH]; intros acc; cbn [fold_left concat].
  - cbn [length]. lia.
  - rewrite IH, length_app. lia.
Qed.

Lemma typedArraySet_middle (pre src old post : list Z) :
  length old = length src ->
  typedArraySet src (length pre) (pre ++ old ++ post) = Some (pre ++ src ++ post).
Proof.
  intros Hlen. unfold typedArraySet.
  rewrite !length_app.
  replace (length pre + length src <=? length pre + (length old + length post))%nat
    with true by (symmetry; apply Nat.leb_le; lia).
  f_equal.
  rewrite firstn_app, firstn_all, Nat.sub_diag, firstn_O, app_nil_r.
  do 2 f_equal.
  rewrite skipn_app, skipn_all2 by lia.
  replace (length pre + length src - length pre)%nat with (length old) by lia.
  rewrite skipn_app, skipn_all, Nat.sub_diag. reflexivity.
Qed.

(** The copy loop never leaves the array and builds the concatenation of
    the chunks, in order. *)
Lemma copyLoop_concat (chunks : list Chunk) (pre rest : list Z) :
  length rest = length (concat chunks) ->
  fold_left copyChunk chunks (Some (pre ++ rest, length pre))
  = Some (pre ++ concat chunks, (length pre + length (concat chunks))%nat).
Proof.
  revert pre rest. induction chunks as [|c chunks IH]; intros pre rest Hlen.
  - cbn in *. apply length_zero_iff_nil in Hlen. subst rest.
    rewrite Nat.add_0_r. reflexivity.
  - cbn [fold_left concat] in *. rewrite length_app in Hlen.
    rewrite <- (firstn_skipn (length c) rest).
    unfold copyChunk at 2. cbn [bind fst snd].
    rewrite typedArraySet_middle by (rewrite length_firstn; lia).
    cbn [bind]. rewrite app_assoc.
    replace (length pre + length c)%nat with (length (pre ++ c))
      by (rewrite length_app; reflexivity).
    rewrite IH by (rewrite length_skipn; lia).
    rewrite !length_app, <- !app_assoc. f_equal. f_equal. lia.
Qed.

(** The header written for the download, byte by byte. *)
Lemma writeWavHeader_download (n : Z) :
  writeWavHeader n contextSampleRate 2 16
  = Some [82; 73; 70; 70;
          byteOf (36 + n) 0; byteOf (36 + n) 1; byteOf (36 + n) 2; byteOf (36 + n) 3;
          87; 65; 86; 69;
          102; 109; 116; 32;
          16; 0; 0; 0;
          1; 0;
          2; 0;
          128; 187; 0; 0;
          0; 238; 2; 0;
          4; 0;
          16; 0;
          100; 97; 116; 97;
          byteOf n 0; byteOf n 1; byteOf n 2; byteOf n 3].
Proof.
  unfold writeWavHeader. generalize (36 + n) as m. intros m.
  cbv -[byteOf]. reflexivity.
Qed.

Lemma byteOf_range (v : Z) (i : nat) : 0 <= byteOf v i < 256.
Proof. rewrite byteOf_div. apply Z.mod_pos_bound. lia. Qed.

(** The downloaded file is the header followed by the chunks. *)
Lemma handleDownloadWav_eq (chunks : list Chunk) (header : list Z) :
  chunks <> [] ->
  writeWavHeader (Z.of_nat (length (concat chunks))) contextSampleRate 2 16
  = Some header ->
  handleDownloadWav chunks = Some (header ++ concat chunks).
Proof.
  intros Hne Hheader.
  destruct chunks as [|c chunks]; [congruence|]. clear Hne.
  unfold handleDownloadWav.
  rewrite totalLength_concat. cbn [Nat.add].
  revert Hheader. generalize (c :: chunks) as cs. intros cs Hheader.
  pose proof (copyLoop_concat cs [] (newBytes (length (concat cs)))
                (repeat_length 0 _)) as Hcopy.
  cbn [app length Nat.add] in Hcopy. rewrite Hcopy. clear Hcopy.
  cbn [bind fst]. rewrite Hheader. cbn [bind].
  unfold newBytes. rewrite repeat_app.
  pose proof (typedArraySet_middle [] header (repeat 0 (length header))
                (repeat 0 (length (concat cs))) (repeat_length 0 _)) as Hset.
  cbn [app length] in Hset. rewrite Hset. clear Hset. cbn [bind].
  pose proof (typedArraySet_middle header (concat cs)
                (repeat 0 (length (concat cs))) [] (repeat_length 0 _)) as Hset.
  rewrite !app_nil_r in Hset. exact Hset.
Qed.

End WavFacts.

(** C7.  For received chunks totalling [N > 0] bytes, the WAV download is a
    file of exactly [44 + N] bytes: the 44-byte RIFF/WAVE header, with "RIFF"
    at offset 0, the file size [36 + N] as a little-endian 32-bit number at
    offset 4, "WAVE", "fmt ", subchunk size 16, PCM format code 1 at offset
    20, 2 channels, the sample rate, the byte rate [sampleRate * 2 * 2], block
    align 4, 16 bits per sample, "data", and the payload length [N] as a
    little-endian 32-bit number at offset 40; then the [N] payload bytes in
    arrival order.  A 32-bit field holds its value modulo 2^32, which is the
    value itself whenever the file fits the format. *)
Theorem wav_export_layout (chunks : list Chunk) :
  let N := length (concat chunks) in
  (0 < N)%nat ->
  exists wav : list Z,
    Wav.handleDownloadWav chunks = Some wav /\
    length wav = (44 + N)%nat /\
    Forall (fun b => 0 <= b < 256)%Z (firstn 44 wav) /\
    Wav.slice 0 4 wav = Wav.charCodes "RIFF"%string /\
    Wav.littleEndian (Wav.slice 4 4 wav) = ((36 + Z.of_nat N) mod 2 ^ 32)%Z /\
    Wav.slice 8 4 wav = Wav.charCodes "WAVE"%string /\
    Wav.slice 12 4 wav = Wav.charCodes "fmt "%string /\
    Wav.littleEndian (Wav.slice 16 4 wav) = 16%Z /\
    Wav.littleEndian (Wav.slice 20 2 wav) = 1%Z /\
    Wav.littleEndian (Wav.slice 22 2 wav) = 2%Z /\
    Wav.littleEndian (Wav.slice 24 4 wav) = Wav.contextSampleRate /\
    Wav.littleEndian (Wav.slice 28 4 wav) = (Wav.contextSampleRate * 2 * 2)%Z /\
    Wav.littleEndian (Wav.slice 32 2 wav) = (2 * 2)%Z /\
    Wav.littleEndian (Wav.slice 34 2 wav) = 16%Z /\
    Wav.slice 36 4 wav = Wav.charCodes "data"%string /\
    Wav.littleEndian (Wav.slice 40 4 wav) = (Z.of_nat N mod 2 ^ 32)%Z /\
    skipn 44 wav = concat chunks /\
    ((36 + Z.of_nat N < 2 ^ 32)%Z ->
     Wav.littleEndian (Wav.slice 4 4 wav) = (36 + Z.of_nat N)%Z /\
     Wav.littleEndian (Wav.slice 40 4 wav) = Z.of_nat N).
Proof.
  intros N HN.
  assert (Hne : chunks <> []) by (intros ->; cbn in N; lia).
  pose proof (handleDownloadWav_eq chunks _ Hne
                (writeWavHeader_download (Z.of_nat N))) as Hwav.
  eexists. split; [exact Hwav|].
  assert (H4 : Wav.littleEndian
                 [Wav.byteOf (36 + Z.of_nat N) 0; Wav.byteOf (36 + Z.of_nat N) 1;
                  Wav.byteOf (36 + Z.of_nat N) 2; Wav.byteOf (36 + Z.of_nat N) 3]
               = ((36 + Z.of_nat N) mod 2 ^ 32)%Z) by apply littleEndian_uint32.
  assert (H40 : Wav.littleEndian
                  [Wav.byteOf (Z.of_nat N) 0; Wav.byteOf (Z.of_nat N) 1;
                   Wav.byteOf (Z.of_nat N) 2; Wav.byteOf (Z.of_nat N) 3]
                = (Z.of_nat N mod 2 ^ 32)%Z) by apply littleEndian_uint32.
  repeat split; try reflexivity; try exact H4; try exact H40.
  - cbn [firstn app].
    repeat (apply Forall_cons; [first [apply byteOf_range | lia]|]).
    apply Forall_nil.
  - unfold Wav.slice. cbn [skipn firstn app]. rewrite H4.
    apply Z.mod_small. lia.
  - unfold Wav.slice. cbn [skipn firstn app]. rewrite H40.
    apply Z.mod_small. lia.
Qed.

(** The scenario of the specification: 2000 bytes in two chunks. *)
Lemma wav_export_layout_witness :
  (0 < length (concat [repeat 1%Z 1200; repeat 2%Z 800]))%nat /\
  exists wav : list Z,
    Wav.handleDownloadWav [repeat 1%Z 1200; repeat 2%Z 800] = Some wav /\
    length wav = 2044%nat /\
    Wav.littleEndian (Wav.slice 40 4 wav) = 2000%Z.
Proof.
  assert (H : (0 < length (concat [repeat 1%Z 1200; repeat 2%Z 800]))%nat)
    by (vm_compute; lia).
  split; [exact H|].
  destruct (wav_export_layout [repeat 1%Z 1200; repeat 2%Z 800] H)
    as (wav & Hwav & Hlen & _ & _ & _ & _ & _ & _ & _ & _ & _ & _ & _ & _ & _ & _ & _ & Hfit).
  exists wav. split; [exact Hwav|]. split.
  - rewrite Hlen. vm_compute. reflexivity.
  - apply Hfit. vm_compute. reflexivity.
Defined.


(** ** The engine: symbolic evaluation of the operations *)

(** The decode callback while paused or stopped: the buffer joins the
    timeline and nothing else happens. *)
Lemma onDecoded_halted (b : AudioBuffer) (now : Q) (s : App) :
  playbackState s = paused \/ playbackState s = stopped ->
  onDecoded b now s = setDecodedAudioBuffers (decodedAudioBuffers s ++ [b]) s.
Proof.
  destruct_app s. cbn [playbackState].
  intros [-> | ->]; reflexivity.
Qed.

(** The decode callback while playing or loading, field by field. *)
Lemma onDecoded_running (b : AudioBuffer) (now : Q) (s : App) :
  playbackState s = playing \/ playbackState s = loading ->
  let seed := Qeq_bool (nextStartTime s) 0 in
  let next0 := if seed then now + bufferTime else nextStartTime s in
  let start := if Qlt_bool next0 now then now else next0 in
  onDecoded b now s =
  {| playbackState := playing;
     totalDuration := totalDuration s + duration b;
     currentPlaybackTime :=
       if seed && negb (isSeeking s)
       then Qmax 0 (Qmin (now - (now + bufferTime)) (totalDuration s + duration b))
       else currentPlaybackTime s;
     activeSources := activeSources s ++ [mkSource (sourceCounter s) b start 0];
     decodedAudioBuffers := decodedAudioBuffers s ++ [b];
     isSeeking := isSeeking s;
     animationFrameId :=
       if seed then Some (S (frameCounter s)) else animationFrameId s;
     streamStartTime := if seed then now + bufferTime else streamStartTime s;
     session := session s;
     receivedAudioChunks := receivedAudioChunks s;
     nextStartTime := start + duration b;
     pendingDecodes := pendingDecodes s;
     pendingFrames :=
       if seed then pendingFrames s ++ [S (frameCounter s)] else pendingFrames s;
     frameCounter := if seed then S (frameCounter s) else frameCounter s;
     sourceCounter := S (sourceCounter s);
     sessionLog := sessionLog s;
     gainEvents := gainEvents s;
     pendingConnects := pendingConnects s;
     dragListeners := dragListeners s |}.
Proof.
  intros Hstate seed next0 start. subst start next0 seed.
  destruct_app s. cbn [playbackState] in Hstate.
  destruct Hstate as [-> | ->]; eval_app; split_tests; reflexivity.
Qed.

(** ** The seek loop *)

Lemma sameButSchedule_refl (s : App) : sameButSchedule s s.
Proof. repeat split. Qed.

Lemma sameButSchedule_trans (s1 s2 s3 : App) :
  sameButSchedule s1 s2 -> sameButSchedule s2 s3 -> sameButSchedule s1 s3.
Proof.
  unfold sameButSchedule. intros H12 H23.
  repeat match goal with H : _ /\ _ |- _ => destruct H as [? H] end.
  repeat split; congruence.
Qed.

Lemma scheduleBuffer_frame (b : AudioBuffer) (start offset : Q) (s : App) :
  sameButSchedule s (scheduleBuffer b start offset s).
Proof. destruct_app s. repeat split. Qed.

Lemma seekStep_frame (t : Q) (s : App) (acc : Q) (h : bool) (b : AudioBuffer) :
  sameButSchedule s (fst (fst (seekStep t (s, acc, h) b))).
Proof.
  unfold seekStep.
  destruct (negb h && Qle_bool t (acc + duration b)); [apply scheduleBuffer_frame|].
  destruct h; [apply scheduleBuffer_frame | apply sameButSchedule_refl].
Qed.

Lemma seekLoop_frame (t : Q) (bs : list AudioBuffer) (s : App) (acc : Q) (h : bool) :
  sameButSchedule s (fst (fst (seekLoop t bs (s, acc, h)))).
Proof.
  revert s acc h. induction bs as [|b bs IH]; intros s acc h.
  - apply sameButSchedule_refl.
  - unfold seekLoop. cbn [fold_left].
    pose proof (seekStep_frame t s acc h b) as Hstep.
    destruct (seekStep t (s, acc, h) b) as [[s1 acc1] h1].
    eapply sameButSchedule_trans; [exact Hstep|]. apply IH.
Qed.

(** [seekToTime] with the result of its loop named. *)
Lemma seekToTime_unfold (t now : Q) (s : App) :
  seekToTime t now s =
  let s1 := fst (fst (seekLoop t (decodedAudioBuffers s) (seekStart t now s, 0, false))) in
  match playbackState s with
  | paused =>
      match session s with
      | Some sid => sendCmd sid CmdPlay (setPlaybackState playing s1)
      | None => setPlaybackState playing s1
      end
  | _ => s1
  end.
Proof.
  unfold seekToTime. fold (seekStart t now s).
  replace (decodedAudioBuffers (seekStart t now s)) with (decodedAudioBuffers s)
    by (destruct_app s; reflexivity).
  pose proof (seekLoop_frame t (decodedAudioBuffers s) (seekStart t now s) 0 false)
    as Hframe.
  destruct (seekLoop t (decodedAudioBuffers s) (seekStart t now s, 0, false))
    as [[s1 acc1] h1].
  cbn [fst] in *. cbv zeta.
  destruct Hframe as (Hps & _ & _ & _ & _ & _ & _ & Hsess & _).
  rewrite Hps.
  replace (playbackState (seekStart t now s)) with (playbackState s)
    by (destruct_app s; reflexivity).
  destruct (playbackState s); try reflexivity.
  replace (session (setPlaybackState playing s1)) with (session s1)
    by (destruct_app s1; reflexivity).
  rewrite Hsess.
  replace (session (seekStart t now s)) with (session s)
    by (destruct_app s; reflexivity).
  reflexivity.
Qed.

Lemma Qle_bool_false (a b : Q) : b < a -> Qle_bool a b = false.
Proof.
  intros Hlt. destruct (Qle_bool a b) eqn:E; [|reflexivity].
  apply Qle_bool_iff in E. lra.
Qed.

Lemma Qle_bool_true (a b : Q) : a <= b -> Qle_bool a b = true.
Proof. apply Qle_bool_iff. Qed.

Lemma Qlt_bool_iff (a b : Q) : Qlt_bool a b = true <-> a < b.
Proof.
  unfold Qlt_bool. destruct (Qle_bool b a) eqn:E; cbn [negb].
  - apply Qle_bool_iff in E. split; [discriminate | lra].
  - split; [|reflexivity]. intros _.
    destruct (Qlt_le_dec a b) as [Hlt | Hle]; [exact Hlt|].
    apply Qle_bool_iff in Hle. congruence.
Qed.

Lemma Qlt_bool_false_iff (a b : Q) : Qlt_bool a b = false <-> b <= a.
Proof.
  unfold Qlt_bool. destruct (Qle_bool b a) eqn:E; cbn [negb].
  - apply Qle_bool_iff in E. split; [intros _; exact E | reflexivity].
  - split; [discriminate|]. intros Hle. apply Qle_bool_iff in Hle. congruence.
Qed.

Lemma accumulate_app (acc : Q) (bs bs' : list AudioBuffer) :
  accumulate acc (bs ++ bs') = accumulate (accumulate acc bs) bs'.
Proof. apply fold_left_app. Qed.

(** Before the seek position is reached the loop only accumulates. *)
Lemma seekLoop_skip (t : Q) (pre : list AudioBuffer) (s : App) (acc : Q) :
  endsBefore t acc pre ->
  seekLoop t pre (s, acc, false) = (s, accumulate acc pre, false).
Proof.
  revert acc. induction pre as [|b pre IH]; intros acc Hpre.
  - reflexivity.
  - destruct Hpre as [Hb Hpre]. unfold seekLoop. cbn [fold_left].
    replace (seekStep t (s, acc, false) b) with (s, acc + duration b, false)
      by (unfold seekStep; rewrite (Qle_bool_false _ _ Hb); reflexivity).
    apply IH. exact Hpre.
Qed.

(** Once a buffer has been scheduled, the following ones are started back
    to back. *)
Lemma seekLoop_chain (t : Q) (post : list AudioBuffer) (s : App) (acc : Q) :
  let s' := fst (fst (seekLoop t post (s, acc, true))) in
  activeSources s'
  = activeSources s ++ backToBack (sourceCounter s) (nextStartTime s) post /\
  nextStartTime s' = chainEnd (nextStartTime s) post /\
  sourceCounter s' = (length post + sourceCounter s)%nat.
Proof.
  revert s acc. induction post as [|b post IH]; intros s acc; cbv zeta.
  - cbn. rewrite app_nil_r. repeat split.
  - unfold seekLoop. cbn [fold_left].
    change (seekStep t (s, acc, true) b)
      with (scheduleBuffer b (nextStartTime s) 0 s, acc + duration b, true).
    specialize (IH (scheduleBuffer b (nextStartTime s) 0 s) (acc + duration b)).
    cbv zeta in IH. unfold seekLoop in IH.
    destruct IH as (Hsrc & Hnext & Hcount).
    rewrite Hsrc, Hnext, Hcount. clear Hsrc Hnext Hcount.
    destruct_app s. cbn. rewrite <- app_assoc. cbn [app].
    repeat split. lia.
Qed.

(** The schedule a seek builds when [b] is the first buffer that ends at or
    after the seek time [t]: [b] is started now, [t - accumulate 0 pre] into
    it, and the buffers after it follow back to back. *)
Lemma seekToTime_located (t now : Q) (s : App) (pre post : list AudioBuffer)
    (b : AudioBuffer) :
  decodedAudioBuffers s = pre ++ b :: post ->
  endsBefore t 0 pre ->
  t <= accumulate 0 pre + duration b ->
  let offset := t - accumulate 0 pre in
  let s' := seekToTime t now s in
  activeSources s'
  = mkSource (sourceCounter s) b now offset
      :: backToBack (S (sourceCounter s)) (now + (duration b - offset)) post /\
  nextStartTime s' = chainEnd (now + (duration b - offset)) post.
Proof.
  intros Hbufs Hpre Hb offset s'. subst s' offset.
  rewrite seekToTime_unfold. cbv zeta. rewrite Hbufs.
  unfold seekLoop. rewrite fold_left_app.
  pose proof (seekLoop_skip t pre (seekStart t now s) 0 Hpre) as Hskip.
  unfold seekLoop in Hskip. rewrite Hskip. clear Hskip.
  cbn [fold_left].
  replace (seekStep t (seekStart t now s, accumulate 0 pre, false) b)
    with (scheduleBuffer b (nextStartTime (seekStart t now s))
            (t - accumulate 0 pre) (seekStart t now s),
          accumulate 0 pre + duration b, true)
    by (unfold seekStep; rewrite (Qle_bool_true _ _ Hb); reflexivity).
  pose proof (seekLoop_chain t post
                (scheduleBuffer b (nextStartTime (seekStart t now s))
                   (t - accumulate 0 pre) (seekStart t now s))
                (accumulate 0 pre + duration b)) as Hchain.
  cbv zeta in Hchain. unfold seekLoop in Hchain.
  destruct Hchain as (Hsrc & Hnext & _).
  destruct (fold_left (seekStep t) post _) as [[s1 acc1] h1]. cbn [fst] in *.
  assert (Hfinal : forall s2,
             activeSources s2 = activeSources s1 ->
             nextStartTime s2 = nextStartTime s1 ->
             activeSources s2
             = mkSource (sourceCounter s) b now (t - accumulate 0 pre)
                 :: backToBack (S (sourceCounter s))
                      (now + (duration b - (t - accumulate 0 pre))) post /\
             nextStartTime s2
             = chainEnd (now + (duration b - (t - accumulate 0 pre))) post).
  { intros s2 -> ->. rewrite Hsrc, Hnext. destruct_app s. cbn. split; reflexivity. }
  destruct (playbackState s); try (apply Hfinal; reflexivity).
  destruct (session s); apply Hfinal; destruct_app s1; reflexivity.
Qed.

(** ** One event at a time *)

Lemma seekToTime_pipeline (t now : Q) (s : App) :
  receivedAudioChunks (seekToTime t now s) = receivedAudioChunks s /\
  pendingDecodes (seekToTime t now s) = pendingDecodes s /\
  decodedAudioBuffers (seekToTime t now s) = decodedAudioBuffers s /\
  totalDuration (seekToTime t now s) = totalDuration s.
Proof.
  rewrite seekToTime_unfold. cbv zeta.
  pose proof (seekLoop_frame t (decodedAudioBuffers s) (seekStart t now s) 0 false)
    as (_ & Htot & _ & Hbuf & _ & _ & _ & _ & Hchunks & Hpend & _).
  destruct (seekLoop t (decodedAudioBuffers s) (seekStart t now s, 0, false))
    as [[s1 acc1] h1].
  cbn [fst] in *.
  assert (Hs1 : receivedAudioChunks s1 = receivedAudioChunks s /\
                pendingDecodes s1 = pendingDecodes s /\
                decodedAudioBuffers s1 = decodedAudioBuffers s /\
                totalDuration s1 = totalDuration s).
  { rewrite Hchunks, Hpend, Hbuf, Htot. destruct_app s. repeat split. }
  destruct (playbackState s); try exact Hs1.
  destruct (session s); destruct_app s1; exact Hs1.
Qed.

(** What an event does to the chunk store, the pending decodes, the
    timeline and [totalDuration]. *)
Lemma step_pipeline (s : App) (e : Event) :
  let s' := step s e in
  match e with
  | EvReset | EvSessionError =>
      receivedAudioChunks s' = [] /\ pendingDecodes s' = pendingDecodes s /\
      decodedAudioBuffers s' = [] /\ totalDuration s' = 0
  | EvMessage c =>
      receivedAudioChunks s' = receivedAudioChunks s ++ [c] /\
      pendingDecodes s' = pendingDecodes s ++ [c] /\
      decodedAudioBuffers s' = decodedAudioBuffers s /\
      totalDuration s' = totalDuration s
  | EvDecoded k dur now =>
      match nth_error (pendingDecodes s) k with
      | Some c =>
          receivedAudioChunks s' = receivedAudioChunks s /\
          pendingDecodes s' = removeNth k (pendingDecodes s) /\
          decodedAudioBuffers s' = decodedAudioBuffers s ++ [mkAudioBuffer c dur] /\
          totalDuration s' =
            match playbackState s with
            | paused | stopped => totalDuration s
            | playing | loading => totalDuration s + dur
            end
      | None => s' = s
      end
  | EvDecodeFailed k =>
      receivedAudioChunks s' = receivedAudioChunks s /\
      pendingDecodes s' = removeNth k (pendingDecodes s) /\
      decodedAudioBuffers s' = decodedAudioBuffers s /\
      totalDuration s' = totalDuration s
  | _ =>
      receivedAudioChunks s' = receivedAudioChunks s /\
      pendingDecodes s' = pendingDecodes s /\
      decodedAudioBuffers s' = decodedAudioBuffers s /\
      totalDuration s' = totalDuration s
  end.
Proof.
  destruct e; cbv zeta; cbn [step].
  - eval_op s; repeat split.
  - eval_op s; repeat split.
  - eval_op s; repeat split.
  - eval_op s; repeat split.
  - destruct (nth_error (pendingDecodes s) k) as [c|] eqn:Hk; [|reflexivity].
    destruct (playbackState s) eqn:Hps.
    + rewrite onDecoded_halted by (right; destruct_app s; exact Hps).
      destruct_app s. repeat split.
    + rewrite onDecoded_running by (left; destruct_app s; exact Hps).
      destruct_app s. repeat split.
    + rewrite onDecoded_running by (right; destruct_app s; exact Hps).
      destruct_app s. repeat split.
    + rewrite onDecoded_halted by (left; destruct_app s; exact Hps).
      destruct_app s. repeat split.
  - eval_op s; repeat split.
  - eval_op s; repeat split.
  - eval_op s; repeat split.
  - eval_op s; repeat split.
  - eval_op s; repeat split.
  - unfold handleSeek. destruct (seekDisabled s); [repeat split|].
    apply seekToTime_pipeline.
  - eval_op s; repeat split.
  - eval_op s; repeat split.
  - unfold onPointerUp. destruct (dragListeners s); [|repeat split].
    destruct (seekToTime_pipeline
                (totalDuration (setDragListeners false (setIsSeeking false s))
                 * clampRatio ratio) now
                (setDragListeners false (setIsSeeking false s)))
      as (H1 & H2 & H3 & H4).
    rewrite H1, H2, H3, H4. destruct_app s. repeat split.
Qed.

(** What an event that is not a seek does to the live sources: a decode
    that resolves while playing or loading starts one source, on the buffer
    it delivers; [onended] removes one; anything else keeps or clears
    them. *)
Lemma step_sources (s : App) (e : Event) :
  let s' := step s e in
  match e with
  | EvSeek _ _ | EvPointerUp _ _ => True
  | EvDecoded k dur now =>
      match nth_error (pendingDecodes s) k with
      | Some c =>
          match playbackState s with
          | paused | stopped => activeSources s' = activeSources s
          | playing | loading =>
              exists start,
                activeSources s'
                = activeSources s
                    ++ [mkSource (sourceCounter s) (mkAudioBuffer c dur) start 0]
          end
      | None => s' = s
      end
  | EvEnded id =>
      activeSources s'
      = filter (fun src => negb (Nat.eqb (sourceId src) id)) (activeSources s)
  | _ => activeSources s' = activeSources s \/ activeSources s' = []
  end.
Proof.
  destruct e; cbv zeta; cbn [step]; try exact I.
  - eval_op s; auto.
  - eval_op s; auto.
  - eval_op s; auto.
  - eval_op s; auto.
  - destruct (nth_error (pendingDecodes s) k) as [c|] eqn:Hk; [|reflexivity].
    destruct (playbackState s) eqn:Hps.
    + rewrite onDecoded_halted by (right; destruct_app s; exact Hps).
      destruct_app s. reflexivity.
    + rewrite onDecoded_running by (left; destruct_app s; exact Hps).
      destruct_app s. eexists. reflexivity.
    + rewrite onDecoded_running by (right; destruct_app s; exact Hps).
      destruct_app s. eexists. reflexivity.
    + rewrite onDecoded_halted by (left; destruct_app s; exact Hps).
      destruct_app s. reflexivity.
  - eval_op s; auto.
  - eval_op s; auto.
  - eval_op s; auto.
  - eval_op s; auto.
  - destruct_app s. reflexivity.
  - eval_op s; auto.
  - eval_op s; auto.
Qed.

(** C9.  The chunk store is append-only: along any sequence of events that
    does not run [stopAudio] (reset or session error) the stored chunks only
    grow at the end; in particular a pause request, as the method
    [pauseAudio] or as a click on the play button, leaves them as they are,
    whatever else it changes; and every event that runs [stopAudio] empties
    the store. *)
Theorem chunk_store_append_only (s : App) (evs : list Event) (now gainValue : Q) :
  forallb (fun e => negb (stopsAudio e)) evs = true ->
  (exists added,
      receivedAudioChunks (run evs s) = receivedAudioChunks s ++ added) /\
  receivedAudioChunks (pauseAudio now gainValue s) = receivedAudioChunks s /\
  receivedAudioChunks (step s (EvPlayPause now gainValue)) = receivedAudioChunks s /\
  (forall e, stopsAudio e = true -> receivedAudioChunks (step s e) = []).
Proof.
  intros Hevs. repeat split.
  - revert s Hevs. induction evs as [|e evs IH]; intros s Hevs.
    + exists []. cbn. rewrite app_nil_r. reflexivity.
    + cbn [forallb] in Hevs. apply andb_prop in Hevs. destruct Hevs as [He Hevs].
      cbn [run fold_left]. destruct (IH (step s e) Hevs) as [added Hadded].
      unfold run in Hadded. rewrite Hadded.
      pose proof (step_pipeline s e) as Hstep. cbv zeta in Hstep.
      destruct e; try discriminate He;
        try (destruct Hstep as [-> _]; exists added; reflexivity).
      * destruct Hstep as [-> _]. exists (decoded :: added).
        rewrite <- app_assoc. reflexivity.
      * destruct (nth_error (pendingDecodes s) k).
        -- destruct Hstep as [-> _]. exists added. reflexivity.
        -- rewrite Hstep. exists added. reflexivity.
  - eval_op s; reflexivity.
  - exact (proj1 (step_pipeline s (EvPlayPause now gainValue))).
  - intros e He. pose proof (step_pipeline s e) as Hstep. cbv zeta in Hstep.
    destruct e; try discriminate He; apply Hstep.
Qed.

Lemma chunk_store_append_only_witness :
  let s := run connectedTrace initialApp in
  let evs := [EvMessage chunkA; EvPlayPause 1 1; EvMessage chunkB] in
  forallb (fun e => negb (stopsAudio e)) evs = true /\
  (exists added, receivedAudioChunks (run evs s) = receivedAudioChunks s ++ added) /\
  receivedAudioChunks (pauseAudio 1 1 s) = receivedAudioChunks s.
Proof.
  cbv zeta.
  assert (Hevs : forallb (fun e => negb (stopsAudio e))
                   [EvMessage chunkA; EvPlayPause 1 1; EvMessage chunkB] = true)
    by reflexivity.
  split; [exact Hevs|].
  destruct (chunk_store_append_only (run connectedTrace initialApp)
              [EvMessage chunkA; EvPlayPause 1 1; EvMessage chunkB] 1 1 Hevs)
    as (Hgrow & Hpause & _).
  split; [exact Hgrow | exact Hpause].
Defined.

(** C10.  A decode that resolves while the application is paused or stopped
    appends its buffer to the timeline and does nothing else: no source is
    started, [totalDuration] and [nextStartTime] keep their values.  And
    whenever a later event starts a source, that event is a seek, unless it
    is another decode resolving, which starts a source on the buffer it
    delivers itself: a buffer that only sits in the timeline is never
    scheduled but by a seek. *)
Theorem decode_while_halted (b : AudioBuffer) (now : Q) (s : App) :
  playbackState s = paused \/ playbackState s = stopped ->
  let s' := onDecoded b now s in
  decodedAudioBuffers s' = decodedAudioBuffers s ++ [b] /\
  activeSources s' = activeSources s /\
  totalDuration s' = totalDuration s /\
  nextStartTime s' = nextStartTime s /\
  playbackState s' = playbackState s /\
  forall (later : App) (e : Event) (u : AudioBufferSourceNode),
    In u (activeSources (step later e)) ->
    ~ In u (activeSources later) ->
    seeks e = true \/
    exists k dur now' c,
      e = EvDecoded k dur now' /\
      nth_error (pendingDecodes later) k = Some c /\
      buffer u = mkAudioBuffer c dur /\
      decodedAudioBuffers (step later e) = decodedAudioBuffers later ++ [buffer u].
Proof.
  intros Hstate s'. subst s'. rewrite (onDecoded_halted b now s Hstate).
  repeat split; try (destruct_app s; reflexivity).
  intros later e u Hin Hnew.
  pose proof (step_sources later e) as Hsrc.
  pose proof (step_pipeline later e) as Hpipe.
  cbv zeta in Hsrc, Hpipe.
  destruct e; try (left; reflexivity);
    try (exfalso; destruct Hsrc as [Hsrc | Hsrc]; rewrite Hsrc in Hin;
         [exact (Hnew Hin) | exact Hin]).
  - right.
    destruct (nth_error (pendingDecodes later) k) as [c|] eqn:Hk;
      [|rewrite Hsrc in Hin; exfalso; exact (Hnew Hin)].
    destruct Hpipe as (_ & _ & Hbufs & _).
    destruct (playbackState later);
      try (rewrite Hsrc in Hin; exfalso; exact (Hnew Hin)).
    + destruct Hsrc as [start Hsrc]. rewrite Hsrc in Hin.
      apply in_app_or in Hin. destruct Hin as [Hin | [<- | []]];
        [exfalso; exact (Hnew Hin)|].
      exists k, dur, now0, c. repeat split; assumption.
    + destruct Hsrc as [start Hsrc]. rewrite Hsrc in Hin.
      apply in_app_or in Hin. destruct Hin as [Hin | [<- | []]];
        [exfalso; exact (Hnew Hin)|].
      exists k, dur, now0, c. repeat split; assumption.
  - exfalso. rewrite Hsrc in Hin. apply filter_In in Hin. exact (Hnew (proj1 Hin)).
Qed.

Lemma decode_while_halted_witness :
  let s := run (connectedTrace ++ [EvMessage chunkA; EvPlayPause 1 1]) initialApp in
  let s' := onDecoded (mkAudioBuffer chunkA 2) 2 s in
  playbackState s = paused /\
  decodedAudioBuffers s' = decodedAudioBuffers s ++ [mkAudioBuffer chunkA 2] /\
  activeSources s' = activeSources s /\
  totalDuration s' = totalDuration s /\
  nextStartTime s' = nextStartTime s.
Proof.
  cbv zeta.
  assert (Hpaused : playbackState
                      (run (connectedTrace ++ [EvMessage chunkA; EvPlayPause 1 1])
                         initialApp) = paused) by (vm_compute; reflexivity).
  split; [exact Hpaused|].
  destruct (decode_while_halted (mkAudioBuffer chunkA 2) 2
              (run (connectedTrace ++ [EvMessage chunkA; EvPlayPause 1 1]) initialApp)
              (or_introl Hpaused))
    as (Hbufs & Hsrc & Htot & Hnext & _).
  repeat split; assumption.
Defined.

(** ** Look-ahead scheduling *)

(** The units that the loop of a seek starts: a chain from [nextStartTime],
    on the buffers of a final part of the list (all of it once a buffer has
    been scheduled), every unit from offset 0 but the first one that the loop
    schedules. *)
Lemma seekLoop_units (t : Q) (bs : list AudioBuffer) (s : App) (acc : Q) (h : bool) :
  exists skipped units,
    bs = skipped ++ map buffer units /\
    (h = true -> skipped = []) /\
    activeSources (fst (fst (seekLoop t bs (s, acc, h)))) = activeSources s ++ units /\
    chained (nextStartTime s) units /\
    nextStartTime (fst (fst (seekLoop t bs (s, acc, h))))
    = chainedEnd (nextStartTime s) units /\
    Forall (fun u => startOffset u = 0) (if h then units else tl units).
Proof.
  revert s acc h. induction bs as [|b bs IH]; intros s acc h.
  - exists [], []. cbn. rewrite app_nil_r. repeat split.
    destruct h; constructor.
  - unfold seekLoop. cbn [fold_left].
    assert (Hscheduled : forall offset,
               (h = true -> offset = 0) ->
               exists skipped units,
                 b :: bs = skipped ++ map buffer units /\
                 (h = true -> skipped = []) /\
                 activeSources
                   (fst (fst (fold_left (seekStep t) bs
                                (scheduleBuffer b (nextStartTime s) offset s,
                                 acc + duration b, true))))
                 = activeSources s ++ units /\
                 chained (nextStartTime s) units /\
                 nextStartTime
                   (fst (fst (fold_left (seekStep t) bs
                                (scheduleBuffer b (nextStartTime s) offset s,
                                 acc + duration b, true))))
                 = chainedEnd (nextStartTime s) units /\
                 Forall (fun u => startOffset u = 0) (if h then units else tl units)).
    { intros offset Hoffset.
      destruct (IH (scheduleBuffer b (nextStartTime s) offset s)
                  (acc + duration b) true)
        as (skipped & units & Hbs & Hnone & Hsrc & Hchain & Hnext & Hoff).
      unfold seekLoop in Hsrc, Hnext. rewrite (Hnone eq_refl) in Hbs.
      exists [], (mkSource (sourceCounter s) b (nextStartTime s) offset :: units).
      rewrite Hsrc, Hnext. destruct_app s.
      unfold played in *.
      cbn [scheduleBuffer pushSource activeSources nextStartTime sourceCounter
           setActiveSources setSourceCounter setNextStartTime chained chainedEnd
           buffer startWhen startOffset tl app map] in *.
      rewrite <- app_assoc. cbn [app].
      split; [rewrite Hbs; reflexivity|]. split; [reflexivity|].
      split; [reflexivity|]. split; [split; [reflexivity | exact Hchain]|].
      split; [reflexivity|].
      destruct h; [|exact Hoff].
      constructor; [exact (Hoffset eq_refl) | exact Hoff]. }
    assert (Hstep : seekStep t (s, acc, h) b
                    = if negb h && Qle_bool t (acc + duration b)
                      then (scheduleBuffer b (nextStartTime s) (t - acc) s,
                            acc + duration b, true)
                      else if h
                           then (scheduleBuffer b (nextStartTime s) 0 s,
                                 acc + duration b, h)
                           else (s, acc + duration b, h))
      by reflexivity.
    rewrite Hstep. clear Hstep.
    destruct (negb h && Qle_bool t (acc + duration b)) eqn:Hfirst;
      [|destruct h eqn:Hh].
    + apply Hscheduled. intros ->. discriminate Hfirst.
    + apply Hscheduled. reflexivity.
    + destruct (IH s (acc + duration b) false)
        as (skipped & units & Hbs & _ & Hsrc & Hchain & Hnext & Hoff).
      unfold seekLoop in Hsrc, Hnext.
      exists (b :: skipped), units. rewrite Hsrc, Hnext, Hbs.
      repeat split; try assumption. discriminate.
Qed.

(** The units that a seek starts, whatever the seek time. *)
Lemma seekToTime_units (t now : Q) (s : App) :
  exists skipped units,
    decodedAudioBuffers s = skipped ++ map buffer units /\
    activeSources (seekToTime t now s) = units /\
    chained now units /\
    nextStartTime (seekToTime t now s) = chainedEnd now units /\
    Forall (fun u => startOffset u = 0) (tl units).
Proof.
  rewrite seekToTime_unfold. cbv zeta.
  destruct (seekLoop_units t (decodedAudioBuffers s) (seekStart t now s) 0 false)
    as (skipped & units & Hbs & _ & Hsrc & Hchain & Hnext & Hoff).
  exists skipped, units.
  replace (activeSources (seekStart t now s)) with (@nil AudioBufferSourceNode) in Hsrc
    by (destruct_app s; reflexivity).
  replace (nextStartTime (seekStart t now s)) with now in Hchain, Hnext
    by (destruct_app s; reflexivity).
  cbn [app] in Hsrc.
  destruct (seekLoop t (decodedAudioBuffers s) (seekStart t now s, 0, false))
    as [[s1 acc1] h1].
  cbn [fst] in *.
  assert (Hfinal : forall s2,
             activeSources s2 = activeSources s1 ->
             nextStartTime s2 = nextStartTime s1 ->
             decodedAudioBuffers s = skipped ++ map buffer units /\
             activeSources s2 = units /\
             chained now units /\
             nextStartTime s2 = chainedEnd now units /\
             Forall (fun u => startOffset u = 0) (tl units)).
  { intros s2 H1 H2. rewrite H1, H2. repeat split; assumption. }
  destruct (playbackState s); try (apply Hfinal; reflexivity).
  destruct (session s); apply Hfinal; destruct_app s1; reflexivity.
Qed.

(** A scheduling operation leaves an application that is playing or
    loading in one of these two states. *)
Lemma perform_running (s : App) (op : Scheduling) :
  playbackState s = playing \/ playbackState s = loading ->
  playbackState (perform s op) = playing \/ playbackState (perform s op) = loading.
Proof.
  intros Hstate. destruct op as [b now | t now]; cbn [perform].
  - rewrite (onDecoded_running b now s Hstate). left. reflexivity.
  - rewrite seekToTime_unfold. cbv zeta.
    pose proof (seekLoop_frame t (decodedAudioBuffers s) (seekStart t now s) 0 false)
      as (Hps & _).
    replace (playbackState (seekStart t now s)) with (playbackState s) in Hps
      by (destruct_app s; reflexivity).
    destruct Hstate as [Hs | Hs]; rewrite Hs in *; rewrite Hps; auto.
Qed.

Lemma performAll_running (ops : list Scheduling) (s : App) :
  playbackState s = playing \/ playbackState s = loading ->
  playbackState (fold_left perform ops s) = playing \/
  playbackState (fold_left perform ops s) = loading.
Proof.
  revert s. induction ops as [|op ops IH]; intros s Hstate; [exact Hstate|].
  cbn [fold_left]. apply IH. apply perform_running. exact Hstate.
Qed.

(** C1, counterexample.  In the state reached by [seekOffsetTrace] the
    application is playing and the seek has just scheduled two units: the
    first buffer, of 2 s, at time 5 from offset 1, and the second buffer at
    time 6, which is not the start time of its predecessor plus the duration
    of the predecessor's buffer. *)
Lemma seek_unit_not_start_plus_duration :
  exists s u v,
    reachable s /\ playbackState s = playing /\
    activeSources s = [u; v] /\
    startWhen u == 5 /\ duration (buffer u) == 2 /\ startOffset u == 1 /\
    startWhen v == 6 /\
    ~ startWhen v == startWhen u + duration (buffer u).
Proof.
  exists (run seekOffsetTrace initialApp).
  eexists. eexists.
  split; [exists seekOffsetTrace; reflexivity|].
  vm_compute. repeat split; discriminate.
Qed.

(** C1, amended.  Along every sequence of scheduling operations (decodes
    that complete, and seeks) from a state that is playing or loading, the
    units that an operation starts form a chain: the first starts at the
    entry instant of the operation, every other at the start time of its
    predecessor plus the part of its buffer that the predecessor plays (its
    duration minus its offset), and [nextStartTime] is left at the start time
    of the last unit plus the part that it plays.  A decoded buffer is one
    unit, from offset 0, and its entry instant is [nextStartTime]; when
    [nextStartTime] is not initialised (is 0) it is [now + bufferTime], which
    also becomes [streamStartTime]; when the clock has passed [nextStartTime]
    it is the reading of the clock.  The entry instant of a seek is the
    reading of the clock; its units are on buffers at the end of the timeline,
    in order, all but the first from offset 0. *)
Theorem lookahead_scheduling_gapless (s : App) (before : list Scheduling)
    (op : Scheduling) :
  playbackState s = playing \/ playbackState s = loading ->
  let s1 := fold_left perform before s in
  let s2 := perform s1 op in
  let start := entry (nextStartTime s1) op in
  exists units,
    activeSources s2 = kept s1 op ++ units /\
    chained start units /\
    nextStartTime s2 == chainedEnd start units /\
    match op with
    | Completes b now =>
        units = [mkSource (sourceCounter s1) b start 0] /\
        (nextStartTime s1 == 0 ->
         start = now + bufferTime /\ streamStartTime s2 = now + bufferTime) /\
        (~ nextStartTime s1 == 0 -> nextStartTime s1 < now -> start = now) /\
        (~ nextStartTime s1 == 0 -> now <= nextStartTime s1 ->
         start = nextStartTime s1 /\ streamStartTime s2 = streamStartTime s1)
    | SeeksTo seekTime now =>
        start = now /\
        Forall (fun u => startOffset u = 0) (tl units) /\
        exists skipped, decodedAudioBuffers s1 = skipped ++ map buffer units
    end.
Proof.
  intros Hstate s1 s2 start.
  pose proof (performAll_running before s Hstate) as Hs1. fold s1 in Hs1.
  subst s2 start. destruct op as [b now | t now]; cbn [perform kept entry].
  - pose proof (onDecoded_running b now s1 Hs1) as Hrun. cbv zeta in Hrun.
    rewrite Hrun. cbn [activeSources nextStartTime streamStartTime].
    set (seed := Qeq_bool (nextStartTime s1) 0).
    set (next0 := if seed then now + bufferTime else nextStartTime s1).
    set (start := if Qlt_bool next0 now then now else next0).
    exists [mkSource (sourceCounter s1) b start 0].
    cbn [chained chainedEnd startWhen]. unfold played. cbn [buffer startOffset].
    split; [reflexivity|]. split; [split; [reflexivity | exact I]|].
    split; [lra|]. split; [reflexivity|].
    subst start next0 seed. unfold bufferTime.
    destruct (Qeq_bool (nextStartTime s1) 0) eqn:Eseed.
    + apply Qeq_bool_iff in Eseed.
      replace (Qlt_bool (now + 1) now) with false
        by (symmetry; apply Qlt_bool_false_iff; lra).
      repeat split; intros; solve [reflexivity | contradiction].
    + apply Qeq_bool_neq in Eseed.
      destruct (Qlt_bool (nextStartTime s1) now) eqn:E.
      * apply Qlt_bool_iff in E.
        repeat split; intros; solve [reflexivity | contradiction | lra].
      * apply Qlt_bool_false_iff in E.
        repeat split; intros; solve [reflexivity | contradiction | lra].
  - destruct (seekToTime_units t now s1)
      as (skipped & units & Hbs & Hsrc & Hchain & Hnext & Hoff).
    exists units. cbn [app].
    split; [exact Hsrc|]. split; [exact Hchain|].
    split; [rewrite Hnext; reflexivity|].
    split; [reflexivity|]. split; [exact Hoff|].
    exists skipped. exact Hbs.
Qed.

Lemma lookahead_scheduling_gapless_witness :
  let s := run connectedTrace initialApp in
  let before := [Completes (mkAudioBuffer chunkA 2) 0;
                 Completes (mkAudioBuffer chunkB 2) (1 # 2)] in
  exists u v,
    activeSources (perform (fold_left perform before s) (SeeksTo 1 5)) = [u; v] /\
    startWhen u = 5 /\
    startOffset u == 1 /\
    startWhen v = startWhen u + played u /\
    startWhen v == 6.
Proof.
  cbv zeta.
  assert (Hstate : playbackState (run connectedTrace initialApp) = playing \/
                   playbackState (run connectedTrace initialApp) = loading)
    by (right; vm_compute; reflexivity).
  destruct (lookahead_scheduling_gapless (run connectedTrace initialApp)
              [Completes (mkAudioBuffer chunkA 2) 0;
               Completes (mkAudioBuffer chunkB 2) (1 # 2)]
              (SeeksTo 1 5) Hstate)
    as (units & Hsrc & Hchain & _ & _ & _ & skipped & Hbs).
  cbn [kept app] in Hsrc.
  assert (Hlive : map startOffset
                    (activeSources
                       (perform
                          (fold_left perform
                             [Completes (mkAudioBuffer chunkA 2) 0;
                              Completes (mkAudioBuffer chunkB 2) (1 # 2)]
                             (run connectedTrace initialApp))
                          (SeeksTo 1 5)))
                  = [1 - 0; 0])
    by (vm_compute; reflexivity).
  rewrite Hsrc in Hlive.
  destruct units as [|u [|v [|w units]]]; try discriminate Hlive.
  injection Hlive as Hu Hv.
  cbn [chained entry] in Hchain. destruct Hchain as (Hsu & Hsv & _).
  exists u, v. split; [exact Hsrc|]. split; [exact Hsu|].
  split; [rewrite Hu; reflexivity|]. split; [rewrite Hsv, Hsu; reflexivity|].
  assert (Hbuf : map buffer [u; v]
                 = [mkAudioBuffer chunkA 2; mkAudioBuffer chunkB 2]).
  { rewrite <- Hsrc. vm_compute. reflexivity. }
  injection Hbuf as Hbu Hbv.
  rewrite Hsv. unfold played. rewrite Hbu, Hu. reflexivity.
Defined.

(** ** The playback-time cursor *)

(** C8, counterexample.  In the state reached by [reconnectTrace] the
    application is loading, and the next animation frame moves the cursor
    from 0 to 1. *)
Lemma cursor_advances_while_loading :
  exists s id now,
    reachable s /\ playbackState s = loading /\
    currentPlaybackTime s == 0 /\
    currentPlaybackTime (step s (EvFrame id now)) == 1 /\
    ~ currentPlaybackTime (step s (EvFrame id now)) == currentPlaybackTime s.
Proof.
  exists (run reconnectTrace initialApp), 3%nat, 2.
  split; [exists reconnectTrace; reflexivity|].
  vm_compute. repeat split; discriminate.
Qed.

(** C8, amended.  The cursor is only advanced by the update step while the
    application is playing or loading.  While it is stopped or paused, no
    event moves the cursor except those that write it directly (seek, drag,
    reset), and [updateProgress] leaves it alone; so does [updateProgress]
    during a drag, in any state.  While playing or loading, outside a drag,
    [updateProgress] sets the cursor to the time elapsed since
    [streamStartTime], clamped to [0, totalDuration]. *)
Theorem cursor_update_guard (s : App) (now : Q) :
  (playbackState s = stopped \/ playbackState s = paused ->
   forall e, setsCursor e = false ->
             currentPlaybackTime (step s e) = currentPlaybackTime s) /\
  (playbackState s = stopped \/ playbackState s = paused ->
   currentPlaybackTime (updateProgress now s) = currentPlaybackTime s) /\
  (isSeeking s = true ->
   currentPlaybackTime (updateProgress now s) = currentPlaybackTime s) /\
  (isSeeking s = false ->
   playbackState s = playing \/ playbackState s = loading ->
   currentPlaybackTime (updateProgress now s)
   = Qmax 0 (Qmin (now - streamStartTime s) (totalDuration s))).
Proof.
  repeat split.
  - intros Hstate e He.
    destruct e; try discriminate He; cbn [step].
    + destruct_app s; cbn [playbackState] in Hstate.
      destruct Hstate as [-> | ->]; eval_app; split_tests; reflexivity.
    + destruct_app s; cbn [playbackState] in Hstate.
      destruct Hstate as [-> | ->]; eval_app; split_tests; reflexivity.
    + destruct_app s; cbn [playbackState] in Hstate.
      destruct Hstate as [-> | ->]; eval_app; split_tests; reflexivity.
    + destruct_app s. reflexivity.
    + destruct (nth_error (pendingDecodes s) k); [|reflexivity].
      rewrite onDecoded_halted
        by (destruct_app s; cbn [playbackState] in *; tauto).
      destruct_app s. reflexivity.
    + destruct_app s. reflexivity.
    + destruct_app s; cbn [playbackState] in Hstate.
      destruct Hstate as [-> | ->]; eval_app; split_tests; reflexivity.
    + destruct_app s. reflexivity.
    + destruct_app s; cbn [playbackState] in Hstate.
      destruct Hstate as [-> | ->]; eval_app; split_tests; reflexivity.
  - intros Hstate. destruct_app s; cbn [playbackState] in Hstate.
    destruct Hstate as [-> | ->]; eval_app; split_tests; reflexivity.
  - intros Hseek. destruct_app s; cbn [isSeeking] in Hseek. subst.
    reflexivity.
  - intros Hseek Hstate. destruct_app s; cbn [isSeeking playbackState] in *.
    subst. destruct Hstate as [-> | ->]; reflexivity.
Qed.

Lemma cursor_update_guard_witness :
  let s := run (playingTrace ++ [EvPlayPause 2 1]) initialApp in
  playbackState s = paused /\
  currentPlaybackTime (step s (EvFrame 1 5)) = currentPlaybackTime s /\
  currentPlaybackTime (updateProgress 5 s) = currentPlaybackTime s.
Proof.
  cbv zeta.
  pose proof (cursor_update_guard
                (run (playingTrace ++ [EvPlayPause 2 1]) initialApp) 5)
    as (Hevent & Hupdate & _).
  assert (Hpaused : playbackState (run (playingTrace ++ [EvPlayPause 2 1]) initialApp)
                    = paused) by (vm_compute; reflexivity).
  split; [exact Hpaused|]. split.
  - apply Hevent; [right; exact Hpaused | reflexivity].
  - apply Hupdate. right. exact Hpaused.
Defined.

(** ** Pause and resume *)

(** C6.  What the code does at a pause followed by a resume.  In the state
    reached by [framesTrace] the application is playing, one second into a
    timeline of two seconds, at device time 2.  The user pauses at once;
    [pauseAudio] cancels the frame requested last, and the frame of the other
    update loop runs while paused and requests nothing.  The user resumes
    half a second after the pause.  [loadAudio] calls [updateProgress] while
    the state is still [paused], where it does nothing and requests no
    frame; the state becomes [playing], but no source is started, no frame is
    pending (the cursor is not updated any more), and [streamStartTime] is
    where it was: an update of the cursor at the time of the resume would put
    it at 1.5 s, ahead of the cursor at the pause by the length of the pause.
    A seek to the cursor from the paused state, in contrast, anchors
    [streamStartTime] at the time of the resume minus the cursor and starts
    a source. *)
Lemma resume_breaks_continuity :
  let s := run framesTrace initialApp in
  let halted := step (step s (EvPlayPause 2 1)) (EvFrame 6 (21 # 10)) in
  let resumed := step halted (EvPlayPause (5 # 2) 0) in
  playbackState s = playing /\
  currentPlaybackTime s == 1 /\ totalDuration s == 2 /\
  playbackState halted = paused /\ currentPlaybackTime halted == 1 /\
  playbackState resumed = playing /\
  currentPlaybackTime resumed == 1 /\
  activeSources resumed = [] /\
  pendingFrames resumed = [] /\
  streamStartTime resumed = streamStartTime s /\
  currentPlaybackTime (updateProgress (5 # 2) resumed) == 3 # 2 /\
  streamStartTime (seekToTime (currentPlaybackTime halted) (5 # 2) halted) == 3 # 2 /\
  activeSources (seekToTime (currentPlaybackTime halted) (5 # 2) halted) <> [].
Proof.
  vm_compute. repeat split; discriminate.
Qed.

(** ** Seeking *)

Lemma accumulate_ge (acc : Q) (bs : list AudioBuffer) :
  Forall (fun b => 0 <= duration b) bs -> acc <= accumulate acc bs.
Proof.
  revert acc. induction bs as [|b bs IH]; intros acc Hbs.
  - cbn. lra.
  - inversion Hbs as [|x l Hb Hrest]; subst.
    unfold accumulate. cbn [fold_left]. fold (accumulate (acc + duration b) bs).
    specialize (IH (acc + duration b) Hrest). lra.
Qed.

Lemma endsBefore_of_nonneg (t acc : Q) (bs : list AudioBuffer) :
  Forall (fun b => 0 <= duration b) bs ->
  accumulate acc bs < t ->
  endsBefore t acc bs.
Proof.
  revert acc. induction bs as [|b bs IH]; intros acc Hbs Hlt.
  - exact I.
  - inversion Hbs as [|x l Hb Hrest]; subst.
    unfold accumulate in Hlt. cbn [fold_left] in Hlt.
    fold (accumulate (acc + duration b) bs) in Hlt.
    cbn [endsBefore]. split.
    + pose proof (accumulate_ge (acc + duration b) bs Hrest). lra.
    + apply IH; assumption.
Qed.

Lemma endsBefore_last (t acc : Q) (bs : list AudioBuffer) :
  endsBefore t acc bs -> bs <> [] -> accumulate acc bs < t.
Proof.
  revert acc. induction bs as [|b bs IH]; intros acc Hbs Hne; [congruence|].
  destruct Hbs as [Hb Hbs]. unfold accumulate. cbn [fold_left].
  fold (accumulate (acc + duration b) bs).
  destruct bs as [|b' bs']; [exact Hb|].
  apply IH; [exact Hbs | discriminate].
Qed.

(** C4, counterexample.  With buffers of 1 s, 1 s and 0.5 s, a click at two
    fifths of the progress bar seeks to 1 s, the end of the first buffer.
    The first buffer is scheduled all the same, with an offset equal to its
    whole duration. *)
Lemma seek_at_boundary_plays_zero_length :
  exists s ratio now,
    reachable s /\ playbackState s = playing /\
    map duration (decodedAudioBuffers s) = [1; 1; 1 # 2] /\
    totalDuration s * clampRatio ratio == 1 /\
    exists u rest,
      activeSources (step s (EvSeek ratio now)) = u :: rest /\
      buffer u = mkAudioBuffer chunkA 1 /\
      startOffset u == duration (buffer u).
Proof.
  exists (run threeBufferTrace initialApp), (2 # 5), 1.
  split; [exists threeBufferTrace; reflexivity|].
  vm_compute. repeat split.
  eexists. eexists. repeat split.
Qed.

(** C4, amended.  When buffer [b] of the timeline is the first whose
    cumulative end, as the loop of the seek adds the durations up, reaches
    the seek time, and the seek time is that cumulative end, the seek
    schedules [b] itself as its first unit, at the current device time, from
    the offset that the loop computes: the seek time minus the cumulative end
    of the buffers before [b] (a positive offset when there are such
    buffers).  The buffers after [b] follow, from offset 0: the first of them
    at the device time plus what is left of [b] after the offset, the others
    back to back. *)
Theorem seek_at_boundary (s : App) (now : Q) (pre post : list AudioBuffer)
    (b : AudioBuffer) :
  decodedAudioBuffers s = pre ++ b :: post ->
  endsBefore (accumulate 0 pre + duration b) 0 pre ->
  let t := accumulate 0 pre + duration b in
  let offset := t - accumulate 0 pre in
  let next := now + (duration b - offset) in
  activeSources (seekToTime t now s)
  = mkSource (sourceCounter s) b now offset
      :: backToBack (S (sourceCounter s)) next post /\
  nextStartTime (seekToTime t now s) = chainEnd next post /\
  (pre <> [] -> 0 < offset).
Proof.
  intros Hbufs Hpre t offset next. subst offset next t.
  destruct (seekToTime_located (accumulate 0 pre + duration b) now s pre post b
              Hbufs Hpre ltac:(lra)) as [Hsrc Hnext].
  split; [exact Hsrc|]. split; [exact Hnext|].
  intros Hne. pose proof (endsBefore_last _ _ _ Hpre Hne). lra.
Qed.

Lemma seek_at_boundary_witness :
  let s := run threeBufferTrace initialApp in
  exists u v,
    activeSources (seekToTime (0 + 1 + 1) 5 s) = [u; v] /\
    buffer u = mkAudioBuffer chunkB 1 /\
    startWhen u = 5 /\ startOffset u = 0 + 1 + 1 - (0 + 1) /\
    buffer v = mkAudioBuffer chunkC (1 # 2) /\
    startOffset v = 0.
Proof.
  cbv zeta.
  assert (Hbufs : decodedAudioBuffers (run threeBufferTrace initialApp)
                  = [mkAudioBuffer chunkA 1] ++ mkAudioBuffer chunkB 1
                       :: [mkAudioBuffer chunkC (1 # 2)])
    by (vm_compute; reflexivity).
  assert (Hpre : endsBefore
                   (accumulate 0 [mkAudioBuffer chunkA 1]
                    + duration (mkAudioBuffer chunkB 1))
                   0 [mkAudioBuffer chunkA 1])
    by (cbn; split; [lra | exact I]).
  destruct (seek_at_boundary (run threeBufferTrace initialApp) 5 _ _ _ Hbufs Hpre)
    as (Hsrc & _ & _).
  eexists. eexists. split; [exact Hsrc|]. repeat split.
Defined.

(** C5, counterexample.  With the same three buffers, a click at the right
    end of the progress bar seeks to [totalDuration], which is the sum of the
    durations of the timeline; one source is started, on the last buffer,
    with an offset equal to its duration. *)
Lemma seek_to_end_schedules_a_unit :
  exists s ratio now,
    reachable s /\ playbackState s = playing /\
    totalDuration s == timelineDuration (decodedAudioBuffers s) /\
    totalDuration s * clampRatio ratio == totalDuration s /\
    activeSources (step s (EvSeek ratio now)) <> [] /\
    exists u,
      activeSources (step s (EvSeek ratio now)) = [u] /\
      buffer u = mkAudioBuffer chunkC (1 # 2) /\
      startOffset u == duration (buffer u).
Proof.
  exists (run threeBufferTrace initialApp), 1, 3.
  split; [exists threeBufferTrace; reflexivity|].
  vm_compute. repeat split; try discriminate.
  eexists. repeat split.
Qed.

(** C5, amended.  When the durations of a non-empty timeline add up to
    [totalDuration] and no buffer before the last has a cumulative end at or
    after [totalDuration], a seek to exactly [totalDuration] schedules
    exactly one unit: the last buffer, at the current device time, from the
    offset that the loop computes, [totalDuration] minus the cumulative end
    of the buffers before it (a positive offset when there are such
    buffers); [nextStartTime] is left at the device time plus what is left of
    the buffer after the offset. *)
Theorem seek_to_end (s : App) (t now : Q) (pre : list AudioBuffer) (b : AudioBuffer) :
  decodedAudioBuffers s = pre ++ [b] ->
  totalDuration s == timelineDuration (decodedAudioBuffers s) ->
  t == totalDuration s ->
  endsBefore t 0 pre ->
  let offset := t - accumulate 0 pre in
  activeSources (seekToTime t now s) = [mkSource (sourceCounter s) b now offset] /\
  nextStartTime (seekToTime t now s) = now + (duration b - offset) /\
  (pre <> [] -> 0 < offset).
Proof.
  intros Hbufs Htotal Ht Hpre offset. subst offset.
  rewrite Hbufs in Htotal. unfold timelineDuration in Htotal.
  rewrite accumulate_app in Htotal. cbn [accumulate fold_left] in Htotal.
  fold (accumulate 0 pre) in Htotal.
  destruct (seekToTime_located t now s pre [] b Hbufs Hpre ltac:(lra))
    as (Hsrc & Hnext).
  cbn [backToBack chainEnd] in Hsrc, Hnext.
  split; [exact Hsrc|]. split; [exact Hnext|].
  intros Hne. pose proof (endsBefore_last _ _ _ Hpre Hne). lra.
Qed.

Lemma seek_to_end_witness :
  let s := run threeBufferTrace initialApp in
  exists u,
    activeSources (seekToTime (5 # 2) 3 s) = [u] /\
    buffer u = mkAudioBuffer chunkC (1 # 2) /\
    startWhen u = 3 /\
    0 < startOffset u.
Proof.
  cbv zeta.
  assert (Hbufs : decodedAudioBuffers (run threeBufferTrace initialApp)
                  = [mkAudioBuffer chunkA 1; mkAudioBuffer chunkB 1]
                      ++ [mkAudioBuffer chunkC (1 # 2)])
    by (vm_compute; reflexivity).
  assert (Htotal : totalDuration (run threeBufferTrace initialApp)
                   == timelineDuration
                        (decodedAudioBuffers (run threeBufferTrace initialApp)))
    by (vm_compute; reflexivity).
  assert (Ht : 5 # 2 == totalDuration (run threeBufferTrace initialApp))
    by (vm_compute; reflexivity).
  assert (Hpre : endsBefore (5 # 2) 0 [mkAudioBuffer chunkA 1; mkAudioBuffer chunkB 1])
    by (cbn; repeat split; lra).
  destruct (seek_to_end (run threeBufferTrace initialApp) (5 # 2) 3 _ _
              Hbufs Htotal Ht Hpre) as (Hsrc & _ & Hoff).
  eexists. split; [exact Hsrc|]. split; [reflexivity|]. split; [reflexivity|].
  apply Hoff. discriminate.
Defined.

(** ** Order of the timeline *)

(** C2, counterexample.  After [outOfOrderTrace] both decodes have
    resolved, the chunk store holds the chunks in arrival order, and the
    timeline holds their buffers in the opposite order, the order in which
    the decodes resolved. *)
Lemma timeline_in_completion_order :
  exists s,
    reachable s /\
    receivedAudioChunks s = [chunkA; chunkB] /\
    pendingDecodes s = [] /\
    map pcm (decodedAudioBuffers s) = [chunkB; chunkA] /\
    map pcm (decodedAudioBuffers s) <> receivedAudioChunks s.
Proof.
  exists (run outOfOrderTrace initialApp).
  split; [exists outOfOrderTrace; reflexivity|].
  vm_compute. repeat split. discriminate.
Qed.

Lemma inOrder_invariant (evs : list Event) (s : App) :
  forallb inOrder evs = true ->
  map pcm (decodedAudioBuffers s) ++ pendingDecodes s = receivedAudioChunks s ->
  map pcm (decodedAudioBuffers (run evs s)) ++ pendingDecodes (run evs s)
  = receivedAudioChunks (run evs s).
Proof.
  revert s. induction evs as [|e evs IH]; intros s Hevs Hinv; [exact Hinv|].
  cbn [forallb] in Hevs. apply andb_prop in Hevs. destruct Hevs as [He Hevs].
  cbn [run fold_left]. apply (IH (step s e) Hevs).
  pose proof (step_pipeline s e) as Hstep. cbv zeta in Hstep.
  destruct e; try discriminate He;
    try (destruct Hstep as (-> & -> & -> & _); exact Hinv).
  - destruct Hstep as (-> & -> & -> & _).
    rewrite app_assoc, Hinv. reflexivity.
  - cbn [inOrder] in He. apply Nat.eqb_eq in He. subst k.
    destruct (pendingDecodes s) as [|c rest] eqn:Hpending; cbn [nth_error] in Hstep.
    + rewrite Hstep. rewrite Hpending. exact Hinv.
    + destruct Hstep as (-> & -> & -> & _). cbn [removeNth].
      rewrite map_app, <- app_assoc. exact Hinv.
Qed.

(** C2, amended.  The timeline holds the decoded buffers in the order in
    which their decodes resolve: a resolving decode appends its buffer at the
    end.  So, as long as decodes resolve in the order in which they were
    started (and none fails, within one session), the timeline followed by
    the chunks still being decoded is the chunk store: timeline order is
    arrival order. *)
Theorem timeline_order (evs : list Event) :
  forallb inOrder evs = true ->
  let s := run evs initialApp in
  map pcm (decodedAudioBuffers s) ++ pendingDecodes s = receivedAudioChunks s /\
  forall (later : App) k dur now c,
    nth_error (pendingDecodes later) k = Some c ->
    decodedAudioBuffers (step later (EvDecoded k dur now))
    = decodedAudioBuffers later ++ [mkAudioBuffer c dur].
Proof.
  intros Hevs s. subst s. split.
  - apply inOrder_invariant; [exact Hevs | reflexivity].
  - intros later k dur now c Hk.
    pose proof (step_pipeline later (EvDecoded k dur now)) as Hstep.
    cbv beta iota zeta in Hstep. rewrite Hk in Hstep. apply Hstep.
Qed.

Lemma timeline_order_witness :
  let s := run [EvPlayPause 0 1; EvConnected 1%nat 0; EvMessage chunkA;
                EvMessage chunkB; EvDecoded 0 1 0; EvMessage chunkC;
                EvDecoded 0 1 0] initialApp in
  map pcm (decodedAudioBuffers s) ++ pendingDecodes s = receivedAudioChunks s.
Proof.
  cbv zeta.
  apply (timeline_order
           [EvPlayPause 0 1; EvConnected 1%nat 0; EvMessage chunkA;
            EvMessage chunkB; EvDecoded 0 1 0; EvMessage chunkC;
            EvDecoded 0 1 0]).
  reflexivity.
Defined.

(** ** [totalDuration] *)

(** C3, counterexample.  After [pausedDecodeTrace] the timeline holds one
    buffer of two seconds and [totalDuration] is 0. *)
Lemma total_duration_misses_paused_decode :
  exists s,
    reachable s /\ playbackState s = paused /\
    totalDuration s == 0 /\
    timelineDuration (decodedAudioBuffers s) == 2 /\
    ~ totalDuration s == timelineDuration (decodedAudioBuffers s).
Proof.
  exists (run pausedDecodeTrace initialApp).
  split; [exists pausedDecodeTrace; reflexivity|].
  vm_compute. repeat split; discriminate.
Qed.

Lemma timelineDuration_snoc (bs : list AudioBuffer) (b : AudioBuffer) :
  timelineDuration (bs ++ [b]) = timelineDuration bs + duration b.
Proof. unfold timelineDuration. rewrite accumulate_app. reflexivity. Qed.

Lemma step_totalBounded (s : App) (e : Event) :
  durationOk e -> totalBounded s -> totalBounded (step s e).
Proof.
  unfold totalBounded. intros He [Hpos Hle].
  pose proof (step_pipeline s e) as Hstep. cbv zeta in Hstep.
  destruct e;
    try (destruct Hstep as (_ & _ & -> & ->); split; assumption);
    try (destruct Hstep as (_ & _ & -> & ->); cbn; split; lra).
  cbn [durationOk] in He.
  destruct (nth_error (pendingDecodes s) k) as [c|]; [|rewrite Hstep; split; assumption].
  destruct Hstep as (_ & _ & -> & ->). rewrite timelineDuration_snoc.
  cbn [duration]. destruct (playbackState s); split; lra.
Qed.

Lemma run_totalBounded (evs : list Event) (s : App) :
  Forall durationOk evs -> totalBounded s -> totalBounded (run evs s).
Proof.
  revert s. induction evs as [|e evs IH]; intros s Hevs Hs; [exact Hs|].
  inversion Hevs as [|x l He Hrest]; subst.
  cbn [run fold_left]. apply (IH (step s e) Hrest).
  apply step_totalBounded; assumption.
Qed.

(** C3, amended.  In every reachable state [totalDuration] is non-negative
    and at most the sum of the durations of the buffers of the timeline
    (durations being non-negative).  An event that runs [stopAudio] sets it
    to 0 and empties the timeline; no other event decreases it.  It is equal
    to the sum of the timeline as long as no decode resolves while the
    application is paused or stopped: every other event preserves the
    equality. *)
Theorem total_duration_bounds (evs : list Event) (e : Event) :
  Forall durationOk evs ->
  durationOk e ->
  let s := run evs initialApp in
  let s' := step s e in
  0 <= totalDuration s /\
  totalDuration s <= timelineDuration (decodedAudioBuffers s) /\
  (stopsAudio e = true -> totalDuration s' = 0 /\ decodedAudioBuffers s' = []) /\
  (stopsAudio e = false -> totalDuration s <= totalDuration s') /\
  (decodesWhileHalted s e = false ->
   totalDuration s == timelineDuration (decodedAudioBuffers s) ->
   totalDuration s' == timelineDuration (decodedAudioBuffers s')).
Proof.
  intros Hevs He s s'. subst s'.
  assert (Hs : totalBounded s).
  { apply run_totalBounded; [exact Hevs|]. split; cbn; lra. }
  destruct Hs as [Hpos Hle].
  pose proof (step_pipeline s e) as Hstep. cbv zeta in Hstep.
  generalize dependent s. intros s Hpos Hle Hstep.
  split; [exact Hpos|]. split; [exact Hle|].
  destruct e; cbn [stopsAudio decodesWhileHalted];
    try (destruct Hstep as (_ & _ & -> & ->);
         repeat split; intros;
         first [discriminate | reflexivity | lra | assumption]).
  cbn [durationOk] in He.
  destruct (nth_error (pendingDecodes s) k) as [c|].
  - destruct Hstep as (_ & _ & -> & ->). rewrite timelineDuration_snoc.
    cbn [duration].
    destruct (playbackState s); repeat split; intros;
      first [discriminate | lra].
  - rewrite Hstep. repeat split; intros; first [discriminate | lra | assumption].
Qed.

Lemma total_duration_bounds_witness :
  let s := run threeBufferTrace initialApp in
  totalDuration s <= timelineDuration (decodedAudioBuffers s) /\
  totalDuration s <= totalDuration (step s (EvDecoded 0 1 4)).
Proof.
  cbv zeta.
  assert (Hevs : Forall durationOk threeBufferTrace)
    by (repeat constructor; cbn; lra).
  assert (He : durationOk (EvDecoded 0 1 4)) by (cbn; lra).
  destruct (total_duration_bounds threeBufferTrace (EvDecoded 0 1 4) Hevs He)
    as (_ & Hle & _ & Hmono & _).
  split; [exact Hle|]. apply Hmono. reflexivity.
Defined.

(** * Further properties of the engine *)

(** What a seek does to the fields other than the schedule. *)
Lemma seekToTime_fields (t now : Q) (s : App) :
  let s' := seekToTime t now s in
  playbackState s'
  = match playbackState s with paused => playing | other => other end /\
  currentPlaybackTime s' = t /\
  streamStartTime s' = now - t /\
  totalDuration s' = totalDuration s /\
  isSeeking s' = isSeeking s /\
  dragListeners s' = dragListeners s /\
  session s' = session s /\
  decodedAudioBuffers s' = decodedAudioBuffers s.
Proof.
  cbv zeta. rewrite seekToTime_unfold. cbv zeta.
  pose proof (seekLoop_frame t (decodedAudioBuffers s) (seekStart t now s) 0 false)
    as (Hps & Htot & Hcur & Hbuf & Hsk & _ & Hsst & Hsess & _ & _ & _ & _ & _ & _
        & _ & Hdl).
  destruct (seekLoop t (decodedAudioBuffers s) (seekStart t now s, 0, false))
    as [[s1 acc1] h1].
  cbn [fst] in *.
  assert (Hs1 : playbackState s1 = playbackState s /\
                currentPlaybackTime s1 = t /\
                streamStartTime s1 = now - t /\
                totalDuration s1 = totalDuration s /\
                isSeeking s1 = isSeeking s /\
                dragListeners s1 = dragListeners s /\
                session s1 = session s /\
                decodedAudioBuffers s1 = decodedAudioBuffers s).
  { rewrite Hps, Htot, Hcur, Hbuf, Hsk, Hsst, Hsess, Hdl.
    destruct_app s. repeat split. }
  destruct Hs1 as (H1 & H2 & H3 & H4 & H5 & H6 & H7 & H8).
  destruct (playbackState s) eqn:Hstate;
    try (rewrite H1; repeat split; assumption).
  destruct (session s);
    destruct_app s1; cbn in *; repeat split; assumption.
Qed.

(** [pausedQuiet] is kept by every event. *)
Lemma step_pausedQuiet (s : App) (e : Event) :
  pausedQuiet s -> pausedQuiet (step s e).
Proof.
  unfold pausedQuiet. intros [Hpaused Hdrag].
  destruct e; cbn [step].
  - destruct_app s; cbn in Hpaused, Hdrag; subst;
      eval_app; split_tests; cbn; split; try reflexivity;
      intros; try discriminate; try (split; [discriminate | reflexivity]);
      try (apply Hpaused; reflexivity).
  - destruct_app s; cbn in Hpaused, Hdrag; subst;
      eval_app; split_tests; cbn; split; try reflexivity;
      intros; try discriminate; try (apply Hpaused; assumption).
  - destruct_app s; cbn in Hpaused, Hdrag; subst;
      eval_app; split_tests; cbn; split; try reflexivity;
      intros; try discriminate; try (apply Hpaused; assumption).
  - destruct_app s; cbn in *. split; assumption.
  - destruct (nth_error (pendingDecodes s) k) as [c|]; [|split; assumption].
    destruct (playbackState s) eqn:Hstate.
    + rewrite onDecoded_halted by (right; destruct_app s; exact Hstate).
      destruct_app s; cbn in *. split; [intros; congruence | assumption].
    + rewrite onDecoded_running by (left; destruct_app s; exact Hstate).
      destruct_app s; cbn in *. split; [discriminate | assumption].
    + rewrite onDecoded_running by (right; destruct_app s; exact Hstate).
      destruct_app s; cbn in *. split; [discriminate | assumption].
    + rewrite onDecoded_halted by (left; destruct_app s; exact Hstate).
      destruct_app s; cbn in *.
      split; [intros _; apply Hpaused; congruence | assumption].
  - destruct_app s; cbn in *. split; assumption.
  - destruct_app s; cbn in Hpaused, Hdrag; subst;
      eval_app; split_tests; cbn; split; try reflexivity; discriminate.
  - destruct_app s; cbn in Hpaused, Hdrag; subst;
      eval_app; split_tests; cbn; split; try reflexivity; discriminate.
  - destruct_app s; cbn in Hpaused, Hdrag; subst;
      eval_app; split_tests; cbn; split; try reflexivity;
      intros; try discriminate; try (apply Hpaused; assumption).
  - destruct_app s; cbn in *. split; [|assumption].
    intros Hp. destruct (Hpaused Hp) as [Hs ->]. split; [exact Hs | reflexivity].
  - unfold handleSeek. destruct (seekDisabled s); [split; assumption|].
    destruct (seekToTime_fields (totalDuration s * clampRatio ratio) now s)
      as (Hps & _ & _ & _ & Hsk & Hdl & _).
    rewrite Hps, Hsk, Hdl. split; [|assumption].
    destruct (playbackState s); discriminate.
  - destruct_app s; cbn in Hpaused, Hdrag; subst;
      eval_app; split_tests; cbn; split; try reflexivity;
      intros; try discriminate; try (apply Hpaused; assumption).
  - destruct_app s; cbn in Hpaused, Hdrag; subst;
      eval_app; split_tests; cbn; split; try reflexivity;
      intros; try discriminate; try (apply Hpaused; assumption).
  - unfold onPointerUp.
    destruct (dragListeners s) eqn:Hd; [|split; [assumption | congruence]].
    destruct (seekToTime_fields
                (totalDuration (setDragListeners false (setIsSeeking false s))
                 * clampRatio ratio) now
                (setDragListeners false (setIsSeeking false s)))
      as (Hps & _ & _ & _ & Hsk & Hdl & _).
    rewrite Hps, Hsk, Hdl. split.
    + destruct (playbackState (setDragListeners false (setIsSeeking false s)));
        discriminate.
    + destruct_app s. reflexivity.
Qed.

Lemma run_pausedQuiet (evs : list Event) (s : App) :
  pausedQuiet s -> pausedQuiet (run evs s).
Proof.
  revert s. induction evs as [|e evs IH]; intros s Hs; [exact Hs|].
  cbn [run fold_left]. apply (IH (step s e)). apply step_pausedQuiet. exact Hs.
Qed.

(** X1.  Whenever the application is paused it has a session and no live
    source, so a click on the play button resumes (it makes the application
    play) and never opens a new connection. *)
Theorem paused_is_quiet (evs : list Event) (now gainValue : Q) :
  playbackState (run evs initialApp) = paused ->
  let s := run evs initialApp in
  (exists sid, session s = Some sid) /\
  activeSources s = [] /\
  playbackState (step s (EvPlayPause now gainValue)) = playing /\
  pendingConnects (step s (EvPlayPause now gainValue)) = pendingConnects s.
Proof.
  intros Hpaused s.
  assert (Hq : pausedQuiet s).
  { apply run_pausedQuiet. split; [discriminate | reflexivity]. }
  destruct Hq as [Hq _]. destruct (Hq Hpaused) as [Hsess Hsrc].
  fold s in Hpaused. clearbody s.
  destruct (session s) as [sid|] eqn:Hs; [|congruence].
  split; [exists sid; reflexivity|]. split; [exact Hsrc|].
  destruct_app s. cbn in Hpaused, Hs. subst.
  destruct sk; split; reflexivity.
Qed.

Lemma paused_is_quiet_witness :
  let s := run pausedDecodeTrace initialApp in
  playbackState s = paused /\
  activeSources s = [] /\
  playbackState (step s (EvPlayPause 3 0)) = playing.
Proof.
  cbv zeta.
  assert (Hpaused : playbackState (run pausedDecodeTrace initialApp) = paused)
    by (vm_compute; reflexivity).
  destruct (paused_is_quiet pausedDecodeTrace 3 0 Hpaused) as (_ & Hsrc & Hplay & _).
  repeat split; assumption.
Defined.

(** ** Identities of the sources *)

Lemma NoDup_map_filter {Item Key : Type} (key : Item -> Key) (keep : Item -> bool)
    (items : list Item) :
  NoDup (map key items) -> NoDup (map key (filter keep items)).
Proof.
  induction items as [|x items IH]; cbn [map filter]; intros Hnd; [exact Hnd|].
  apply NoDup_cons_iff in Hnd. destruct Hnd as [Hnotin Hrest].
  destruct (keep x); [|exact (IH Hrest)].
  cbn [map]. apply NoDup_cons; [|exact (IH Hrest)].
  intros Hin. apply Hnotin. apply in_map_iff in Hin.
  destruct Hin as (z & Hz & Hzin). apply filter_In in Hzin.
  apply in_map_iff. exists z. split; [exact Hz | apply Hzin].
Qed.

Lemma sourcesFresh_push (s s' : App) (b : AudioBuffer) (start offset : Q) :
  sourcesFresh s ->
  activeSources s' = activeSources s ++ [mkSource (sourceCounter s) b start offset] ->
  sourceCounter s' = S (sourceCounter s) ->
  sourcesFresh s'.
Proof.
  unfold sourcesFresh. intros [Hnd Hlt] -> ->. split.
  - rewrite map_app. cbn [map sourceId].
    apply NoDup_app; [exact Hnd | repeat constructor; intros [] |].
    intros id Hin [<- | []]. apply in_map_iff in Hin.
    destruct Hin as (u & Hu & Hin).
    rewrite Forall_forall in Hlt. specialize (Hlt u Hin). lia.
  - apply Forall_app. split.
    + eapply Forall_impl; [|exact Hlt]. cbn. intros u Hu. lia.
    + repeat constructor.
Qed.

Lemma sourcesFresh_keep (s s' : App) :
  sourcesFresh s ->
  activeSources s' = activeSources s \/ activeSources s' = [] ->
  sourceCounter s' = sourceCounter s ->
  sourcesFresh s'.
Proof.
  unfold sourcesFresh. intros [Hnd Hlt] [-> | ->] ->.
  - split; assumption.
  - split; constructor.
Qed.

Lemma scheduleBuffer_sourcesFresh (b : AudioBuffer) (start offset : Q) (s : App) :
  sourcesFresh s -> sourcesFresh (scheduleBuffer b start offset s).
Proof.
  intros Hs. apply (sourcesFresh_push s _ b start offset Hs);
    destruct_app s; reflexivity.
Qed.

Lemma seekLoop_sourcesFresh (t : Q) (bs : list AudioBuffer) (s : App) (acc : Q)
    (h : bool) :
  sourcesFresh s -> sourcesFresh (fst (fst (seekLoop t bs (s, acc, h)))).
Proof.
  revert s acc h. induction bs as [|b bs IH]; intros s acc h Hs; [exact Hs|].
  unfold seekLoop. cbn [fold_left].
  assert (Hstep : sourcesFresh (fst (fst (seekStep t (s, acc, h) b)))).
  { unfold seekStep.
    destruct (negb h && Qle_bool t (acc + duration b));
      [apply scheduleBuffer_sourcesFresh; exact Hs|].
    destruct h; [apply scheduleBuffer_sourcesFresh; exact Hs | exact Hs]. }
  destruct (seekStep t (s, acc, h) b) as [[s1 acc1] h1].
  apply IH. exact Hstep.
Qed.

Lemma seekToTime_sourcesFresh (t now : Q) (s : App) :
  sourcesFresh (seekToTime t now s).
Proof.
  rewrite seekToTime_unfold. cbv zeta.
  pose proof (seekLoop_sourcesFresh t (decodedAudioBuffers s) (seekStart t now s)
                0 false) as Hloop.
  destruct (seekLoop t (decodedAudioBuffers s) (seekStart t now s, 0, false))
    as [[s1 acc1] h1].
  cbn [fst] in *.
  assert (Hs1 : sourcesFresh s1).
  { apply Hloop. destruct_app s. split; constructor. }
  destruct (playbackState s); try exact Hs1.
  destruct (session s); destruct_app s1; exact Hs1.
Qed.

Lemma step_sourceCounter (s : App) (e : Event) :
  match e with
  | EvSeek _ _ | EvPointerUp _ _ => True
  | EvDecoded k _ _ =>
      match nth_error (pendingDecodes s) k, playbackState s with
      | Some _, (playing | loading) => sourceCounter (step s e) = S (sourceCounter s)
      | _, _ => sourceCounter (step s e) = sourceCounter s
      end
  | _ => sourceCounter (step s e) = sourceCounter s
  end.
Proof.
  destruct e; cbn [step]; try exact I;
    try (lazymatch goal with
         | |- context [onDecoded] => fail
         | _ => eval_op s; reflexivity
         end).
  destruct (nth_error (pendingDecodes s) k) as [c|] eqn:Hk; [|].
  - destruct (playbackState s) eqn:Hps.
    + rewrite onDecoded_halted by (right; destruct_app s; exact Hps).
      destruct_app s. reflexivity.
    + rewrite onDecoded_running by (left; destruct_app s; exact Hps).
      destruct_app s. reflexivity.
    + rewrite onDecoded_running by (right; destruct_app s; exact Hps).
      destruct_app s. reflexivity.
    + rewrite onDecoded_halted by (left; destruct_app s; exact Hps).
      destruct_app s. reflexivity.
  - destruct (playbackState s); reflexivity.
Qed.

Lemma step_sourcesFresh (s : App) (e : Event) :
  sourcesFresh s -> sourcesFresh (step s e).
Proof.
  intros Hs.
  pose proof (step_sources s e) as Hsrc.
  pose proof (step_sourceCounter s e) as Hcnt.
  cbv zeta in Hsrc.
  destruct e;
    try (apply (sourcesFresh_keep s _ Hs Hsrc Hcnt)).
  - destruct (nth_error (pendingDecodes s) k) as [c|] eqn:Hk;
      [|rewrite Hsrc; exact Hs].
    destruct (playbackState s) eqn:Hps.
    + apply (sourcesFresh_keep s _ Hs (or_introl Hsrc) Hcnt).
    + destruct Hsrc as [start Hsrc].
      apply (sourcesFresh_push s _ _ _ _ Hs Hsrc Hcnt).
    + destruct Hsrc as [start Hsrc].
      apply (sourcesFresh_push s _ _ _ _ Hs Hsrc Hcnt).
    + apply (sourcesFresh_keep s _ Hs (or_introl Hsrc) Hcnt).
  - destruct Hs as [Hnd Hlt]. split.
    + rewrite Hsrc. apply NoDup_map_filter. exact Hnd.
    + rewrite Hsrc, Hcnt. rewrite Forall_forall in *.
      intros u Hu. apply filter_In in Hu. apply Hlt. apply Hu.
  - cbn [step]. unfold handleSeek. destruct (seekDisabled s); [exact Hs|].
    apply seekToTime_sourcesFresh.
  - cbn [step]. unfold onPointerUp. destruct (dragListeners s); [|exact Hs].
    apply seekToTime_sourcesFresh.
Qed.

Lemma run_sourcesFresh (evs : list Event) (s : App) :
  sourcesFresh s -> sourcesFresh (run evs s).
Proof.
  revert s. induction evs as [|e evs IH]; intros s Hs; [exact Hs|].
  cbn [run fold_left]. apply (IH (step s e)). apply step_sourcesFresh. exact Hs.
Qed.

Lemma filter_other_ids (id : nat) (l : list AudioBufferSourceNode) :
  ~ In id (map sourceId l) ->
  filter (fun src => negb (Nat.eqb (sourceId src) id)) l = l.
Proof.
  induction l as [|x l IH]; intros Hnotin; [reflexivity|].
  cbn [filter]. cbn [map] in Hnotin.
  destruct (Nat.eqb (sourceId x) id) eqn:E.
  - apply Nat.eqb_eq in E. exfalso. apply Hnotin. left. exact E.
  - cbn [negb]. f_equal. apply IH. intros Hin. apply Hnotin. right. exact Hin.
Qed.

(** X2.  In every reachable state the live sources have pairwise distinct
    identities, all older than the counter of identities; so when a live
    source ends, [onended] removes that source from [activeSources] and no
    other, and the order of the others is kept. *)
Theorem onended_removes_one (evs : list Event) (u : AudioBufferSourceNode) :
  In u (activeSources (run evs initialApp)) ->
  let s := run evs initialApp in
  NoDup (map sourceId (activeSources s)) /\
  (sourceId u < sourceCounter s)%nat /\
  exists before after,
    activeSources s = before ++ u :: after /\
    activeSources (step s (EvEnded (sourceId u))) = before ++ after.
Proof.
  intros Hin s.
  assert (Hfresh : sourcesFresh s).
  { apply run_sourcesFresh. split; constructor. }
  destruct Hfresh as [Hnd Hlt]. fold s in Hin.
  split; [exact Hnd|]. split.
  - rewrite Forall_forall in Hlt. apply Hlt. exact Hin.
  - destruct (in_split u _ Hin) as (before & after & Heq).
    exists before, after. split; [exact Heq|].
    pose proof (step_sources s (EvEnded (sourceId u))) as Hsrc. cbv zeta in Hsrc.
    rewrite Hsrc, Heq. rewrite Heq, map_app in Hnd. cbn [map] in Hnd.
    apply NoDup_remove_2 in Hnd.
    rewrite filter_app. cbn [filter]. rewrite Nat.eqb_refl. cbn [negb].
    rewrite !filter_other_ids; [reflexivity | |];
      intros Hid; apply Hnd; apply in_or_app; [right | left]; exact Hid.
Qed.

Lemma onended_removes_one_witness :
  let s := run threeBufferTrace initialApp in
  let u := mkSource 1 (mkAudioBuffer chunkB 1) 2 0 in
  In u (activeSources s) /\
  exists before after,
    activeSources s = before ++ u :: after /\
    activeSources (step s (EvEnded 1)) = before ++ after.
Proof.
  cbv zeta.
  assert (Hin : In (mkSource 1 (mkAudioBuffer chunkB 1) 2 0)
                  (activeSources (run threeBufferTrace initialApp))).
  { vm_compute. right. left. reflexivity. }
  split; [exact Hin|].
  destruct (onended_removes_one threeBufferTrace _ Hin) as (_ & _ & Hsplit).
  exact Hsplit.
Defined.

(** ** Reset *)



(** ** More about seeking *)

Lemma accumulate_cons (acc : Q) (b : AudioBuffer) (bs : list AudioBuffer) :
  accumulate acc (b :: bs) = accumulate (acc + duration b) bs.
Proof. reflexivity. Qed.

Lemma accumulate_compat (acc acc' : Q) (bs : list AudioBuffer) :
  acc == acc' -> accumulate acc bs == accumulate acc' bs.
Proof.
  revert acc acc'. induction bs as [|b bs IH]; intros acc acc' Heq.
  - exact Heq.
  - rewrite !accumulate_cons. apply IH. rewrite Heq. reflexivity.
Qed.

(** Sources started back to back form a chain, on the buffers given, each
    from offset 0, which ends where the durations, added to the start one
    after the other, lead. *)
Lemma backToBack_chained (id : nat) (start : Q) (bs : list AudioBuffer) :
  map buffer (backToBack id start bs) = bs /\
  Forall (fun u => startOffset u = 0) (backToBack id start bs) /\
  chained start (backToBack id start bs) /\
  chainEnd start bs == accumulate start bs.
Proof.
  revert id start. induction bs as [|b bs IH]; intros id start.
  - cbn. repeat split; constructor.
  - cbn [backToBack map buffer chainEnd chained startWhen].
    destruct (IH (S id) (start + (duration b - 0)))
      as (Hmap & Hoff & Hchain & Hend).
    split; [rewrite Hmap; reflexivity|].
    split; [constructor; [reflexivity | exact Hoff]|].
    split; [split; [reflexivity | exact Hchain]|].
    rewrite Hend, accumulate_cons. apply accumulate_compat. lra.
Qed.

(** X4.  A seek to time 0 schedules the whole timeline from its beginning:
    one source per buffer, in timeline order, each from offset 0, the first
    at the current device time and every other at the start time of its
    predecessor plus the duration of the predecessor's buffer less its
    offset; [nextStartTime] is left at the current device time with the
    durations of the buffers added to it one after the other. *)
Theorem seek_to_start (s : App) (now : Q) (b : AudioBuffer) (post : list AudioBuffer) :
  decodedAudioBuffers s = b :: post ->
  0 <= duration b ->
  let s' := seekToTime 0 now s in
  map buffer (activeSources s') = decodedAudioBuffers s /\
  Forall (fun u => startOffset u == 0) (activeSources s') /\
  chained now (activeSources s') /\
  nextStartTime s' == accumulate now (decodedAudioBuffers s) /\
  currentPlaybackTime s' = 0.
Proof.
  intros Hbufs Hb s'. subst s'.
  destruct (seekToTime_located 0 now s [] post b Hbufs) as (Hsrc & Hnext).
  - exact I.
  - cbn. lra.
  - cbv zeta in Hsrc, Hnext. rewrite Hsrc, Hnext, Hbufs.
    destruct (backToBack_chained (S (sourceCounter s))
                (now + (duration b - (0 - accumulate 0 []))) post)
      as (Hmap & Hoff & Hchain & Hend).
    repeat split.
    + cbn [map buffer]. rewrite Hmap. reflexivity.
    + constructor; [cbn; lra|].
      eapply Forall_impl; [|exact Hoff]. cbn. intros u ->. lra.
    + exact Hchain.
    + rewrite Hend, accumulate_cons. apply accumulate_compat. cbn. lra.
    + apply seekToTime_fields.
Qed.

Lemma seek_to_start_witness :
  let s := run threeBufferTrace initialApp in
  map buffer (activeSources (seekToTime 0 7 s)) = decodedAudioBuffers s /\
  nextStartTime (seekToTime 0 7 s) == 7 + 1 + 1 + (1 # 2).
Proof.
  cbv zeta.
  assert (Hbufs : decodedAudioBuffers (run threeBufferTrace initialApp)
                  = mkAudioBuffer chunkA 1
                      :: [mkAudioBuffer chunkB 1; mkAudioBuffer chunkC (1 # 2)])
    by (vm_compute; reflexivity).
  assert (Hb : 0 <= duration (mkAudioBuffer chunkA 1)) by (cbn; lra).
  destruct (seek_to_start (run threeBufferTrace initialApp) 7 _ _ Hbufs Hb)
    as (Hmap & _ & _ & Hnext & _).
  split; [exact Hmap|]. rewrite Hnext. vm_compute. reflexivity.
Defined.

(** X5.  A seek to a time [t] that falls inside buffer [b] of the timeline
    (after the cumulative end of the buffers before it, not after its own
    cumulative end) schedules [b] at the current device time from the offset
    [t] minus the cumulative end of the buffers before it, a positive
    offset, then the buffers after it from offset 0, each at the start time
    of its predecessor plus the duration of the predecessor's buffer less its
    offset; the buffers before [b] are not scheduled; and [nextStartTime] is
    left where the durations of the buffers after [b], added one after the
    other to the instant at which the first of them starts, lead. *)
Theorem seek_inside_buffer (s : App) (t now : Q) (pre post : list AudioBuffer)
    (b : AudioBuffer) :
  decodedAudioBuffers s = pre ++ b :: post ->
  Forall (fun x => 0 <= duration x) pre ->
  accumulate 0 pre < t ->
  t <= accumulate 0 pre + duration b ->
  let s' := seekToTime t now s in
  let offset := t - accumulate 0 pre in
  map buffer (activeSources s') = b :: post /\
  (exists u rest,
      activeSources s' = u :: rest /\
      startWhen u = now /\
      startOffset u = offset /\
      0 < offset /\
      Forall (fun v => startOffset v = 0) rest) /\
  chained now (activeSources s') /\
  nextStartTime s' == accumulate (now + (duration b - offset)) post.
Proof.
  intros Hbufs Hpre Hlo Hhi s' offset. subst s' offset.
  destruct (seekToTime_located t now s pre post b Hbufs) as (Hsrc & Hnext).
  - apply endsBefore_of_nonneg; assumption.
  - exact Hhi.
  - cbv zeta in Hsrc, Hnext. rewrite Hsrc, Hnext.
    destruct (backToBack_chained (S (sourceCounter s))
                (now + (duration b - (t - accumulate 0 pre))) post)
      as (Hmap & Hoff & Hchain & Hend).
    split; [cbn [map buffer]; rewrite Hmap; reflexivity|]. split; [|split].
    + eexists. eexists. split; [reflexivity|].
      cbn [startWhen startOffset]. repeat split; try assumption; lra.
    + cbn [chained startWhen]. split; [reflexivity | exact Hchain].
    + exact Hend.
Qed.

(** The scenario of the specification: buffers of 1 s, 1 s and 0.5 s, and
    a seek to 1.5 s. *)
Lemma seek_inside_buffer_witness :
  let s := run threeBufferTrace initialApp in
  let s' := seekToTime (3 # 2) 9 s in
  map buffer (activeSources s')
  = [mkAudioBuffer chunkB 1; mkAudioBuffer chunkC (1 # 2)] /\
  nextStartTime s' == 9 + 1.
Proof.
  cbv zeta.
  assert (Hbufs : decodedAudioBuffers (run threeBufferTrace initialApp)
                  = [mkAudioBuffer chunkA 1] ++ mkAudioBuffer chunkB 1
                      :: [mkAudioBuffer chunkC (1 # 2)])
    by (vm_compute; reflexivity).
  assert (Hpre : Forall (fun x : AudioBuffer => 0 <= duration x)
                   [mkAudioBuffer chunkA 1]) by (repeat constructor; cbn; lra).
  assert (Hlo : accumulate 0 [mkAudioBuffer chunkA 1] < 3 # 2)
    by (vm_compute; reflexivity).
  assert (Hhi : 3 # 2 <= accumulate 0 [mkAudioBuffer chunkA 1]
                         + duration (mkAudioBuffer chunkB 1))
    by (vm_compute; discriminate).
  destruct (seek_inside_buffer (run threeBufferTrace initialApp) (3 # 2) 9 _ _ _
              Hbufs Hpre Hlo Hhi) as (Hmap & _ & _ & Hnext).
  split; [exact Hmap|]. rewrite Hnext. vm_compute. reflexivity.
Defined.

Lemma updateProgress_running (now : Q) (s : App) :
  isSeeking s = false ->
  playbackState s = playing \/ playbackState s = loading ->
  currentPlaybackTime (updateProgress now s)
  = Qmax 0 (Qmin (now - streamStartTime s) (totalDuration s)).
Proof.
  intros Hseek Hstate. destruct_app s; cbn [isSeeking playbackState] in *.
  subst. destruct Hstate as [-> | ->]; reflexivity.
Qed.

(** X6.  A seek anchors the cursor anew: a seek to [t] at device time
    [now] (application not stopped, no drag in progress) sets the cursor to
    [t] and [streamStartTime] to [now - t]; from then on the update step at
    device time [later] sets the cursor to [later - (now - t)] clamped to
    [0, totalDuration], which is never negative and never smaller than at an
    earlier device time. *)
Theorem seek_then_update (t now earlier later : Q) (s : App) :
  playbackState s <> stopped ->
  isSeeking s = false ->
  earlier <= later ->
  let s' := seekToTime t now s in
  currentPlaybackTime s' = t /\
  streamStartTime s' = now - t /\
  currentPlaybackTime (updateProgress later s')
  = Qmax 0 (Qmin (later - (now - t)) (totalDuration s)) /\
  0 <= currentPlaybackTime (updateProgress later s') /\
  currentPlaybackTime (updateProgress earlier s')
  <= currentPlaybackTime (updateProgress later s').
Proof.
  intros Hstate Hseek Horder s'.
  destruct (seekToTime_fields t now s)
    as (Hps & Hcur & Hsst & Htot & Hsk & _).
  fold s' in Hps, Hcur, Hsst, Htot, Hsk.
  assert (Hrun : playbackState s' = playing \/ playbackState s' = loading).
  { rewrite Hps. destruct (playbackState s); auto. congruence. }
  assert (Hsk' : isSeeking s' = false) by congruence.
  split; [exact Hcur|]. split; [exact Hsst|].
  rewrite !(updateProgress_running _ s' Hsk' Hrun), Hsst, Htot.
  split; [reflexivity|]. split.
  - apply Q.le_max_l.
  - apply Q.max_le_compat_l. apply Q.min_le_compat_r. lra.
Qed.

Lemma seek_then_update_witness :
  let s := run threeBufferTrace initialApp in
  currentPlaybackTime (updateProgress 12 (seekToTime (3 # 2) 12 s))
  <= currentPlaybackTime (updateProgress 13 (seekToTime (3 # 2) 12 s)).
Proof.
  cbv zeta.
  assert (Hstate : playbackState (run threeBufferTrace initialApp) <> stopped)
    by (vm_compute; discriminate).
  assert (Hseek : isSeeking (run threeBufferTrace initialApp) = false)
    by (vm_compute; reflexivity).
  assert (Horder : 12 <= 13) by lra.
  apply (seek_then_update (3 # 2) 12 12 13 _ Hstate Hseek Horder).
Defined.

(** ** Clicks on the progress bar *)

Lemma clampRatio_range (r : Q) : 0 <= clampRatio r /\ clampRatio r <= 1.
Proof.
  unfold clampRatio. split.
  - apply Q.le_max_l.
  - apply Q.max_lub; [lra | apply Q.le_min_l].
Qed.

Lemma clampRatio_low (r : Q) : r <= 0 -> clampRatio r == 0.
Proof.
  intros Hr. unfold clampRatio. apply Q.max_l.
  eapply Qle_trans; [apply Q.le_min_r | exact Hr].
Qed.

Lemma clampRatio_high (r : Q) : 1 <= r -> clampRatio r == 1.
Proof.
  intros Hr. unfold clampRatio. rewrite (Q.min_l 1 r Hr). apply Q.max_r. lra.
Qed.

(** X8.  A click on the progress bar does nothing while the application is
    stopped or nothing has been scheduled yet ([totalDuration] is 0), and the
    same holds for a press on the handle.  Otherwise it seeks to
    [totalDuration] times the clamped position of the click, a time between 0
    and [totalDuration] wherever the click lands (0 left of the bar,
    [totalDuration] right of it), and the application is playing or loading
    afterwards. *)
Theorem click_seeks_within_timeline (ratio now : Q) (s : App) :
  0 <= totalDuration s ->
  let s' := handleSeek ratio now s in
  (seekDisabled s = true -> s' = s /\ handleSeekPointerDown s = s) /\
  (seekDisabled s = false ->
   currentPlaybackTime s' = totalDuration s * clampRatio ratio /\
   0 <= currentPlaybackTime s' /\
   currentPlaybackTime s' <= totalDuration s /\
   (ratio <= 0 -> currentPlaybackTime s' == 0) /\
   (1 <= ratio -> currentPlaybackTime s' == totalDuration s) /\
   (playbackState s' = playing \/ playbackState s' = loading)).
Proof.
  intros Htot s'. subst s'. unfold handleSeek, handleSeekPointerDown.
  destruct (seekDisabled s) eqn:Hdis.
  - split; [intros _; split; reflexivity | discriminate].
  - split; [discriminate|]. intros _.
    destruct (seekToTime_fields (totalDuration s * clampRatio ratio) now s)
      as (Hps & Hcur & _).
    rewrite Hcur, Hps.
    destruct (clampRatio_range ratio) as [Hlo Hhi].
    split; [reflexivity|]. split; [apply Qmult_le_0_compat; assumption|].
    split.
    { rewrite <- (Qmult_1_r (totalDuration s)) at 2.
      rewrite !(Qmult_comm (totalDuration s)).
      apply Qmult_le_compat_r; assumption. }
    split; [intros Hr; rewrite (clampRatio_low _ Hr); lra|].
    split; [intros Hr; rewrite (clampRatio_high _ Hr); lra|].
    unfold seekDisabled in Hdis. apply orb_false_elim in Hdis.
    destruct Hdis as [Hstopped _].
    destruct (playbackState s); try discriminate Hstopped; auto.
Qed.

Lemma click_seeks_within_timeline_witness :
  let s := run threeBufferTrace initialApp in
  currentPlaybackTime (handleSeek 7 4 s) == 5 # 2 /\
  handleSeek 7 4 initialApp = initialApp.
Proof.
  cbv zeta.
  assert (Htot : 0 <= totalDuration (run threeBufferTrace initialApp))
    by (vm_compute; discriminate).
  destruct (click_seeks_within_timeline 7 4 _ Htot) as [_ Hon].
  destruct Hon as (_ & _ & _ & _ & Hright & _); [vm_compute; reflexivity|].
  split.
  - rewrite Hright by lra. vm_compute. reflexivity.
  - assert (Hinit : 0 <= totalDuration initialApp) by (cbn; lra).
    destruct (click_seeks_within_timeline 7 4 initialApp Hinit) as [Hoff _].
    apply Hoff. vm_compute. reflexivity.
Defined.

(** * Further properties of the WAV export *)

Section WavMore.

Import Wav.
Local Open Scope Z_scope.

Lemma littleEndian_uint16 (v : Z) :
  littleEndian [byteOf v 0; byteOf v 1] = v mod 2 ^ 16.
Proof.
  cbn [littleEndian]. rewrite !byteOf_div.
  change (2 ^ (8 * Z.of_nat 0)) with 1. change (2 ^ (8 * Z.of_nat 1)) with 256.
  change (2 ^ 16) with 65536.
  Z.div_mod_to_equations. lia.
Qed.

(** The header for arbitrary arguments, byte by byte. *)
Lemma writeWavHeader_bytes (dataLength sampleRate numChannels bitsPerSample : Z) :
  let size := 36 + dataLength in
  let byteRate := Z.quot (sampleRate * numChannels * bitsPerSample) 8 in
  let blockAlign := Z.quot (numChannels * bitsPerSample) 8 in
  writeWavHeader dataLength sampleRate numChannels bitsPerSample
  = Some [82; 73; 70; 70;
          byteOf size 0; byteOf size 1; byteOf size 2; byteOf size 3;
          87; 65; 86; 69;
          102; 109; 116; 32;
          16; 0; 0; 0;
          1; 0;
          byteOf numChannels 0; byteOf numChannels 1;
          byteOf sampleRate 0; byteOf sampleRate 1;
          byteOf sampleRate 2; byteOf sampleRate 3;
          byteOf byteRate 0; byteOf byteRate 1; byteOf byteRate 2; byteOf byteRate 3;
          byteOf blockAlign 0; byteOf blockAlign 1;
          byteOf bitsPerSample 0; byteOf bitsPerSample 1;
          100; 97; 116; 97;
          byteOf dataLength 0; byteOf dataLength 1;
          byteOf dataLength 2; byteOf dataLength 3].
Proof.
  cbv zeta. unfold writeWavHeader.
  generalize (36 + dataLength) as size.
  generalize (Z.quot (sampleRate * numChannels * bitsPerSample) 8) as byteRate.
  generalize (Z.quot (numChannels * bitsPerSample) 8) as blockAlign.
  intros blockAlign byteRate size.
  cbv -[byteOf]. reflexivity.
Qed.

End WavMore.

(** X9.  [writeWavHeader] never fails: for any arguments it returns 44
    bytes, each in [0, 256), with the four tags in place, and every numeric
    field reads back as the corresponding argument (or the value computed
    from the arguments) modulo the width of the field: the header loses
    nothing of a value that fits its field. *)
Theorem wav_header_round_trip (dataLength sampleRate numChannels bitsPerSample : Z) :
  exists header,
    Wav.writeWavHeader dataLength sampleRate numChannels bitsPerSample = Some header /\
    length header = 44%nat /\
    Forall (fun b => 0 <= b < 256)%Z header /\
    Wav.slice 0 4 header = Wav.charCodes "RIFF"%string /\
    Wav.slice 8 8 header = Wav.charCodes "WAVEfmt "%string /\
    Wav.slice 36 4 header = Wav.charCodes "data"%string /\
    Wav.littleEndian (Wav.slice 4 4 header) = ((36 + dataLength) mod 2 ^ 32)%Z /\
    Wav.littleEndian (Wav.slice 16 4 header) = 16%Z /\
    Wav.littleEndian (Wav.slice 20 2 header) = 1%Z /\
    Wav.littleEndian (Wav.slice 22 2 header) = (numChannels mod 2 ^ 16)%Z /\
    Wav.littleEndian (Wav.slice 24 4 header) = (sampleRate mod 2 ^ 32)%Z /\
    Wav.littleEndian (Wav.slice 28 4 header)
    = (Z.quot (sampleRate * numChannels * bitsPerSample) 8 mod 2 ^ 32)%Z /\
    Wav.littleEndian (Wav.slice 32 2 header)
    = (Z.quot (numChannels * bitsPerSample) 8 mod 2 ^ 16)%Z /\
    Wav.littleEndian (Wav.slice 34 2 header) = (bitsPerSample mod 2 ^ 16)%Z /\
    Wav.littleEndian (Wav.slice 40 4 header) = (dataLength mod 2 ^ 32)%Z.
Proof.
  eexists. split; [apply writeWavHeader_bytes|].
  split; [reflexivity|]. split.
  { repeat (apply Forall_cons; [first [apply byteOf_range | lia]|]).
    apply Forall_nil. }
  repeat split; unfold Wav.slice; cbn [skipn firstn];
    first [apply littleEndian_uint32 | apply littleEndian_uint16].
Qed.

(** X10.  The WAV download produces a file exactly when the chunk store is
    not empty.  It never runs out of the arrays it fills: for a non-empty
    store, even one whose chunks are all empty, the file is the 44-byte
    header followed by the bytes of the chunks in arrival order. *)
Theorem wav_download_total (chunks : list Chunk) :
  (Wav.handleDownloadWav chunks = None <-> chunks = []) /\
  (chunks <> [] ->
   exists header,
     Wav.writeWavHeader (Z.of_nat (length (concat chunks))) Wav.contextSampleRate 2 16
     = Some header /\
     length header = 44%nat /\
     Wav.handleDownloadWav chunks = Some (header ++ concat chunks)).
Proof.
  assert (Hsome : chunks <> [] ->
                  exists header,
                    Wav.writeWavHeader (Z.of_nat (length (concat chunks)))
                      Wav.contextSampleRate 2 16 = Some header /\
                    length header = 44%nat /\
                    Wav.handleDownloadWav chunks = Some (header ++ concat chunks)).
  { intros Hne. eexists. split; [apply writeWavHeader_download|].
    split; [reflexivity|].
    apply handleDownloadWav_eq; [exact Hne | apply writeWavHeader_download]. }
  split; [|exact Hsome].
  split.
  - intros Hnone. destruct chunks as [|c chunks]; [reflexivity|].
    destruct Hsome as (header & _ & _ & Heq); [discriminate|]. congruence.
  - intros ->. reflexivity.
Qed.

Lemma wav_download_total_witness :
  exists header,
    length header = 44%nat /\
    Wav.handleDownloadWav [[]; []] = Some (header ++ []).
Proof.
  destruct (wav_download_total [[]; []]) as [_ Hsome].
  destruct Hsome as (header & _ & Hlen & Heq); [discriminate|].
  exists header. split; [exact Hlen | exact Heq].
Defined.

(** X11.  What can be downloaded only depends on the chunks received since
    the last reset: no event other than the arrival of a chunk, a reset or a
    session error changes the WAV file; pausing, resuming, seeking, decodes
    and animation frames leave it as it is. *)
Theorem wav_download_stable (s : App) (e : Event) :
  stopsAudio e = false ->
  (forall c, e <> EvMessage c) ->
  Wav.handleDownloadWav (receivedAudioChunks (step s e))
  = Wav.handleDownloadWav (receivedAudioChunks s).
Proof.
  intros Hstop Hmsg. f_equal.
  pose proof (step_pipeline s e) as Hstep. cbv zeta in Hstep.
  destruct e; try discriminate Hstop; try apply Hstep.
  - exfalso. apply (Hmsg decoded). reflexivity.
  - destruct (nth_error (pendingDecodes s) k); [apply Hstep | rewrite Hstep; reflexivity].
Qed.

Lemma wav_download_stable_witness :
  let s := run threeBufferTrace initialApp in
  Wav.handleDownloadWav (receivedAudioChunks (step s (EvSeek (1 # 2) 3)))
  = Wav.handleDownloadWav (receivedAudioChunks s).
Proof.
  cbv zeta. apply wav_download_stable; [reflexivity | discriminate].
Defined.

(** * Properties of the rest of the application *)

(** ** The throttle *)

Section ThrottleFacts.

Import Throttle.
Local Open Scope Z_scope.

Context {A : Type}.




End ThrottleFacts.



(** ** Colours and prompts *)

Section PromptFacts.

Import Prompts.

Lemma pick_in_range {A : Type} (arr : list A) (r : Q) :
  arr <> [] -> 0 <= r -> r < 1 ->
  exists x, pick arr r = Some x /\ In x arr.
Proof.
  intros Hne Hlo Hhi. unfold pick.
  set (n := Z.of_nat (length arr)).
  assert (Hn : (0 < n)%Z) by (subst n; destruct arr; [congruence | cbn; lia]).
  assert (HnQ : 0 < inject_Z n)
    by (change 0 with (inject_Z 0); rewrite <- Zlt_Qlt; exact Hn).
  assert (Hi0 : (0 <= Qfloor (r * inject_Z n))%Z).
  { change 0%Z with (Qfloor 0). apply Qfloor_resp_le.
    apply Qmult_le_0_compat; lra. }
  assert (Hi1 : (Qfloor (r * inject_Z n) < n)%Z).
  { rewrite Zlt_Qlt. eapply Qle_lt_trans; [apply Qfloor_le|].
    assert (H1 : r * inject_Z n < 1 * inject_Z n)
      by (apply Qmult_lt_compat_r; assumption).
    lra. }
  replace (Qfloor (r * inject_Z n) <? 0)%Z with false
    by (symmetry; apply Z.ltb_ge; exact Hi0).
  destruct (nth_error arr (Z.to_nat (Qfloor (r * inject_Z n)))) as [x|] eqn:E.
  - exists x. split; [reflexivity|]. eapply nth_error_In. exact E.
  - apply nth_error_None in E. subst n. lia.
Qed.

Lemma includes_In (arr : list (option String.string)) (c : String.string) :
  includes arr c = true <-> In (Some c) arr.
Proof.
  unfold includes. rewrite existsb_exists. split.
  - intros (x & Hin & Hx). destruct x as [y|]; [|discriminate].
    apply String.eqb_eq in Hx. subst. exact Hin.
  - intros Hin. exists (Some c). split; [exact Hin | apply String.eqb_refl].
Qed.

Lemma COLORS_distinct : NoDup COLORS.
Proof.
  unfold COLORS.
  repeat (constructor; [cbn; intuition discriminate|]). constructor.
Qed.

(** With fewer used colours than there are colours, one is unused. *)
Lemma some_color_unused (usedColors : list (option String.string)) :
  (length usedColors < length COLORS)%nat ->
  filter (fun c => negb (includes usedColors c)) COLORS <> [].
Proof.
  intros Hlen Hnone.
  assert (Hincl : incl (map Some COLORS) usedColors).
  { intros x Hx. apply in_map_iff in Hx. destruct Hx as (c & <- & Hc).
    apply includes_In. destruct (includes usedColors c) eqn:E; [reflexivity|].
    assert (Hin : In c (filter (fun c => negb (includes usedColors c)) COLORS))
      by (apply filter_In; split; [exact Hc | rewrite E; reflexivity]).
    rewrite Hnone in Hin. destruct Hin. }
  apply NoDup_incl_length in Hincl.
  - rewrite length_map in Hincl. lia.
  - generalize COLORS_distinct. generalize COLORS.
    induction 1 as [|x l Hx Hl IH]; cbn [map]; constructor; [|exact IH].
    intros Hin. apply in_map_iff in Hin. destruct Hin as (y & Hy & Hin).
    injection Hy as ->. exact (Hx Hin).
Qed.

Lemma getUnusedRandomColor_spec (usedColors : list (option String.string)) (r : Q) :
  0 <= r -> r < 1 ->
  exists c,
    getUnusedRandomColor usedColors r = Some c /\
    In c COLORS /\
    (filter (fun c => negb (includes usedColors c)) COLORS <> [] ->
     ~ In (Some c) usedColors).
Proof.
  intros Hlo Hhi. unfold getUnusedRandomColor.
  destruct (filter (fun c => negb (includes usedColors c)) COLORS)
    as [|a available] eqn:Hav.
  - cbn [length Nat.eqb].
    destruct (pick_in_range COLORS r) as (c & Hc & Hin); try assumption.
    { discriminate. }
    exists c. split; [exact Hc|]. split; [exact Hin|]. congruence.
  - cbn [length Nat.eqb].
    destruct (pick_in_range (a :: available) r) as (c & Hc & Hin);
      try assumption.
    { discriminate. }
    exists c. split; [exact Hc|].
    rewrite <- Hav in Hin. apply filter_In in Hin. destruct Hin as [Hin Hun].
    split; [exact Hin|]. intros _ Hused. apply includes_In in Hused.
    rewrite Hused in Hun. discriminate.
Qed.

Lemma addPrompt_idsFresh (t : String.string) (w r : Q) (st : State) :
  idsFresh st -> idsFresh (addPrompt t w r st).
Proof.
  unfold idsFresh, addPrompt. cbn [prompts nextPromptId]. intros [Hnd Hlt]. split.
  - rewrite map_app. cbn [map promptId].
    apply NoDup_app; [exact Hnd | repeat constructor; intros [] |].
    intros id Hin [<- | []]. apply in_map_iff in Hin.
    destruct Hin as (p & Hp & Hin).
    rewrite Forall_forall in Hlt. specialize (Hlt p Hin). lia.
  - apply Forall_app. split.
    + eapply Forall_impl; [|exact Hlt]. cbn. intros p Hp. lia.
    + repeat constructor.
Qed.

Lemma handlePromptChanged_ids (changed : Prompt) (st : State) :
  map promptId (prompts (handlePromptChanged changed st)) = map promptId (prompts st).
Proof.
  unfold handlePromptChanged. cbn [prompts]. rewrite map_map.
  apply map_ext. intros p.
  destruct (Nat.eqb (promptId p) (promptId changed)) eqn:E; [|reflexivity].
  apply Nat.eqb_eq in E. congruence.
Qed.

Lemma apply_idsFresh (st : State) (op : Op) : idsFresh st -> idsFresh (apply st op).
Proof.
  intros Hst. destruct op as [t w r | changed | id]; cbn [apply].
  - apply addPrompt_idsFresh. exact Hst.
  - destruct Hst as [Hnd Hlt]. split.
    + rewrite handlePromptChanged_ids. exact Hnd.
    + cbn [handlePromptChanged prompts nextPromptId].
      rewrite Forall_forall in *. intros p Hin. apply in_map_iff in Hin.
      destruct Hin as (q & Hq & Hin).
      destruct (Nat.eqb (promptId q) (promptId changed)) eqn:E;
        subst p; [|apply Hlt; exact Hin].
      apply Nat.eqb_eq in E. rewrite <- E. apply Hlt. exact Hin.
  - destruct Hst as [Hnd Hlt]. split.
    + cbn [handlePromptRemoved prompts]. apply NoDup_map_filter. exact Hnd.
    + cbn [handlePromptRemoved prompts nextPromptId].
      rewrite Forall_forall in *. intros p Hin. apply filter_In in Hin.
      apply Hlt. apply Hin.
Qed.

Lemma run_idsFresh (ops : list Op) (st : State) :
  idsFresh st -> idsFresh (fold_left apply ops st).
Proof.
  revert st. induction ops as [|op ops IH]; intros st Hst; [exact Hst|].
  cbn [fold_left]. apply IH. apply apply_idsFresh. exact Hst.
Qed.

Lemma filter_other_prompts (id : nat) (l : list Prompt) :
  ~ In id (map promptId l) ->
  filter (fun p => negb (Nat.eqb (promptId p) id)) l = l.
Proof.
  induction l as [|x l IH]; intros Hnotin; [reflexivity|].
  cbn [filter]. cbn [map] in Hnotin.
  destruct (Nat.eqb (promptId x) id) eqn:E.
  - apply Nat.eqb_eq in E. exfalso. apply Hnotin. left. exact E.
  - cbn [negb]. f_equal. apply IH. intros Hin. apply Hnotin. right. exact Hin.
Qed.

Lemma map_other_prompts (changed : Prompt) (l : list Prompt) :
  ~ In (promptId changed) (map promptId l) ->
  map (fun p => if Nat.eqb (promptId p) (promptId changed) then changed else p) l = l.
Proof.
  induction l as [|x l IH]; intros Hnotin; [reflexivity|].
  cbn [map] in *.
  destruct (Nat.eqb (promptId x) (promptId changed)) eqn:E.
  - apply Nat.eqb_eq in E. exfalso. apply Hnotin. left. exact E.
  - f_equal. apply IH. intros Hin. apply Hnotin. right. exact Hin.
Qed.

End PromptFacts.

(** X13.  Whatever prompts are added, changed and removed, the identifiers
    of the prompts stay pairwise distinct.  So for a prompt [p] of the list,
    removing its identifier removes [p] and nothing else, and a change that
    carries its identifier replaces [p], in place, and nothing else. *)
Theorem prompt_ids_distinct (ops : list Prompts.Op) (p changed : Prompts.Prompt) :
  In p (Prompts.prompts (fold_left Prompts.apply ops Prompts.initial)) ->
  Prompts.promptId changed = Prompts.promptId p ->
  let st := fold_left Prompts.apply ops Prompts.initial in
  NoDup (map Prompts.promptId (Prompts.prompts st)) /\
  exists before after,
    Prompts.prompts st = before ++ p :: after /\
    Prompts.prompts (Prompts.handlePromptRemoved (Prompts.promptId p) st)
    = before ++ after /\
    Prompts.prompts (Prompts.handlePromptChanged changed st)
    = before ++ changed :: after.
Proof.
  intros Hin Hid st. fold st in Hin.
  assert (Hfresh : Prompts.idsFresh st).
  { apply run_idsFresh. split; constructor. }
  destruct Hfresh as [Hnd _]. split; [exact Hnd|].
  destruct (in_split p _ Hin) as (before & after & Heq).
  exists before, after. split; [exact Heq|].
  rewrite Heq, map_app in Hnd. cbn [map] in Hnd.
  apply NoDup_remove_2 in Hnd.
  assert (Hb : ~ In (Prompts.promptId p) (map Prompts.promptId before))
    by (intros H; apply Hnd; apply in_or_app; left; exact H).
  assert (Ha : ~ In (Prompts.promptId p) (map Prompts.promptId after))
    by (intros H; apply Hnd; apply in_or_app; right; exact H).
  unfold Prompts.handlePromptRemoved, Prompts.handlePromptChanged.
  cbn [Prompts.prompts]. rewrite Heq. split.
  - rewrite filter_app. cbn [filter]. rewrite Nat.eqb_refl. cbn [negb].
    rewrite !filter_other_prompts by assumption. reflexivity.
  - rewrite map_app. cbn [map]. rewrite Hid, Nat.eqb_refl.
    rewrite <- Hid in Hb, Ha.
    rewrite <- Hid, !map_other_prompts by assumption. reflexivity.
Qed.

Lemma prompt_ids_distinct_witness :
  let ops := [Prompts.Add "Minimal Techno"%string 1 (1 # 3);
              Prompts.Add "Bossa Nova"%string 1 (1 # 2);
              Prompts.Remove 0] in
  map Prompts.promptId (Prompts.prompts (fold_left Prompts.apply ops Prompts.initial))
  = [1%nat] /\
  NoDup (map Prompts.promptId
           (Prompts.prompts (fold_left Prompts.apply ops Prompts.initial))).
Proof.
  cbv zeta. split; [vm_compute; reflexivity|].
  assert (Hin : In (Prompts.mkPrompt 1 (Some "#ffdd28"%string) "Bossa Nova"%string 1)
                  (Prompts.prompts
                     (fold_left Prompts.apply
                        [Prompts.Add "Minimal Techno"%string 1 (1 # 3);
                         Prompts.Add "Bossa Nova"%string 1 (1 # 2);
                         Prompts.Remove 0] Prompts.initial))).
  { vm_compute. left. reflexivity. }
  exact (proj1 (prompt_ids_distinct _ _ _ Hin eq_refl)).
Defined.

(** X14.  [getUnusedRandomColor] always returns one of the eight colours,
    and one that is not in use whenever some colour is not in use.  So a
    prompt added while fewer than eight prompts exist gets a colour that no
    other prompt has. *)
Theorem new_prompt_color_unused (newText : String.string) (newWeight r : Q)
    (st : Prompts.State) :
  0 <= r -> r < 1 ->
  exists c,
    Prompts.getUnusedRandomColor (map Prompts.color (Prompts.prompts st)) r = Some c /\
    In c Prompts.COLORS /\
    Prompts.prompts (Prompts.addPrompt newText newWeight r st)
    = Prompts.prompts st
        ++ [Prompts.mkPrompt (Prompts.nextPromptId st) (Some c) newText newWeight] /\
    ((length (Prompts.prompts st) < 8)%nat ->
     forall p, In p (Prompts.prompts st) -> Prompts.color p <> Some c).
Proof.
  intros Hlo Hhi.
  destruct (getUnusedRandomColor_spec (map Prompts.color (Prompts.prompts st)) r
              Hlo Hhi) as (c & Hc & Hin & Hunused).
  exists c. split; [exact Hc|]. split; [exact Hin|]. split.
  - unfold Prompts.addPrompt. cbn [Prompts.prompts]. rewrite Hc. reflexivity.
  - intros Hlen p Hp Hcol. apply Hunused.
    + apply some_color_unused. rewrite length_map. exact Hlen.
    + rewrite <- Hcol. apply in_map. exact Hp.
Qed.

Lemma new_prompt_color_unused_witness :
  exists c,
    Prompts.getUnusedRandomColor [Some "#9900ff"%string] (99 # 100) = Some c /\
    c <> "#9900ff"%string.
Proof.
  destruct (new_prompt_color_unused "x"%string 1 (99 # 100)
              (Prompts.mkState
                 [Prompts.mkPrompt 0 (Some "#9900ff"%string) "a"%string 1] 1))
    as (c & Hc & _ & _ & Hfresh); [lra | lra |].
  exists c. split; [exact Hc|].
  intros ->. apply (Hfresh ltac:(cbn; lia)
                      (Prompts.mkPrompt 0 (Some "#9900ff"%string) "a"%string 1)).
  - left. reflexivity.
  - reflexivity.
Defined.

(** ** Input handlers *)

Lemma clamp_range (lo hi v : Q) :
  lo <= hi ->
  lo <= Qmax lo (Qmin hi v) <= hi /\
  (lo <= v <= hi -> Qmax lo (Qmin hi v) == v) /\
  (v < lo -> Qmax lo (Qmin hi v) == lo) /\
  (hi < v -> Qmax lo (Qmin hi v) == hi).
Proof.
  intros Hlh.
  destruct (Q.max_spec lo (Qmin hi v)) as [[H1 E1] | [H1 E1]];
    destruct (Q.min_spec hi v) as [[H2 E2] | [H2 E2]];
    rewrite ?E1, ?E2 in *; repeat split; intros; try lra.
Qed.

(** X15.  A number typed into the weight field of a prompt is clamped to the
    range of the field ([min] and [max], 0 and 2 when those are absent or
    0): the weight stored lies in the range, it is the number typed when
    that lies in the range, and the text of the field is rewritten exactly
    when it does not. *)
Theorem weight_input_clamped (target : Inputs.Target) (weight newWeight : Q) :
  Inputs.parsedFloat target = Some newWeight ->
  Inputs.orElse (Inputs.minAttr target) 0 <= Inputs.orElse (Inputs.maxAttr target) 2 ->
  let min := Inputs.orElse (Inputs.minAttr target) 0 in
  let max := Inputs.orElse (Inputs.maxAttr target) 2 in
  let stored := fst (Inputs.setWeightFromInput target weight) in
  let rewritten := snd (Inputs.setWeightFromInput target weight) in
  min <= stored <= max /\
  (min <= newWeight <= max -> stored == newWeight /\ rewritten = None) /\
  (newWeight < min -> stored == min /\ rewritten = Some stored) /\
  (max < newWeight -> stored == max /\ rewritten = Some stored).
Proof.
  intros Hparsed Hrange min max stored rewritten.
  subst stored rewritten. unfold Inputs.setWeightFromInput.
  rewrite Hparsed. cbn [fst snd]. fold min max.
  destruct (clamp_range min max newWeight Hrange) as (Hin & Hmid & Hlow & Hhigh).
  split; [exact Hin|]. split; [|split].
  - intros Hv. specialize (Hmid Hv). split; [exact Hmid|].
    apply Qeq_bool_iff in Hmid. rewrite Hmid. reflexivity.
  - intros Hv. specialize (Hlow Hv). split; [exact Hlow|].
    destruct (Qeq_bool (Qmax min (Qmin max newWeight)) newWeight) eqn:E;
      [|reflexivity].
    apply Qeq_bool_iff in E. lra.
  - intros Hv. specialize (Hhigh Hv). split; [exact Hhigh|].
    destruct (Qeq_bool (Qmax min (Qmin max newWeight)) newWeight) eqn:E;
      [|reflexivity].
    apply Qeq_bool_iff in E. lra.
Qed.

Lemma weight_input_clamped_witness :
  fst (Inputs.setWeightFromInput
         (Inputs.mkTarget (Some 5) (Some 5) false false (Some 0) (Some 2)) 1) == 2.
Proof.
  apply (weight_input_clamped
           (Inputs.mkTarget (Some 5) (Some 5) false false (Some 0) (Some 2)) 1 5
           eq_refl).
  - vm_compute. discriminate.
  - vm_compute. reflexivity.
Defined.

(** X16.  A range or number input of the settings panel stores, under its
    own key, either [undefined] (empty or not a number) or a number within
    the [min] and [max] of the input; every other setting keeps its value.
    The same holds for the other settings when an [auto] box is toggled. *)
Theorem setting_input_clamped (key : String.string) (kind : Inputs.Kind)
    (checked isChecked : bool) (raw : String.string) (target : Inputs.Target)
    (config : Inputs.Config) (min max : Q) :
  kind = Inputs.Range \/ kind = Inputs.NumberField ->
  Inputs.minAttr target = Some min ->
  Inputs.maxAttr target = Some max ->
  min <= max ->
  let config' := Inputs.setConfigFromInput key kind checked raw target config in
  (config' key = Inputs.Undefined /\
   (Inputs.empty target = true \/ Inputs.asNumber target = None)
   \/
   exists numValue clampedValue,
     Inputs.empty target = false /\
     Inputs.asNumber target = Some numValue /\
     config' key = Inputs.Number (Some clampedValue) /\
     min <= clampedValue <= max /\
     (min <= numValue <= max -> clampedValue == numValue)) /\
  (forall other, other <> key ->
     config' other = config other /\
     Inputs.handleAutoChange key isChecked config other = config other).
Proof.
  intros Hkind Hmin Hmax Hrange config'. subst config'.
  unfold Inputs.setConfigFromInput, Inputs.handleAutoChange, Inputs.withKey.
  split.
  - rewrite String.eqb_refl. unfold Inputs.configValue.
    destruct Hkind as [-> | ->];
      (destruct (Inputs.empty target); [left; split; [reflexivity | left; reflexivity]|];
       destruct (Inputs.asNumber target) as [numValue|];
       [|left; split; [reflexivity | right; reflexivity]];
       right; exists numValue, (Qmax min (Qmin max numValue));
       rewrite Hmin, Hmax; cbn [Inputs.mathMax Inputs.mathMin];
       destruct (clamp_range min max numValue Hrange) as (Hin & Hmid & _);
       repeat split; solve [reflexivity | apply Hin | exact Hmid]).
  - intros other Hother. apply String.eqb_neq in Hother.
    destruct isChecked; rewrite Hother; split; reflexivity.
Qed.

Lemma setting_input_clamped_witness :
  Inputs.setConfigFromInput "temperature"%string Inputs.Range false "9"%string
    (Inputs.mkTarget (Some 9) (Some 9) false false (Some 0) (Some 3))
    (fun _ => Inputs.Undefined) "guidance"%string
  = Inputs.Undefined.
Proof.
  apply (setting_input_clamped "temperature"%string Inputs.Range false false
           "9"%string
           (Inputs.mkTarget (Some 9) (Some 9) false false (Some 0) (Some 3))
           (fun _ => Inputs.Undefined) 0 3
           (or_introl eq_refl) eq_refl eq_refl).
  - vm_compute. discriminate.
  - discriminate.
Defined.

(** X17.  The weight slider maps the position of the pointer on a track of
    positive height to a value between 0 and 2: 2 at the top of the track
    and above it, 0 at the bottom and below it, [(1 - y / height) * 2] for a
    pointer [y] below the top of the track and on it, and never larger for a
    lower pointer.  A track of height 0 gives no number. *)
Theorem slider_value_range (trackHeight relativeY lowerY : Q) :
  0 < trackHeight ->
  relativeY <= lowerY ->
  exists value lowerValue,
    Inputs.updateValueFromPosition trackHeight relativeY = Some value /\
    Inputs.updateValueFromPosition trackHeight lowerY = Some lowerValue /\
    0 <= value <= 2 /\
    lowerValue <= value /\
    (relativeY <= 0 -> value == 2) /\
    (trackHeight <= relativeY -> value == 0) /\
    (0 <= relativeY <= trackHeight ->
     value == (1 - relativeY / trackHeight) * 2) /\
    Inputs.updateValueFromPosition 0 relativeY = None.
Proof.
  intros Hpos Hle. unfold Inputs.updateValueFromPosition.
  destruct (Qeq_bool trackHeight 0) eqn:E;
    [apply Qeq_bool_iff in E; lra|].
  eexists. eexists. split; [reflexivity|]. split; [reflexivity|].
  assert (Hclamp : forall y,
             0 <= Qmax 0 (Qmin trackHeight y) <= trackHeight /\
             (0 <= y <= trackHeight -> Qmax 0 (Qmin trackHeight y) == y) /\
             (y < 0 -> Qmax 0 (Qmin trackHeight y) == 0) /\
             (trackHeight < y -> Qmax 0 (Qmin trackHeight y) == trackHeight))
    by (intros y; apply clamp_range; lra).
  assert (Hmono : Qmax 0 (Qmin trackHeight relativeY)
                  <= Qmax 0 (Qmin trackHeight lowerY)).
  { apply Q.max_le_compat_l. apply Q.min_le_compat_l. exact Hle. }
  assert (Hdiv : forall x y, x <= y -> x / trackHeight <= y / trackHeight).
  { intros x y Hxy. unfold Qdiv. apply Qmult_le_compat_r; [exact Hxy|].
    apply Qlt_le_weak. apply Qinv_lt_0_compat. exact Hpos. }
  assert (H0 : 0 / trackHeight == 0) by (field; lra).
  assert (H1 : trackHeight / trackHeight == 1) by (field; lra).
  destruct (Hclamp relativeY) as (Hin & Hmid & Hlow & Hhigh).
  pose proof (Hdiv _ _ (proj1 Hin)) as Hd0.
  pose proof (Hdiv _ _ (proj2 Hin)) as Hd1.
  pose proof (Hdiv _ _ Hmono) as Hdm.
  rewrite H0 in Hd0. rewrite H1 in Hd1.
  split; [lra|]. split; [lra|]. split; [|split; [|split]].
  - intros Hy. destruct (Qlt_le_dec relativeY 0) as [Hlt | Hge].
    + rewrite (Hlow Hlt), H0. lra.
    + rewrite Hmid by lra. assert (relativeY == 0) as -> by lra.
      rewrite H0. lra.
  - intros Hy. destruct (Qlt_le_dec trackHeight relativeY) as [Hlt | Hge].
    + rewrite (Hhigh Hlt), H1. lra.
    + rewrite Hmid by lra. assert (relativeY == trackHeight) as -> by lra.
      rewrite H1. lra.
  - intros Hy. rewrite (Hmid Hy). reflexivity.
  - reflexivity.
Qed.

Lemma slider_value_range_witness :
  exists value lowerValue,
    Inputs.updateValueFromPosition 100 25 = Some value /\
    Inputs.updateValueFromPosition 100 50 = Some lowerValue /\
    lowerValue <= value.
Proof.
  destruct (slider_value_range 100 25 50) as (value & lowerValue & Hv & Hl & _ & Hle & _);
    [lra | lra |].
  exists value, lowerValue. repeat split; assumption.
Defined.

(** ** The duration display *)

Lemma Qfloor_unique (x : Q) (k : Z) :
  inject_Z k <= x -> x < inject_Z (k + 1) -> Qfloor x = k.
Proof.
  intros Hlo Hhi.
  pose proof (Qfloor_le x) as Hfl. pose proof (Qlt_floor x) as Hfh.
  assert (H1 : (k < Qfloor x + 1)%Z)
    by (rewrite Zlt_Qlt; eapply Qle_lt_trans; eassumption).
  assert (H2 : (Qfloor x < k + 1)%Z)
    by (rewrite Zlt_Qlt; eapply Qle_lt_trans; eassumption).
  lia.
Qed.

Lemma Qfloor_minutes (seconds : Q) :
  0 <= seconds ->
  Qfloor (seconds / 60) = (Qfloor seconds / 60)%Z /\
  Qfloor (Display.remainder seconds 60) = (Qfloor seconds mod 60)%Z.
Proof.
  intros Hpos.
  pose proof (Qfloor_le seconds) as Hfl. pose proof (Qlt_floor seconds) as Hfh.
  pose proof (Z.div_mod (Qfloor seconds) 60 ltac:(lia)) as Hdm.
  pose proof (Z.mod_pos_bound (Qfloor seconds) 60 ltac:(lia)) as Hmod.
  set (whole := Qfloor seconds) in *.
  set (k := (whole / 60)%Z) in *. set (m := (whole mod 60)%Z) in *.
  assert (Hw : inject_Z whole == 60 * inject_Z k + inject_Z m).
  { rewrite Hdm, inject_Z_plus, inject_Z_mult. reflexivity. }
  assert (Hm0 : 0 <= inject_Z m)
    by (change 0 with (inject_Z 0); rewrite <- Zle_Qle; lia).
  assert (Hm1 : inject_Z m <= 59)
    by (change 59 with (inject_Z 59); rewrite <- Zle_Qle; lia).
  rewrite inject_Z_plus in Hfh. change (inject_Z 1) with 1 in Hfh.
  assert (Hk : Qfloor (seconds / 60) = k).
  { apply Qfloor_unique.
    - apply Qle_shift_div_l; lra.
    - rewrite inject_Z_plus. change (inject_Z 1) with 1.
      apply Qlt_shift_div_r; lra. }
  split; [exact Hk|].
  unfold Display.remainder.
  replace (Qlt_bool (seconds / 60) 0) with false.
  - rewrite Hk. apply Qfloor_unique.
    + lra.
    + rewrite inject_Z_plus. change (inject_Z 1) with 1. lra.
  - symmetry. apply Qlt_bool_false_iff. apply Qle_shift_div_l; lra.
Qed.

Lemma two_digits (n : nat) :
  (n < 100)%nat ->
  String.length (Display.padStart2 (Display.stringOfInteger (Z.of_nat n))) = 2%nat /\
  option_map Z.of_uint
    (DecimalString.NilZero.uint_of_string
       (Display.padStart2 (Display.stringOfInteger (Z.of_nat n))))
  = Some (Z.of_nat n).
Proof.
  intros Hn.
  do 100 (destruct n as [|n]; [vm_compute; split; reflexivity|]).
  lia.
Qed.

(** X18.  A duration of at least 0 and less than 6000 seconds is displayed
    as [MM:SS]: two digits that read as the whole minutes, a colon, and two
    digits that read as the whole seconds of the last minute.  Fractions of
    a second are dropped. *)
Theorem format_duration_minutes_seconds (seconds : Q) :
  0 <= seconds -> seconds < 6000 ->
  exists mm ss,
    Display.formatDuration seconds = String.append mm (String.append ":"%string ss) /\
    String.length mm = 2%nat /\
    String.length ss = 2%nat /\
    option_map Z.of_uint (DecimalString.NilZero.uint_of_string mm)
    = Some (Qfloor seconds / 60)%Z /\
    option_map Z.of_uint (DecimalString.NilZero.uint_of_string ss)
    = Some (Qfloor seconds mod 60)%Z.
Proof.
  intros Hlo Hhi.
  destruct (Qfloor_minutes seconds Hlo) as [Hmin Hsec].
  pose proof (Qfloor_le seconds) as Hfl.
  assert (Hw0 : (0 <= Qfloor seconds)%Z)
    by (change 0%Z with (Qfloor 0); apply Qfloor_resp_le; exact Hlo).
  assert (Hw1 : (Qfloor seconds < 6000)%Z).
  { rewrite Zlt_Qlt. eapply Qle_lt_trans; [exact Hfl|]. exact Hhi. }
  pose proof (Z.mod_pos_bound (Qfloor seconds) 60 ltac:(lia)) as Hmod.
  assert (Hdiv0 : (0 <= Qfloor seconds / 60)%Z) by (apply Z.div_pos; lia).
  assert (Hdiv1 : (Qfloor seconds / 60 < 100)%Z)
    by (apply Z.div_lt_upper_bound; lia).
  unfold Display.formatDuration. rewrite Hmin, Hsec.
  destruct (two_digits (Z.to_nat (Qfloor seconds / 60)) ltac:(lia)) as [Hl1 Hr1].
  destruct (two_digits (Z.to_nat (Qfloor seconds mod 60)) ltac:(lia)) as [Hl2 Hr2].
  rewrite Z2Nat.id in Hl1, Hr1, Hl2, Hr2 by lia.
  eexists. eexists. split; [reflexivity|].
  repeat split; assumption.
Qed.

Lemma format_duration_minutes_seconds_witness :
  Display.formatDuration (755 # 10) = "01:15"%string /\
  exists mm ss,
    Display.formatDuration (755 # 10)
    = String.append mm (String.append ":"%string ss) /\
    String.length mm = 2%nat.
Proof.
  split; [vm_compute; reflexivity|].
  destruct (format_duration_minutes_seconds (755 # 10)) as (mm & ss & H & Hl & _);
    [lra | lra |].
  exists mm, ss. split; assumption.
Defined.

(** ** The MP3 export *)

Section Mp3Facts.

Import Mp3.
Local Open Scope nat_scope.

Lemma samples_spec (n : nat) (bytes : list Z) :
  length bytes <= n ->
  (Nat.even (length bytes) = false -> samples bytes = None) /\
  (Nat.even (length bytes) = true ->
   exists pcm,
     samples bytes = Some pcm /\
     length bytes = 2 * length pcm /\
     forall j lo hi,
       nth_error bytes (2 * j) = Some lo ->
       nth_error bytes (2 * j + 1) = Some hi ->
       nth_error pcm j = Some (int16 lo hi)).
Proof.
  revert bytes. induction n as [|n IH]; intros bytes Hlen.
  - destruct bytes; [|cbn in Hlen; lia]. split; [discriminate|].
    intros _. exists []. split; [reflexivity|]. split; [reflexivity|].
    intros j lo hi H. destruct j; discriminate.
  - destruct bytes as [|lo [|hi rest]].
    + split; [discriminate|].
      intros _. exists []. split; [reflexivity|]. split; [reflexivity|].
      intros j lo hi H. destruct j; discriminate.
    + split; [reflexivity | discriminate].
    + cbn [length] in Hlen. destruct (IH rest ltac:(lia)) as [Hodd Heven].
      change (Nat.even (length (lo :: hi :: rest))) with (Nat.even (length rest)).
      cbn [samples]. split.
      * intros H. rewrite (Hodd H). reflexivity.
      * intros H. destruct (Heven H) as (pcm & Hs & Hl & Hnth).
        exists (int16 lo hi :: pcm). rewrite Hs.
        split; [reflexivity|]. split; [cbn [length]; lia|].
        intros j lo' hi' Hlo Hhi. destruct j as [|j].
        -- cbn in Hlo, Hhi. injection Hlo as <-. injection Hhi as <-. reflexivity.
        -- replace (2 * S j) with (S (S (2 * j))) in Hlo by lia.
           replace (2 * S j + 1) with (S (S (2 * j + 1))) in Hhi by lia.
           cbn [nth_error] in *. apply Hnth; assumption.
Qed.

Lemma store_length (i : nat) (v : option Z) (arr : list Z) :
  length (store i v arr) = length arr.
Proof.
  revert i. induction arr as [|x arr IH]; intros [|i]; cbn [store length];
    try reflexivity.
  rewrite IH. reflexivity.
Qed.

Lemma store_other (i k : nat) (v : option Z) (arr : list Z) :
  k <> i -> nth_error (store i v arr) k = nth_error arr k.
Proof.
  revert i k. induction arr as [|x arr IH]; intros [|i] [|k] Hk;
    cbn [store nth_error]; try reflexivity; try lia.
  apply IH. lia.
Qed.

Lemma store_same (i : nat) (x : Z) (arr : list Z) :
  i < length arr -> nth_error (store i (Some x) arr) i = Some x.
Proof.
  revert i. induction arr as [|y arr IH]; intros [|i] Hi;
    cbn [store nth_error length] in *; try lia; try reflexivity.
  apply IH. lia.
Qed.

Lemma deinterleave_spec (fuel i : nat) (pcm left right : list Z) :
  length left = length pcm / 2 ->
  length right = length pcm / 2 ->
  length pcm <= fuel + 2 * i ->
  length (fst (deinterleave fuel i pcm left right)) = length pcm / 2 /\
  length (snd (deinterleave fuel i pcm left right)) = length pcm / 2 /\
  forall k, k < length pcm / 2 ->
    (k < i ->
     nth_error (fst (deinterleave fuel i pcm left right)) k = nth_error left k /\
     nth_error (snd (deinterleave fuel i pcm left right)) k = nth_error right k) /\
    (i <= k ->
     nth_error (fst (deinterleave fuel i pcm left right)) k = nth_error pcm (2 * k) /\
     nth_error (snd (deinterleave fuel i pcm left right)) k
     = nth_error pcm (2 * k + 1)).
Proof.
  pose proof (Nat.div_mod_eq (length pcm) 2) as Hdm.
  pose proof (Nat.mod_upper_bound (length pcm) 2 ltac:(lia)) as Hmod.
  revert i left right. induction fuel as [|fuel IH]; intros i left right Hl Hr Hfuel.
  - cbn [deinterleave fst snd]. split; [exact Hl|]. split; [exact Hr|].
    intros k Hk. split; [intros _; split; reflexivity | intros Hik; lia].
  - cbn [deinterleave]. destruct (2 * i <? length pcm) eqn:Htest.
    + apply Nat.ltb_lt in Htest.
      destruct (IH (S i) (store i (nth_error pcm (i * 2)) left)
                  (store i (nth_error pcm (i * 2 + 1)) right)) as (Hl' & Hr' & Hnth).
      { rewrite store_length. exact Hl. }
      { rewrite store_length. exact Hr. }
      { lia. }
      split; [exact Hl'|]. split; [exact Hr'|].
      intros k Hk. destruct (Hnth k Hk) as [Hbefore Hafter]. split.
      * intros Hki. destruct (Hbefore ltac:(lia)) as [H1 H2].
        rewrite H1, H2, !store_other by lia. split; reflexivity.
      * intros Hik. destruct (Nat.eq_dec k i) as [-> | Hne].
        -- destruct (Hbefore ltac:(lia)) as [H1 H2]. rewrite H1, H2.
           replace (i * 2) with (2 * i) by lia.
           destruct (nth_error pcm (2 * i)) as [x|] eqn:Ex;
             [|apply nth_error_None in Ex; lia].
           destruct (nth_error pcm (2 * i + 1)) as [y|] eqn:Ey;
             [|apply nth_error_None in Ey; lia].
           rewrite !store_same by lia. split; reflexivity.
        -- apply Hafter. lia.
    + apply Nat.ltb_ge in Htest. cbn [fst snd].
      split; [exact Hl|]. split; [exact Hr|].
      intros k Hk. split; [intros _; split; reflexivity | intros Hik; lia].
Qed.

Lemma subarray_length (arr : list Z) (i blockSize : nat) :
  length (subarray arr i (i + blockSize)) = Nat.min blockSize (length arr - i).
Proof.
  unfold subarray. rewrite length_firstn, length_skipn. f_equal. lia.
Qed.

Lemma forBlocks_collect {St : Type} (blockSize fuel i : nat) (left right : list Z)
    (acc : list (list Z * list Z)) :
  forBlocks blockSize fuel i left right (fun l r acc => acc ++ [(l, r)]) acc
  = acc ++ forBlocks blockSize fuel i left right (fun l r acc => acc ++ [(l, r)]) [].
Proof.
  revert i acc. induction fuel as [|fuel IH]; intros i acc; cbn [forBlocks].
  - rewrite app_nil_r. reflexivity.
  - destruct (i <? length left); [|rewrite app_nil_r; reflexivity].
    rewrite IH. rewrite (IH _ ([] ++ _)). cbn [app]. rewrite <- app_assoc.
    reflexivity.
Qed.

Lemma forBlocks_fold {St : Type} (blockSize fuel i : nat) (left right : list Z)
    (body : list Z -> list Z -> St -> St) (st : St) :
  forBlocks blockSize fuel i left right body st
  = fold_left (fun st b => body (fst b) (snd b) st)
      (forBlocks blockSize fuel i left right (fun l r acc => acc ++ [(l, r)]) []) st.
Proof.
  revert i st. induction fuel as [|fuel IH]; intros i st; cbn [forBlocks].
  - reflexivity.
  - destruct (i <? length left); [|reflexivity].
    rewrite (forBlocks_collect (St := St)). cbn [app fold_left fst snd]. apply IH.
Qed.

Lemma forBlocks_blocks (blockSize fuel i : nat) (left right : list Z) :
  0 < blockSize ->
  length left <= fuel + i ->
  let bs := forBlocks blockSize fuel i left right (fun l r acc => acc ++ [(l, r)]) [] in
  concat (map fst bs) = skipn i left /\
  (length right = length left -> concat (map snd bs) = skipn i right) /\
  Forall (fun b => 0 < length (fst b) <= blockSize) bs /\
  blockSize * length bs < length left - i + blockSize.
Proof.
  intros Hpos. revert i. induction fuel as [|fuel IH]; intros i Hfuel; cbn zeta.
  - cbn [forBlocks map concat length].
    rewrite !skipn_all2 by lia. repeat split; try constructor; try lia.
    intros Hr. rewrite skipn_all2 by lia. reflexivity.
  - cbn [forBlocks]. destruct (i <? length left) eqn:Htest.
    + apply Nat.ltb_lt in Htest.
      rewrite (forBlocks_collect (St := unit)). cbn [app map concat fst snd length].
      destruct (IH (i + blockSize) ltac:(lia)) as (Hl & Hr & Hall & Hcount).
      cbn zeta in Hl, Hr, Hall, Hcount.
      split; [|split; [|split]].
      * rewrite Hl. unfold subarray.
        replace (i + blockSize - i) with blockSize by lia.
        rewrite Nat.add_comm, <- skipn_skipn. apply firstn_skipn.
      * intros Hlen. rewrite (Hr Hlen). unfold subarray.
        replace (i + blockSize - i) with blockSize by lia.
        rewrite Nat.add_comm, <- skipn_skipn. apply firstn_skipn.
      * constructor; [|exact Hall]. cbn [fst]. rewrite subarray_length. lia.
      * rewrite Nat.mul_succ_r.
        destruct (le_lt_dec (i + blockSize) (length left)) as [Hfits | Hlast];
          [lia|].
        destruct (length (forBlocks blockSize fuel (i + blockSize) left right
                            (fun l r acc => acc ++ [(l, r)]) [])) as [|n];
          [lia|].
        rewrite Nat.mul_succ_r in Hcount. lia.
    + apply Nat.ltb_ge in Htest. cbn [map concat length].
      rewrite !skipn_all2 by lia. repeat split; try constructor; try lia.
      intros Hr. rewrite skipn_all2 by lia. reflexivity.
Qed.

Lemma blocks_length_bound (m : nat) (bs : list (list Z * list Z)) :
  Forall (fun b => 0 < length (fst b) <= m) bs ->
  length (concat (map fst bs)) <= m * length bs.
Proof.
  induction 1 as [|b bs Hb Hbs IH]; cbn [map concat length]; [lia|].
  rewrite length_app, Nat.mul_succ_r. lia.
Qed.

Lemma encodeBlock_nonempty (Encoder : Type)
    (encodeBuffer : Encoder -> list Z -> list Z -> String.string + Encoder * list Z)
    (bs : list (list Z * list Z)) (st : String.string + Encoder * list (list Z)) :
  match st with
  | inl _ => True
  | inr (_, mp3Data) => Forall (fun buf => 0 < length buf) mp3Data
  end ->
  match fold_left (fun st b => encodeBlock Encoder encodeBuffer (fst b) (snd b) st)
          bs st with
  | inl _ => True
  | inr (_, mp3Data) => Forall (fun buf => 0 < length buf) mp3Data
  end.
Proof.
  revert st. induction bs as [|b bs IH]; intros st Hst; [exact Hst|].
  cbn [fold_left]. apply IH. unfold encodeBlock.
  destruct st as [err | [enc mp3Data]]; [exact I|].
  destruct (encodeBuffer enc (fst b) (snd b)) as [err | [enc' mp3buf]]; [exact I|].
  destruct (0 <? length mp3buf) eqn:E; [|exact Hst].
  apply Nat.ltb_lt in E. apply Forall_app. split; [exact Hst|].
  constructor; [exact E | constructor].
Qed.

End Mp3Facts.

(** X19.  The MP3 export fails with a [RangeError] when the chunks hold an
    odd number of bytes.  Otherwise it posts to the worker two channels of
    equal length, half the number of 16-bit samples (rounded down): sample
    [k] of the left channel is sample [2k] of the data and sample [k] of the
    right channel is sample [2k+1], each sample read from two bytes, low
    byte first; the sample rate posted is that of the audio context. *)
Theorem mp3_export_deinterleaves (chunks : list Chunk) :
  chunks <> [] ->
  (Nat.even (length (concat chunks)) = false ->
   Mp3.handleDownloadMp3 chunks = Mp3.RangeError) /\
  (Nat.even (length (concat chunks)) = true ->
   exists pcm left right,
     Mp3.samples (concat chunks) = Some pcm /\
     Mp3.handleDownloadMp3 chunks = Mp3.Posted left right Wav.contextSampleRate /\
     length (concat chunks) = (2 * length pcm)%nat /\
     length left = (length pcm / 2)%nat /\
     length right = (length pcm / 2)%nat /\
     (forall j lo hi,
        nth_error (concat chunks) (2 * j) = Some lo ->
        nth_error (concat chunks) (2 * j + 1) = Some hi ->
        nth_error pcm j = Some (Mp3.int16 lo hi)) /\
     (forall k, (k < length pcm / 2)%nat ->
        nth_error left k = nth_error pcm (2 * k) /\
        nth_error right k = nth_error pcm (2 * k + 1))).
Proof.
  intros Hne.
  assert (Hcopy : fold_left Wav.copyChunk chunks
                    (Some (Wav.newBytes
                             (fold_left (fun acc chunk => (acc + length chunk)%nat)
                                chunks O), O))
                  = Some (concat chunks, length (concat chunks))).
  { rewrite totalLength_concat. cbn [Nat.add].
    exact (copyLoop_concat chunks [] (Wav.newBytes (length (concat chunks)))
             (repeat_length 0%Z _)). }
  destruct (samples_spec (length (concat chunks)) (concat chunks) (le_n _))
    as [Hodd Heven].
  destruct chunks as [|c chunks]; [congruence|].
  unfold Mp3.handleDownloadMp3. rewrite Hcopy. cbn [fst].
  split.
  - intros H. rewrite (Hodd H). reflexivity.
  - intros H. destruct (Heven H) as (pcm & Hs & Hl & Hnth). rewrite Hs.
    destruct (deinterleave_spec (length pcm) 0 pcm
                (repeat 0%Z (length pcm / 2)) (repeat 0%Z (length pcm / 2)))
      as (Hll & Hlr & Hk); try apply repeat_length; try lia.
    destruct (Mp3.deinterleave (length pcm) 0 pcm
                (repeat 0%Z (length pcm / 2)) (repeat 0%Z (length pcm / 2)))
      as [left right].
    cbn [fst snd] in *. exists pcm, left, right.
    repeat split; try assumption; try reflexivity; apply (Hk k); (assumption || lia).
Qed.

Lemma mp3_export_deinterleaves_witness :
  Mp3.handleDownloadMp3 [[1; 0; 2]; [0; 255; 255; 4; 0]]%Z
  = Mp3.Posted [1; -1]%Z [2; 4]%Z 48000 /\
  Mp3.handleDownloadMp3 [[1; 0; 2]]%Z = Mp3.RangeError.
Proof.
  split; [vm_compute; reflexivity|].
  apply (mp3_export_deinterleaves [[1; 0; 2]]%Z); [discriminate | reflexivity].
Defined.

(** X20.  The worker feeds the encoder the two channels block by block, in
    order: the left blocks put together are the left channel (and so for the
    right channel, of the same length), every block has between 1 and 1152
    samples, there are as many blocks as 1152 goes into the length, rounded
    up, and the work done is the body of the loop folded over these blocks.
    MP3 data is posted only when [lamejs] is the library, and every piece
    of it is non-empty; when the global [lamejs] does not exist the handler
    throws before it posts anything. *)
Theorem worker_encodes_in_blocks (Encoder : Type)
    (newEncoder : Z -> Z -> Z -> String.string + Encoder)
    (encodeBuffer : Encoder -> list Z -> list Z -> String.string + Encoder * list Z)
    (flush : Encoder -> String.string + list Z)
    (left right : list Z) (sampleRate : Z) :
  length right = length left ->
  let bs := Mp3.blocks 1152 left right in
  concat (map fst bs) = left /\
  concat (map snd bs) = right /\
  Forall (fun b => (0 < length (fst b) <= 1152)%nat) bs /\
  (length left <= 1152 * length bs < length left + 1152)%nat /\
  (forall st,
     Mp3.forBlocks 1152 (length left) O left right
       (Mp3.encodeBlock Encoder encodeBuffer) st
     = fold_left (fun st b => Mp3.encodeBlock Encoder encodeBuffer (fst b) (snd b) st)
         bs st) /\
  (forall lamejs mp3Data,
     Mp3.onmessage Encoder newEncoder encodeBuffer flush lamejs left right sampleRate
     = Mp3.Encoded mp3Data ->
     lamejs = Mp3.Library /\ Forall (fun buf => (0 < length buf)%nat) mp3Data) /\
  Mp3.onmessage Encoder newEncoder encodeBuffer flush Mp3.Missing left right sampleRate
  = Mp3.Uncaught.
Proof.
  intros Hlen bs.
  destruct (forBlocks_blocks 1152 (length left) 0 left right ltac:(lia) ltac:(lia))
    as (Hl & Hr & Hall & Hcount).
  cbn zeta in Hl, Hr, Hall, Hcount. fold (Mp3.blocks 1152 left right) in Hl, Hr, Hall, Hcount.
  fold bs in Hl, Hr, Hall, Hcount. cbn [skipn] in Hl, Hr.
  split; [exact Hl|]. split; [exact (Hr Hlen)|]. split; [exact Hall|].
  split; [|split; [|split]].
  - pose proof (blocks_length_bound 1152 bs Hall) as Hb. rewrite Hl in Hb. lia.
  - intros st. subst bs. unfold Mp3.blocks. apply forBlocks_fold.
  - intros lamejs mp3Data. unfold Mp3.onmessage.
    destruct lamejs; try discriminate.
    destruct (newEncoder 2 sampleRate 128)%Z as [err | enc]; [discriminate|].
    rewrite forBlocks_fold.
    pose proof (encodeBlock_nonempty Encoder encodeBuffer
                  (Mp3.forBlocks 1152 (length left) 0 left right
                     (fun l r acc => acc ++ [(l, r)]) [])
                  (inr (enc, [])) (Forall_nil _)) as Hinv.
    destruct (fold_left _ _ _) as [err | [enc' data]]; [discriminate|].
    destruct (flush enc') as [err | mp3buf]; [discriminate|].
    intros Heq. injection Heq as <-. split; [reflexivity|].
    destruct (0 <? length mp3buf)%nat eqn:E; [|exact Hinv].
    apply Nat.ltb_lt in E. apply Forall_app. split; [exact Hinv|].
    constructor; [exact E | constructor].
  - reflexivity.
Qed.

Lemma worker_encodes_in_blocks_witness :
  Mp3.onmessage unit (fun _ _ _ => inr tt) (fun _ l _ => inr (tt, l))
    (fun _ => inr []) Mp3.Library (repeat 7%Z 1200) (repeat 8%Z 1200) 48000
  = Mp3.Encoded [repeat 7%Z 1152; repeat 7%Z 48] /\
  map (fun b => length (fst b)) (Mp3.blocks 1152 (repeat 7%Z 1200) (repeat 8%Z 1200))
  = [1152; 48]%nat /\
  concat (map fst (Mp3.blocks 1152 (repeat 7%Z 1200) (repeat 8%Z 1200)))
  = repeat 7%Z 1200.
Proof.
  split; [vm_compute; reflexivity|]. split; [vm_compute; reflexivity|].
  apply (worker_encodes_in_blocks unit (fun _ _ _ => inr tt)
           (fun _ l _ => inr (tt, l)) (fun _ => inr [])
           (repeat 7%Z 1200) (repeat 8%Z 1200) 48000).
  rewrite !repeat_length. reflexivity.
Defined.

(** ** The overlay scrollbar *)

(** X21.  When the content overflows its box, the thumb has a height
    between 0 and the height of the track and a position between 0 and the
    height of the track; it is at the top when the content is scrolled to
    its start, and it is never higher up for content scrolled further down.
    Without overflow the thumb has height 0 and keeps its position. *)
Theorem thumb_within_track (scrollTop further scrollHeight clientHeight : Q)
    (st : Scrollbar.Thumb) :
  0 < clientHeight ->
  0 <= scrollTop ->
  scrollTop <= further ->
  let thumb := Scrollbar.updateScrollbar scrollTop scrollHeight clientHeight st in
  (clientHeight < scrollHeight -> further <= scrollHeight - clientHeight ->
   Scrollbar.hasOverflow thumb = true /\
   0 <= Scrollbar.thumbHeight thumb <= clientHeight /\
   0 <= Scrollbar.thumbTop thumb <= clientHeight /\
   (scrollTop == 0 -> Scrollbar.thumbTop thumb == 0) /\
   Scrollbar.thumbTop thumb
   <= Scrollbar.thumbTop
        (Scrollbar.updateScrollbar further scrollHeight clientHeight st)) /\
  (scrollHeight <= clientHeight ->
   thumb = Scrollbar.mkThumb 0 (Scrollbar.thumbTop st) false).
Proof.
  intros Hch Hst Hfurther thumb. subst thumb. unfold Scrollbar.updateScrollbar.
  split.
  - intros Hover Hmax.
    replace (Qlt_bool clientHeight scrollHeight) with true
      by (symmetry; apply Qlt_bool_iff; exact Hover).
    cbn [Scrollbar.hasOverflow Scrollbar.thumbHeight Scrollbar.thumbTop].
    assert (Hsh : 0 < scrollHeight) by lra.
    assert (Hdiv : forall x y, x <= y -> x / scrollHeight <= y / scrollHeight).
    { intros x y Hxy. unfold Qdiv. apply Qmult_le_compat_r; [exact Hxy|].
      apply Qlt_le_weak. apply Qinv_lt_0_compat. exact Hsh. }
    assert (H0 : 0 / scrollHeight == 0) by (field; lra).
    assert (H1 : scrollHeight / scrollHeight == 1) by (field; lra).
    assert (Hscale : forall x y, x <= y -> x * clientHeight <= y * clientHeight)
      by (intros x y Hxy; apply Qmult_le_compat_r; lra).
    pose proof (Hdiv 0 clientHeight ltac:(lra)) as Hr0.
    pose proof (Hdiv clientHeight scrollHeight ltac:(lra)) as Hr1.
    pose proof (Hdiv 0 scrollTop Hst) as Ht0.
    pose proof (Hdiv scrollTop scrollHeight ltac:(lra)) as Ht1.
    rewrite H0 in Hr0, Ht0. rewrite H1 in Hr1, Ht1.
    pose proof (Hscale _ _ Hr0) as Ha. pose proof (Hscale _ _ Hr1) as Hb.
    pose proof (Hscale _ _ Ht0) as Hc. pose proof (Hscale _ _ Ht1) as Hd.
    split; [reflexivity|]. split; [lra|]. split; [lra|]. split.
    + intros ->. rewrite H0. lra.
    + apply Hscale. apply Hdiv. exact Hfurther.
  - intros Hfit.
    replace (Qlt_bool clientHeight scrollHeight) with false
      by (symmetry; apply Qlt_bool_false_iff; exact Hfit).
    reflexivity.
Qed.

Lemma thumb_within_track_witness :
  Scrollbar.thumbTop
    (Scrollbar.updateScrollbar 100 400 100 (Scrollbar.mkThumb 0 0 false))
  <= Scrollbar.thumbTop
       (Scrollbar.updateScrollbar 300 400 100 (Scrollbar.mkThumb 0 0 false)).
Proof.
  apply (thumb_within_track 100 300 400 100 (Scrollbar.mkThumb 0 0 false));
    lra.
Defined.

(** ** Prompts: weight field, reordering, export and import *)

Section PromptListFacts.

Import Prompts.

Lemma prompt_split (st : State) (p : Prompt) :
  idsFresh st -> In p (prompts st) ->
  exists before after,
    prompts st = before ++ p :: after /\
    ~ In (promptId p) (map promptId before) /\
    ~ In (promptId p) (map promptId after).
Proof.
  intros [Hnd _] Hin. destruct (in_split p _ Hin) as (before & after & Heq).
  exists before, after. split; [exact Heq|].
  rewrite Heq, map_app in Hnd. cbn [map] in Hnd. apply NoDup_remove_2 in Hnd.
  split; intros H; apply Hnd; apply in_or_app; [left | right]; exact H.
Qed.

Lemma map_other_ids (id : nat) (changed : Prompt) (l : list Prompt) :
  ~ In id (map promptId l) ->
  map (fun p => if Nat.eqb (promptId p) id then changed else p) l = l.
Proof.
  induction l as [|x l IH]; intros Hnotin; [reflexivity|].
  cbn [map] in *.
  destruct (Nat.eqb (promptId x) id) eqn:E.
  - apply Nat.eqb_eq in E. exfalso. apply Hnotin. left. exact E.
  - f_equal. apply IH. intros Hin. apply Hnotin. right. exact Hin.
Qed.

Lemma find_by_id (l : list Prompt) (p : Prompt) :
  NoDup (map promptId l) -> In p l ->
  find (fun q => Nat.eqb (promptId q) (promptId p)) l = Some p.
Proof.
  induction l as [|x l IH]; intros Hnd Hin; [destruct Hin|].
  cbn [map] in Hnd. apply NoDup_cons_iff in Hnd. destruct Hnd as [Hx Hnd].
  cbn [find]. destruct Hin as [-> | Hin].
  - rewrite Nat.eqb_refl. reflexivity.
  - destruct (Nat.eqb (promptId x) (promptId p)) eqn:E.
    + apply Nat.eqb_eq in E. exfalso. apply Hx. rewrite E.
      apply in_map. exact Hin.
    + apply IH; assumption.
Qed.

Lemma find_in (l : list Prompt) (id : nat) (p : Prompt) :
  find (fun q => Nat.eqb (promptId q) id) l = Some p ->
  In p l /\ promptId p = id.
Proof.
  intros H. apply find_some in H. destruct H as [Hin Hid].
  apply Nat.eqb_eq in Hid. split; assumption.
Qed.

Lemma importPrompts_spec (usedColors : list (option String.string))
    (random : nat -> Q) (entries : list Entry) (i id : nat) :
  snd (importPrompts usedColors random i entries id) = (id + length entries)%nat /\
  map promptId (fst (importPrompts usedColors random i entries id))
  = seq id (length entries) /\
  map text (fst (importPrompts usedColors random i entries id))
  = map (fun e => match entryText e with Some t => t | None => "New Prompt"%string end)
      entries /\
  map weight (fst (importPrompts usedColors random i entries id))
  = map (fun e => match entryWeight e with Some w => w | None => 1 end) entries /\
  map color (fst (importPrompts usedColors random i entries id))
  = map (fun k => getUnusedRandomColor usedColors (random k)) (seq i (length entries)).
Proof.
  revert i id. induction entries as [|e entries IH]; intros i id.
  - cbn. rewrite Nat.add_0_r. repeat split; reflexivity.
  - cbn [importPrompts]. specialize (IH (S i) (S id)).
    destruct (importPrompts usedColors random (S i) entries (S id)) as [ps id'].
    cbn [fst snd map length seq promptId text weight color] in *.
    destruct IH as (H1 & H2 & H3 & H4 & H5).
    rewrite H1, H2, H3, H4, H5. repeat split; try reflexivity. lia.
Qed.

End PromptListFacts.

(** X23.  Clearing the weight field of a prompt mutes the prompt: it stays
    in the list, with its place and identifier, but the prompts sent to the
    session are those that would be sent if it had been removed.  Text in
    the field that is no number leaves the list of prompts as it is. *)
Theorem blank_weight_mutes_prompt (ops : list Prompts.Op) (target : Inputs.Target)
    (p : Prompts.Prompt) :
  In p (Prompts.prompts (fold_left Prompts.apply ops Prompts.initial)) ->
  Inputs.parsedFloat target = None ->
  let st := fold_left Prompts.apply ops Prompts.initial in
  let st' := Inputs.updateWeight target p st in
  (Inputs.blank target = true ->
   map Prompts.promptId (Prompts.prompts st') = map Prompts.promptId (Prompts.prompts st) /\
   map Prompts.text (Prompts.prompts st') = map Prompts.text (Prompts.prompts st) /\
   Prompts.promptsToSend st'
   = Prompts.promptsToSend (Prompts.handlePromptRemoved (Prompts.promptId p) st)) /\
  (Inputs.blank target = false -> st' = st).
Proof.
  intros Hin Hnan st st'. fold st in Hin.
  assert (Hfresh : Prompts.idsFresh st) by (apply run_idsFresh; split; constructor).
  destruct (prompt_split st p Hfresh Hin) as (before & after & Heq & Hb & Ha).
  subst st'. unfold Inputs.updateWeight, Inputs.setWeightFromInput.
  rewrite Hnan. split.
  - intros Hblank. rewrite Hblank. cbn [fst].
    split; [apply handlePromptChanged_ids|].
    unfold Prompts.promptsToSend, Prompts.handlePromptChanged,
      Prompts.handlePromptRemoved.
    cbn [Prompts.prompts Prompts.promptId]. rewrite Heq.
    rewrite !map_app, !filter_app. cbn [map filter].
    rewrite Nat.eqb_refl. cbn [negb Prompts.weight Prompts.text].
    rewrite !map_other_ids by assumption.
    rewrite !filter_other_prompts by assumption.
    split; reflexivity.
  - intros Hblank. rewrite Hblank. cbn [fst].
    unfold Prompts.handlePromptChanged. cbn [Prompts.promptId].
    replace (Prompts.mkPrompt (Prompts.promptId p) (Prompts.color p)
               (Prompts.text p) (Prompts.weight p)) with p by (destruct p; reflexivity).
    replace (map (fun q => if Nat.eqb (Prompts.promptId q) (Prompts.promptId p)
                           then p else q) (Prompts.prompts st))
      with (Prompts.prompts st); [destruct st; reflexivity|].
    rewrite Heq, map_app. cbn [map]. rewrite Nat.eqb_refl.
    rewrite !map_other_ids by assumption. reflexivity.
Qed.

Lemma blank_weight_mutes_prompt_witness :
  let ops := [Prompts.Add "Minimal Techno"%string 1 (1 # 3);
              Prompts.Add "Bossa Nova"%string 1 (1 # 2)] in
  let st := fold_left Prompts.apply ops Prompts.initial in
  let p := Prompts.mkPrompt 0 (Some "#ff25f6"%string) "Minimal Techno"%string 1 in
  let target := Inputs.mkTarget None None true true (Some 0) (Some 2) in
  map Prompts.promptId (Prompts.promptsToSend (Inputs.updateWeight target p st))
  = [1%nat] /\
  Prompts.promptsToSend (Inputs.updateWeight target p st)
  = Prompts.promptsToSend (Prompts.handlePromptRemoved 0 st).
Proof.
  cbv zeta. split; [vm_compute; reflexivity|].
  assert (Hin : In (Prompts.mkPrompt 0 (Some "#ff25f6"%string)
                      "Minimal Techno"%string 1)
                  (Prompts.prompts
                     (fold_left Prompts.apply
                        [Prompts.Add "Minimal Techno"%string 1 (1 # 3);
                         Prompts.Add "Bossa Nova"%string 1 (1 # 2)]
                        Prompts.initial))).
  { vm_compute. left. reflexivity. }
  exact (proj2 (proj2 (proj1 (blank_weight_mutes_prompt _
                                (Inputs.mkTarget None None true true (Some 0) (Some 2))
                                _ Hin eq_refl) eq_refl))).
Defined.

(** X24.  Importing a configuration replaces the prompts by one prompt per
    entry, with consecutive new identifiers, so that identifiers stay
    pairwise distinct; every colour is drawn against the colours in use
    before the import, not against the other imported prompts.  Importing
    what the export writes gives back the same texts and weights, in the
    same order. *)
Theorem export_import_round_trip (entries : list Prompts.Entry) (random : nat -> Q)
    (st : Prompts.State) :
  let st' := Prompts.handleImportConfig entries random st in
  let st'' := Prompts.handleImportConfig (Prompts.exportPrompts st) random st in
  map Prompts.promptId (Prompts.prompts st')
  = seq (Prompts.nextPromptId st) (length entries) /\
  Prompts.nextPromptId st' = (Prompts.nextPromptId st + length entries)%nat /\
  Prompts.idsFresh st' /\
  map Prompts.color (Prompts.prompts st')
  = map (fun k =>
           Prompts.getUnusedRandomColor
             (map Prompts.color (Prompts.prompts st) ++ map Prompts.entryColor entries)
             (random k))
      (seq 0 (length entries)) /\
  map Prompts.text (Prompts.prompts st'') = map Prompts.text (Prompts.prompts st) /\
  map Prompts.weight (Prompts.prompts st'') = map Prompts.weight (Prompts.prompts st).
Proof.
  intros st' st''. subst st' st''. unfold Prompts.handleImportConfig.
  pose proof (importPrompts_spec
                (map Prompts.color (Prompts.prompts st)
                 ++ map Prompts.entryColor entries)
                random entries 0 (Prompts.nextPromptId st)) as (H1 & H2 & _ & _ & H5).
  pose proof (importPrompts_spec
                (map Prompts.color (Prompts.prompts st)
                 ++ map Prompts.entryColor (Prompts.exportPrompts st))
                random (Prompts.exportPrompts st) 0 (Prompts.nextPromptId st))
    as (_ & _ & H3 & H4 & _).
  destruct (Prompts.importPrompts _ random 0 entries _) as [ps id'].
  destruct (Prompts.importPrompts _ random 0 (Prompts.exportPrompts st) _)
    as [ps' id''].
  cbn [fst snd Prompts.prompts Prompts.nextPromptId] in *.
  split; [exact H2|]. split; [exact H1|]. split; [|split; [exact H5|]].
  - split; cbn [Prompts.prompts Prompts.nextPromptId].
    + rewrite H2. apply seq_NoDup.
    + rewrite Forall_forall. intros p Hp.
      apply (in_map Prompts.promptId) in Hp. rewrite H2 in Hp.
      apply in_seq in Hp. lia.
  - unfold Prompts.exportPrompts in H3, H4. rewrite map_map in H3, H4.
    cbn [Prompts.entryText Prompts.entryWeight] in H3, H4.
    split; assumption.
Qed.

(** X25.  Dropping a dragged prompt reorders the prompts: when the
    identifiers read from the page are the identifiers of the prompts in
    some order, the new list holds the same prompts in that order.  In
    general every element of the new list is a prompt of the old list with
    the identifier read, or [undefined]; without a dragged element the list
    is left as it is. *)
Theorem drop_reorders_prompts (ops : list Prompts.Op) (newOrderedIds : list nat) :
  Permutation newOrderedIds
    (map Prompts.promptId
       (Prompts.prompts (fold_left Prompts.apply ops Prompts.initial))) ->
  let st := fold_left Prompts.apply ops Prompts.initial in
  (exists newPrompts,
     Prompts.handleDrop true newOrderedIds st = map Some newPrompts /\
     map Prompts.promptId newPrompts = newOrderedIds /\
     Permutation newPrompts (Prompts.prompts st)) /\
  (forall otherIds i p,
     nth_error (Prompts.handleDrop true otherIds st) i = Some (Some p) ->
     In p (Prompts.prompts st) /\ nth_error otherIds i = Some (Prompts.promptId p)) /\
  Prompts.handleDrop false newOrderedIds st = map Some (Prompts.prompts st).
Proof.
  intros Hperm st. fold st in Hperm.
  assert (Hfresh : Prompts.idsFresh st) by (apply run_idsFresh; split; constructor).
  destruct Hfresh as [Hnd _].
  split; [|split; [|reflexivity]].
  - apply Permutation_map_inv in Hperm. destruct Hperm as (ps & Hids & Hps).
    exists ps. split; [|split; [symmetry; exact Hids | symmetry; exact Hps]].
    unfold Prompts.handleDrop. rewrite Hids, map_map.
    apply map_ext_in. intros p Hp. apply find_by_id; [exact Hnd|].
    eapply Permutation_in; [symmetry; exact Hps | exact Hp].
  - intros otherIds i p Hnth. unfold Prompts.handleDrop in Hnth.
    rewrite nth_error_map in Hnth.
    destruct (nth_error otherIds i) as [id|]; [|discriminate].
    cbn [option_map] in Hnth. injection Hnth as Hfind.
    apply find_in in Hfind. destruct Hfind as [Hin Hid].
    split; [exact Hin | rewrite Hid; reflexivity].
Qed.

Lemma drop_reorders_prompts_witness :
  let ops := [Prompts.Add "Minimal Techno"%string 1 (1 # 3);
              Prompts.Add "Bossa Nova"%string 1 (1 # 2)] in
  let st := fold_left Prompts.apply ops Prompts.initial in
  map (option_map Prompts.text) (Prompts.handleDrop true [1; 0]%nat st)
  = [Some "Bossa Nova"%string; Some "Minimal Techno"%string] /\
  exists newPrompts,
    Prompts.handleDrop true [1; 0]%nat st = map Some newPrompts /\
    map Prompts.promptId newPrompts = [1; 0]%nat.
Proof.
  cbv zeta. split; [vm_compute; reflexivity|].
  assert (Hperm : Permutation [1; 0]%nat
                    (map Prompts.promptId
                       (Prompts.prompts
                          (fold_left Prompts.apply
                             [Prompts.Add "Minimal Techno"%string 1 (1 # 3);
                              Prompts.Add "Bossa Nova"%string 1 (1 # 2)]
                             Prompts.initial)))).
  { vm_compute. apply perm_swap. }
  destruct (proj1 (drop_reorders_prompts _ _ Hperm)) as (ps & H1 & H2 & _).
  exists ps. split; assumption.
Defined.
